(** * protosync: the resolver chain, the remote and archive strategies and
      the closure engine, embedded in Rocq.

    Go values are modelled as follows.
    - [string] is a Go string; [Bytes] is the content of a byte stream.
    - A Go [error] is an [option error_value]: [None] is the nil error.
      Values built with github.com/pkg/errors keep their structure
      (cause chain, format and arguments), and [errors.Is] walks the chain.
    - An interface or pointer result that may be nil is an [option].
    - Code that talks to the network, the file system or a subprocess is a
      function [W -> result * W] over a state [W] of the outside world,
      which stays abstract: the operations on it are the fields of [Sys].
    - Pure functions of the Go standard library whose text is not part of
      the repository (fmt.Sprintf, path.Join, url.Parse, ...) are the
      fields of [GoLib]. *)

From Stdlib Require Import ZArith Ascii String.
From stdpp Require Import base option list gmap strings fin_maps.

Set Default Proof Using "Type".
Open Scope string_scope.
Open Scope list_scope.

(** ** Go strings *)

Module strings.

(** strings.HasPrefix(s, prefix) *)
Definition HasPrefix (s prefix : string) : bool := String.prefix prefix s.

(** strings.HasSuffix(s, suffix) *)
Definition HasSuffix (s suffix : string) : bool :=
  String.prefix (String.rev suffix) (String.rev s).

(** strings.TrimSuffix(s, suffix) *)
Definition TrimSuffix (s suffix : string) : string :=
  if HasSuffix s suffix
  then String.substring 0 (String.length s - String.length suffix) s
  else s.

(** strings.Split(s, sep) for a separator of one character. *)
Fixpoint split_go (sep : ascii) (cur : string) (s : string) : list string :=
  match s with
  | EmptyString => [String.rev cur]
  | String c s' =>
      if Ascii.eqb c sep
      then String.rev cur :: split_go sep EmptyString s'
      else split_go sep (String c cur) s'
  end.

Definition Split1 (s : string) (sep : ascii) : list string :=
  split_go sep EmptyString s.

End strings.

Abbreviation Bytes := string (only parsing).

(** ** Errors (github.com/pkg/errors) *)

Inductive error_value : Type :=
| ENew (msg : string)
    (* errors.New(msg): a package-level sentinel *)
| EErrorf (format : string) (args : list string)
    (* errors.Errorf(format, args...) *)
| EWrap (cause : error_value) (msg : string)
    (* errors.Wrap(cause, msg) *)
| EWrapf (cause : error_value) (format : string) (args : list string)
    (* errors.Wrapf(cause, format, args...) *)
| EWithStack (cause : error_value)
    (* errors.WithStack(cause) *)
| EExternal (msg : string).
    (* an error made outside the repository: os, net/http, encoding/xml *)

Abbreviation error := (option error_value) (only parsing).

Global Instance error_value_eq_dec : EqDecision error_value.
Proof. solve_decision. Defined.

Module errors.

Definition New (msg : string) : error := Some (ENew msg).
Definition Errorf (format : string) (args : list string) : error :=
  Some (EErrorf format args).

(** Wrap, Wrapf and WithStack return nil when given nil. *)
Definition Wrap (err : error) (msg : string) : error :=
  match err with Some e => Some (EWrap e msg) | None => None end.
Definition Wrapf (err : error) (format : string) (args : list string) : error :=
  match err with Some e => Some (EWrapf e format args) | None => None end.
Definition WithStack (err : error) : error :=
  match err with Some e => Some (EWithStack e) | None => None end.

(** The wrapped error, one level down (Unwrap). *)
Definition Unwrap (e : error_value) : error :=
  match e with
  | EWrap c _ | EWrapf c _ _ | EWithStack c => Some c
  | ENew _ | EErrorf _ _ | EExternal _ => None
  end.

(** [wraps e inner]: [inner] is [e] or lies on the cause chain of [e]. *)
Fixpoint wraps (e inner : error_value) : bool :=
  bool_decide (e = inner) ||
  match e with
  | EWrap c _ | EWrapf c _ _ | EWithStack c => wraps c inner
  | ENew _ | EErrorf _ _ | EExternal _ => false
  end.

(** errors.Is(err, target), for a non-nil target. *)
Definition Is (err : error) (target : error_value) : bool :=
  match err with Some e => wraps e target | None => false end.

End errors.

(** var errNotFound = errors.New("not found") *)
Definition errNotFound : error_value := ENew "not found".

(** ** resolver.go: handles, resolvers and their combination *)

(** A named stream: what a [NamedReadCloser] gives when it is read. *)
Record Handle : Type := namedReadCloser { Name : string; Content : Bytes }.

Global Instance Handle_eq_dec : EqDecision Handle.
Proof. solve_decision. Defined.

(** The interface value [NamedReadCloser], which may be nil. *)
Abbreviation NamedReadCloser := (option Handle) (only parsing).

(** type Resolver func(path string) (NamedReadCloser, error).
    [(None, None)] is the not-found outcome. *)
Definition Resolver (W : Type) : Type :=
  string → W → (NamedReadCloser * error) * W.

(** func Combine(resolvers ...Resolver) Resolver *)
Fixpoint Combine {W : Type} (resolvers : list (Resolver W)) : Resolver W :=
  fun path w =>
    match resolvers with
    | [] => ((None, None), w)
    | resolve :: rest =>
        let '((r, err), w1) := resolve path w in
        match err with
        | Some e => ((None, Some e), w1)
        | None =>
            match r with
            | Some h => ((Some h, None), w1)
            | None => Combine rest path w1
            end
        end
    end.

(** Every strategy of the list, called in order from [w], answers
    not-found, and the world is [w'] after the last one. *)
Inductive AllNotFound {W : Type} (path : string)
  : list (Resolver W) → W → W → Prop :=
| anf_nil w : AllNotFound path [] w w
| anf_cons resolve rest w w1 w' :
    resolve path w = ((None, None), w1) →
    AllNotFound path rest w1 w' →
    AllNotFound path (resolve :: rest) w w'.

(** The strategy at position [i], made to note [i] in a call log. *)
Definition logged {W : Type} (i : nat) (resolve : Resolver W)
  : Resolver (W * list nat) :=
  fun path '(w, calls) =>
    let '(res, w1) := resolve path w in (res, (w1, calls ++ [i])).

(** The positions of the strategies that [Combine resolvers] calls on
    [path] from [w], in the order of the calls. *)
Definition Combine_calls {W : Type} (resolvers : list (Resolver W))
    (path : string) (w : W) : list nat :=
  snd (snd (Combine (imap logged resolvers) path (w, []))).

(** ** The Go standard library and the outside world *)

(** net/url.URL, with the fields the program reads or writes. *)
Record URL : Type := mkURL {
  Scheme : string;
  User : option string;
  Host : string;
  Path : string;
  RawQuery : string;
}.

Global Instance URL_eq_dec : EqDecision URL.
Proof. solve_decision. Defined.

Definition set_Scheme (u : URL) (v : string) : URL :=
  mkURL v (User u) (Host u) (Path u) (RawQuery u).
Definition set_User (u : URL) (v : option string) : URL :=
  mkURL (Scheme u) v (Host u) (Path u) (RawQuery u).
Definition set_Path (u : URL) (v : string) : URL :=
  mkURL (Scheme u) (User u) (Host u) v (RawQuery u).
Definition set_RawQuery (u : URL) (v : string) : URL :=
  mkURL (Scheme u) (User u) (Host u) (Path u) v.

(** net/http.Response: status, headers under their canonical keys, and
    the text that reading the body gives. *)
Record Response : Type := mkResponse {
  StatusCode : Z;
  Header : gmap string (list string);
  Body : Bytes;
}.

(** http.Header.Get(key), for a key in canonical form. *)
Definition Header_Get (h : gmap string (list string)) (key : string) : string :=
  match h !! key with
  | Some (v :: _) => v
  | _ => ""
  end.

(** lexer.Position of the parser. *)
Record Position : Type := mkPosition {
  Filename : string; Offset : nat; Line : nat; Column : nat;
}.

(** parser.Entry and parser.Proto: what parser.Parse gives for a file. *)
Record Entry : Type := mkEntry {
  Pos : Position;
  Package : string;
  Import : string;
}.

Record Proto : Type := mkProto { Entries : list Entry }.

(** encoding/xml: names and tokens. *)
Record xml_Name : Type := mkName { Space : string; Local : string }.

Inductive xml_Token : Type :=
| StartElement (name : xml_Name) (attr : list (xml_Name * string))
| EndElement (name : xml_Name)
| CharData (data : string)
| Comment (data : string)
| ProcInst (target inst : string)
| Directive (data : string).

(** What one call of Decoder.Token gives while input is left: a token or
    the error met while reading it. *)
Inductive xml_Item : Type :=
| XTok (t : xml_Token)
| XErr (e : error_value).

(** A decoder over a stream: the results its Token calls will give, in
    order. Once they are used up, Token gives (nil, io.EOF). *)
Abbreviation Decoder := (list xml_Item) (only parsing).

(** var EOF = errors.New("EOF"), of package io. *)
Definition io_EOF : error_value := EExternal "EOF".

(** Pure library functions the program calls. [parser_Parse] is the
    repository's own parser package, whose grammar is outside the part
    under study; reading and parsing a stream is taken as one step. *)
Class GoLib : Type := {
  fmt_Sprintf : string → list string → string;
  path_Join : list string → string;
  filepath_Join : list string → string;
  filepath_Dir : string → string;
  filepath_Base : string → string;
  url_Parse : string → URL + error_value;
  url_String : URL → string;
  sha256_hex : string → string;
  json_Encode : string → string;
  Cmd_String : string → list string → string;
  Position_String : Position → string;
  parser_Parse : Bytes → Proto + error_value;
  xml_NewDecoder : Bytes → Decoder;
}.

(** Operations on the outside world [W]. Each returns what the Go call
    returns together with the world after the call.
    - [os_Stat] gives the error of os.Stat; the file info is non-nil
      exactly when the error is nil.
    - [os_Open] gives a handle named after the file, holding its content.
    - [io_Copy file content] is io.Copy into the file just created.
    - [filepath_Walk root] gives the entries (path, error) that
      filepath.Walk hands to its callback, in the order of the walk; the
      entries are those of the tree as it is when the walk starts. *)
Class Sys (W : Type) : Type := {
  http_Get : string → W → (Response + error_value) * W;
  os_UserCacheDir : W → (string * error) * W;
  os_MkdirAll : string → W → error * W;
  os_Stat : string → W → error * W;
  os_MkdirTemp : string → string → W → (string * error) * W;
  os_RemoveAll : string → W → error * W;
  os_Rename : string → string → W → error * W;
  exec_Run : string → string → list string → W → error * W;
  os_Open : string → W → (Handle + error_value) * W;
  os_Create : string → W → error * W;
  io_Copy : string → Bytes → W → error * W;
  filepath_Walk : string → W → list (string * error) * W;
}.

(** The message of an error: Error(). *)
Fixpoint Error {lib : GoLib} (e : error_value) : string :=
  match e with
  | ENew msg => msg
  | EErrorf format args => fmt_Sprintf format args
  | EWrap cause msg => msg +:+ ": " +:+ Error cause
  | EWrapf cause format args => fmt_Sprintf format args +:+ ": " +:+ Error cause
  | EWithStack cause => Error cause
  | EExternal msg => msg
  end.

(** ** resolver/remote.go *)

(** Repo defines a source repository and where to retrieve protos from it. *)
Record Repo : Type := mkRepo {
  Repo_URL : string;
  Root : string;
  Prefix : string;
  Protos : list string;
  CommitHash : string;
}.

(** func (r *Repo) Commit() string *)
Definition Commit (r : Repo) : string :=
  if String.eqb (CommitHash r) "" then "master" else CommitHash r.

Record RemoteConfig : Type := mkRemoteConfig {
  BitbucketServers : list string;
}.

(** func findRepoForImport(repos []Repo, path string) *Repo *)
Fixpoint findRepoForImport (repos : list Repo) (path : string) : option Repo :=
  match repos with
  | [] => None
  | repo :: rest =>
      if negb (String.eqb (Prefix repo) "") && strings.HasPrefix path (Prefix repo)
      then Some repo
      else if existsb (fun proto => String.eqb proto path) (Protos repo)
      then Some repo
      else findRepoForImport rest path
  end.

(** type fetcherFunc func(u *url.URL, src, commit string) (NamedReadCloser, error).
    The URL is passed by pointer: the function gets the value the pointer
    refers to and returns, next to its results, the value it leaves there. *)
Definition fetcherFunc (W : Type) : Type :=
  URL → string → string → W → ((NamedReadCloser * error) * URL) * W.

Section Remote.
Context {lib : GoLib} {W : Type} {os : Sys W}.

(** func httpGet(srcURL string) (NamedReadCloser, error) *)
Definition httpGet (srcURL : string) (w : W) : (NamedReadCloser * error) * W :=
  let '(res, w) := http_Get srcURL w in
  match res with
  | inr err => ((None, errors.WithStack (Some err)), w)
  | inl resp =>
      if ((StatusCode resp <? 200) || (299 <? StatusCode resp))%Z
      then ((None, errors.Wrap (Some errNotFound) (Body resp)), w)
      else if strings.HasPrefix (Header_Get (Header resp) "Content-Type") "text/html"
      then ((None, errors.WithStack (Some errNotFound)), w)
      else ((Some {| Name := srcURL; Content := Body resp |}, None), w)
  end.

(** func githubFetcher(u *url.URL, relSrc, commit string) (NamedReadCloser, error)
    [u.Scheme = "https"] writes through the pointer it was given; the
    later [u, err := url.Parse(...)] makes the local variable point to a
    new URL and leaves the first one as it is by then. *)
Definition githubFetcher : fetcherFunc W := fun u relSrc commit w =>
  let u := set_Scheme u "https" in
  let parts := strings.Split1 (strings.TrimSuffix (Path u) ".git") "/" in
  if negb (Nat.eqb (length parts) 3)
  then ((None, errors.Errorf
           "expected GitHub URL path in the form /<user>/<repo>.git but got %q"
           [Path u]), u, w)
  else
    let user := nth 1 parts "" in
    let project := nth 2 parts "" in
    match url_Parse (fmt_Sprintf "https://raw.githubusercontent.com/%s/%s/%s/%s"
                       [user; project; commit; relSrc]) with
    | inr err => ((None, errors.WithStack (Some err)), u, w)
    | inl u' =>
        let '(res, w) := httpGet (url_String u') w in (res, u, w)
    end.

(** func bitBucketFetcher(repoURL *url.URL, relSrc, commit string) (NamedReadCloser, error)
    It works on a copy: [u := &url.URL{}; *u = *repoURL]. *)
Definition bitBucketFetcher : fetcherFunc W := fun repoURL relSrc commit w =>
  let u := repoURL in
  let u := set_Scheme u "https" in
  let u := set_User u None in
  let parts := strings.Split1 (strings.TrimSuffix (Path u) ".git") "/" in
  if negb (Nat.eqb (length parts) 4) || negb (String.eqb (nth 1 parts "") "scm")
  then ((None, errors.Errorf
           "expected Bitbucket URL path in the form /scm/<project>/<repo>.git but got %q"
           [Path u]), repoURL, w)
  else
    let project := nth 2 parts "" in
    let repo := nth 3 parts "" in
    let u := set_Path u (path_Join ["projects"; project; "repos"; repo; "raw"; relSrc]) in
    let u := set_RawQuery u ("at=" +:+ commit) in
    let '(res, w) := httpGet (url_String u) w in (res, repoURL, w).

(** func chooseFetcher(config RemoteConfig, repo *Repo, repoURL *url.URL) (fetcherFunc, error) *)
Definition chooseFetcher (config : RemoteConfig) (repo : Repo) (repoURL : URL)
  : option (fetcherFunc W) * error :=
  if String.eqb (Host repoURL) "github.com"
  then (Some githubFetcher, None)
  else if existsb (fun bitbucket => String.eqb (Host repoURL) bitbucket)
            (BitbucketServers config)
  then (Some bitBucketFetcher, None)
  else (None, errors.Errorf "unsupported repository source %q" [Repo_URL repo]).

(** func runInDir(dir, cmdStr string, args ...string) error *)
Definition runInDir (dir cmdStr : string) (args : list string) (w : W) : error * W :=
  let '(err, w) := exec_Run dir cmdStr args w in
  match err with
  | Some e =>
      (errors.Wrapf (Some e) "%s %s failed"
         [Cmd_String cmdStr args; String.concat " " args], w)
  | None => (None, w)
  end.

(** func gitClone(sourceURL, destDir string) error.
    The deferred os.RemoveAll(tmpDestDir) runs on every return that
    follows it. *)
Definition gitClone (sourceURL destDir : string) (w : W) : error * W :=
  let '(statErr, w) := os_Stat (path_Join [destDir; ".git"]) w in
  match statErr with
  | None => runInDir destDir "git" ["pull"] w
  | Some _ =>
      let '((tmpDestDir, err), w) :=
        os_MkdirTemp (filepath_Dir destDir) (filepath_Base destDir +:+ "-*") w in
      match err with
      | Some e => (errors.Wrap (Some e) "cannot create temp directory for git clone", w)
      | None =>
          let '(err, w) :=
            runInDir tmpDestDir "git" ["clone"; sourceURL; tmpDestDir] w in
          match err with
          | Some e =>
              let '(_, w) := os_RemoveAll tmpDestDir w in
              (errors.WithStack (Some e), w)
          | None =>
              let '(err, w) := os_Rename tmpDestDir destDir w in
              let '(_, w) := os_RemoveAll tmpDestDir w in
              match err with
              | Some e => (errors.WithStack (Some e), w)
              | None => (None, w)
              end
          end
      end
  end.

(** func hash(values ...interface{}) string *)
Definition hash (values : list string) : string :=
  sha256_hex (String.concat "" (map json_Encode values)).

(** func cloner(u *url.URL, relPath, commit string) (NamedReadCloser, error).
    It only reads [u]. *)
Definition cloner (u : URL) (relPath commit : string) (w : W)
  : (NamedReadCloser * error) * W :=
  let '((cacheDir, err), w) := os_UserCacheDir w in
  match err with
  | Some e => ((None, errors.WithStack (Some e)), w)
  | None =>
      let repo := filepath_Base (Path u) +:+ "-" +:+ hash [url_String u; commit] in
      let dest := path_Join [cacheDir; "protosync"; repo] in
      let '(err, w) := os_MkdirAll (filepath_Dir dest) w in
      match err with
      | Some e =>
          ((None, errors.Wrapf (Some e)
                    "cannot create protosync cache directory %q" [dest]), w)
      | None =>
          let '(err, w) := gitClone (url_String u) dest w in
          match err with
          | Some e => ((None, errors.WithStack (Some e)), w)
          | None =>
              let '(err, w) := runInDir dest "git" ["checkout"; commit] w in
              match err with
              | Some e => ((None, errors.WithStack (Some e)), w)
              | None =>
                  let name := fmt_Sprintf "%s + %s" [url_String u; relPath] in
                  let '(r, w) := os_Open (path_Join [dest; relPath]) w in
                  match r with
                  | inr e => ((None, errors.WithStack (Some e)), w)
                  | inl f => ((Some {| Name := name; Content := Content f |}, None), w)
                  end
              end
          end
      end
  end.

(** The part of fetchProto after the transport is chosen: the copy of
    the URL, the first fetch and the fallback to a clone. It returns
    the results of fetchProto and the final value of the copy [u]. *)
Definition fetchWith (fetcher : fetcherFunc W) (repo : Repo) (repoURL : URL)
    (proto : string) (w : W) : ((NamedReadCloser * error) * URL) * W :=
  let u := repoURL in
  let relPath := path_Join [Root repo; proto] in
  let '(((r, err), u), w) := fetcher u relPath (Commit repo) w in
  let '((r, err), w) :=
    if errors.Is err errNotFound
    then
      let fetchErr := err in
      let '((r, err), w) := cloner u relPath (Commit repo) w in
      match err with
      | Some e => ((r, errors.Wrap fetchErr (Error e)), w)
      | None => ((r, None), w)
      end
    else ((r, err), w) in
  match err with
  | Some e => ((None, errors.Wrap (Some e) (Repo_URL repo)), u, w)
  | None => ((r, None), u, w)
  end.

(** func fetchProto(config RemoteConfig, repo *Repo, proto string) (NamedReadCloser, error) *)
Definition fetchProto (config : RemoteConfig) (repo : Repo) (proto : string) (w : W)
  : (NamedReadCloser * error) * W :=
  match url_Parse (Repo_URL repo) with
  | inr err => ((None, errors.WithStack (Some err)), w)
  | inl repoURL =>
      match chooseFetcher config repo repoURL with
      | (Some fetcher, None) =>
          let '((res, _), w) := fetchWith fetcher repo repoURL proto w in (res, w)
      | (_, err) => ((None, errors.WithStack err), w)
      end
  end.

(** func Remote(config RemoteConfig, repos []Repo) Resolver *)
Definition Remote (config : RemoteConfig) (repos : list Repo) : Resolver W :=
  fun path w =>
    match findRepoForImport repos path with
    | None => ((None, None), w)
    | Some repo => fetchProto config repo path w
    end.

End Remote.

(** ** resolver/artifactory.go: the version probe *)

(** Decoder.DecodeElement(&version, &se) for a string target, after the
    start element [se] was read: character data directly inside the
    element is gathered, an inner element is passed over to its end
    (Decoder.Skip), and the end element stops the reading. [depth] is 0
    inside the element itself and counts the open inner elements.
    On an error the target keeps its value, the empty string. *)
Fixpoint DecodeElement (depth : nat) (data : string) (dec : Decoder)
  : (string * error) * Decoder :=
  match dec with
  | [] => (("", Some io_EOF), [])
  | XErr e :: rest => (("", Some e), rest)
  | XTok t :: rest =>
      match depth, t with
      | 0, StartElement _ _ => DecodeElement 1 data rest
      | 0, EndElement _ => ((data, None), rest)
      | 0, CharData s => DecodeElement 0 (data +:+ s) rest
      | 0, _ => DecodeElement 0 data rest
      | S d, StartElement _ _ => DecodeElement (S (S d)) data rest
      | S d, EndElement _ => DecodeElement d data rest
      | S d, _ => DecodeElement (S d) data rest
      end
  end.

(** The token loop of syncJARMetadata, with the decoder it leaves.
    Token gives a token or an error, never (nil, nil), so the [break] of
    the loop is not taken and each error comes from Token. In
    [return version, dec.DecodeElement(&version, &se)] the call is made
    before [version] is read, as the gc compiler orders it. *)
Fixpoint latestLoop (dec : Decoder) : (string * error) * Decoder :=
  match dec with
  | [] => (("", errors.WithStack (Some io_EOF)), [])
  | XErr e :: rest => (("", errors.WithStack (Some e)), rest)
  | XTok t :: rest =>
      match t with
      | StartElement name _ =>
          if String.eqb (Local name) "latest"
          then DecodeElement 0 "" rest
          else latestLoop rest
      | _ => latestLoop rest
      end
  end.

Section Artifactory.
Context {lib : GoLib} {W : Type} {os : Sys W}.

(** func syncJARMetadata(artifactoryURL, repositoryPath string) (string, error) *)
Definition syncJARMetadata (artifactoryURL repositoryPath : string) (w : W)
  : (string * error) * W :=
  let url := fmt_Sprintf "%s/%s/maven-metadata.xml" [artifactoryURL; repositoryPath] in
  let '(res, w) := http_Get url w in
  match res with
  | inr err => (("", errors.WithStack (Some err)), w)
  | inl resp => (fst (latestLoop (xml_NewDecoder (Body resp))), w)
  end.

End Artifactory.

(** [ElementContent body v]: the tokens [body] are the well-formed content of
    an element, and [v] is the character data directly inside it. *)
Inductive ElementContent : list xml_Token → string → Prop :=
| content_end : ElementContent [] ""
| content_data s body v :
    ElementContent body v → ElementContent (CharData s :: body) (s +:+ v)
| content_comment s body v :
    ElementContent body v → ElementContent (Comment s :: body) v
| content_procinst t i body v :
    ElementContent body v → ElementContent (ProcInst t i :: body) v
| content_directive s body v :
    ElementContent body v → ElementContent (Directive s :: body) v
| content_element name attr inner vi name' body v :
    ElementContent inner vi →
    ElementContent body v →
    ElementContent (StartElement name attr :: inner ++ EndElement name' :: body) v.

(** The item is a token and does not open an element named "latest". *)
Definition not_latest (item : xml_Item) : Prop :=
  match item with
  | XTok (StartElement name _) => Local name ≠ "latest"
  | XTok _ => True
  | XErr _ => False
  end.

(** ** sync.go: the closure engine

    The recursion of recursiveResolve through resolveImports follows the
    imports of the files fetched, so it is given fuel: one unit for each
    nested call of recursiveResolve. Calls of the logger and of Close are
    left out. *)

(** How a call of the resolver ended. *)
Inductive Outcome : Type :=
| Found
| NotFound
| Failed (e : error_value).

(** What the engine asked of the outside world, in order. *)
Inductive Event : Type :=
| Fetch (imp : string) (out : Outcome)
    (* ctx.resolve(imp) was called and ended with out *)
| Write (imp destFile : string)
    (* os.Create(destFile) was called for the import imp *)
| Reopen (imp destFile : string)
    (* os.Open(destFile) was called to parse the copy of imp *)
| OpenLocal (path : string).
    (* os.Open(path) was called on a file of a local root *)

Global Instance Outcome_eq_dec : EqDecision Outcome.
Proof. solve_decision. Defined.
Global Instance Event_eq_dec : EqDecision Event.
Proof. solve_decision. Defined.

(** type context struct: the fields that stay as they are. The map
    [resolved], which the struct only points to, is part of [state]. *)
Record context (W : Type) : Type := mkContext {
  roots : list string;
  resolve : Resolver W;
  dest : string;
}.
Arguments mkContext {W}.
Arguments roots {W}.
Arguments resolve {W}.
Arguments dest {W}.

(** What changes while Sync runs: the outside world, the map
    ctx.resolved, and the record of the calls made so far. *)
Record state (W : Type) : Type := mkState {
  world : W;
  resolved : gmap string bool;
  trace : list Event;
}.
Arguments mkState {W}.
Arguments world {W}.
Arguments resolved {W}.
Arguments trace {W}.

(** A computation over [state]; [None] means that the fuel given to the
    recursion did not suffice. *)
Definition M (W A : Type) : Type := state W → option (A * state W).

Global Instance M_ret {W} : MRet (M W) := λ A a st, Some (a, st).
Global Instance M_bind {W} : MBind (M W) := λ A B f m st,
  match m st with
  | Some (a, st') => f a st'
  | None => None
  end.

Definition out_of_fuel {W A} : M W A := λ _, None.

(** A call into the outside world. *)
Definition sys {W A} (f : W → A * W) : M W A := λ st,
  let '(a, w) := f (world st) in Some (a, mkState w (resolved st) (trace st)).

Definition emit {W} (ev : Event) : M W unit := λ st,
  Some (tt, mkState (world st) (resolved st) (trace st ++ [ev])).

(** ctx.resolved[imp] *)
Definition is_resolved {W} (imp : string) : M W bool := λ st,
  Some (default false (resolved st !! imp), st).

(** ctx.resolved[imp] = true *)
Definition mark_resolved {W} (imp : string) : M W unit := λ st,
  Some (tt, mkState (world st) (<[imp := true]> (resolved st)) (trace st)).

Definition outcome_of (r : NamedReadCloser) (err : error) : Outcome :=
  match err, r with
  | Some e, _ => Failed e
  | None, Some _ => Found
  | None, None => NotFound
  end.

Section Sync.
Context {lib : GoLib} {W : Type} {os : Sys W}.

(** The loop over ctx.roots in resolveImports: whether os.Stat finds
    the import under one of the roots. *)
Fixpoint isLocal (roots : list string) (imp : string) (w : W) : bool * W :=
  match roots with
  | [] => (false, w)
  | root :: rest =>
      let rootImport := filepath_Join [root; imp] in
      let '(err, w) := os_Stat rootImport w in
      match err with
      | None => (true, w)
      | Some _ => isLocal rest imp w
      end
  end.

(** The loop over proto.Entries in resolveImports; [recur] is
    recursiveResolve. *)
Fixpoint importLoop (recur : string → M W error) (ctx : context W)
    (entries : list Entry) : M W error :=
  match entries with
  | [] => mret None
  | stmt :: rest =>
      if negb (String.eqb (Package stmt) "") then importLoop recur ctx rest
      else if String.eqb (Import stmt) "" then importLoop recur ctx rest
      else
        local ← sys (isLocal (roots ctx) (Import stmt));
        if (local : bool) then importLoop recur ctx rest
        else
          err ← recur (Import stmt);
          match err with
          | Some e => mret (errors.Wrap (Some e) (Position_String (Pos stmt)))
          | None => importLoop recur ctx rest
          end
  end.

(** func resolveImports(ctx *context, r io.Reader) error, over the
    function it calls back. *)
Definition resolveImports_with (recur : string → M W error) (ctx : context W)
    (r : Handle) : M W error :=
  match parser_Parse (Content r) with
  | inr e => mret (errors.WithStack (Some e))
  | inl proto => importLoop recur ctx (Entries proto)
  end.

(** func recursiveResolve(ctx *context, imp string) error *)
Fixpoint recursiveResolve (fuel : nat) (ctx : context W) (imp : string)
  : M W error :=
  match fuel with
  | 0 => out_of_fuel
  | S fuel =>
      done ← is_resolved imp;
      if (done : bool) then mret None
      else
        '(r, err) ← sys (resolve ctx imp);
        _ ← emit (Fetch imp (outcome_of r err));
        match err, r with
        | Some e, _ => mret (errors.Wrapf (Some e) imp [])
        | None, None =>
            mret (errors.Errorf
                    "could not resolve %q, may need resolver config to be updated"
                    [imp])
        | None, Some r =>
            _ ← mark_resolved imp;
            let destFile := filepath_Join [dest ctx; imp] in
            err ← sys (os_MkdirAll (filepath_Dir destFile));
            match err with
            | Some e => mret (errors.WithStack (Some e))
            | None =>
                _ ← emit (Write imp destFile);
                err ← sys (os_Create destFile);
                match err with
                | Some e => mret (errors.WithStack (Some e))
                | None =>
                    err ← sys (io_Copy destFile (Content r));
                    match err with
                    | Some e => mret (errors.WithStack (Some e))
                    | None =>
                        _ ← emit (Reopen imp destFile);
                        r ← sys (os_Open destFile);
                        match r with
                        | inr e => mret (errors.WithStack (Some e))
                        | inl r =>
                            resolveImports_with (recursiveResolve fuel ctx) ctx r
                        end
                    end
                end
            end
        end
  end.

Definition resolveImports (fuel : nat) (ctx : context W) (r : Handle)
  : M W error :=
  resolveImports_with (recursiveResolve fuel ctx) ctx r.

(** The callback that resolveLocalRoot hands to filepath.Walk. *)
Definition walkFn (fuel : nat) (ctx : context W) (path : string) (err : error)
  : M W error :=
  match err with
  | Some e => mret (errors.WithStack (Some e))
  | None =>
      if negb (strings.HasSuffix path ".proto") then mret None
      else
        _ ← emit (OpenLocal path);
        r ← sys (os_Open path);
        match r with
        | inr e => mret (errors.WithStack (Some e))
        | inl r => resolveImports fuel ctx r
        end
  end.

(** filepath.Walk over its entries: it stops at the first error that
    the callback returns and returns it. *)
Fixpoint walkLoop (fuel : nat) (ctx : context W)
    (entries : list (string * error)) : M W error :=
  match entries with
  | [] => mret None
  | (path, err) :: rest =>
      err ← walkFn fuel ctx path err;
      match err with
      | Some e => mret (Some e)
      | None => walkLoop fuel ctx rest
      end
  end.

(** func resolveLocalRoot(ctx *context, root string) error *)
Definition resolveLocalRoot (fuel : nat) (ctx : context W) (root : string)
  : M W error :=
  entries ← sys (filepath_Walk root);
  err ← walkLoop fuel ctx entries;
  mret (errors.WithStack err).

(** One of the two loops of Sync: [f] on each source until an error. *)
Fixpoint forEach (f : string → M W error) (srcs : list string) : M W error :=
  match srcs with
  | [] => mret None
  | src :: rest =>
      err ← f src;
      match err with
      | Some e => mret (Some e)
      | None => forEach f rest
      end
  end.

Definition isProto (src : string) : bool := strings.HasSuffix src ".proto".

(** The body of Sync, from the state it starts in. The result is the
    pair ([]string, error) with [None] for the nil slice. Go ranges over
    the map in no fixed order; the keys come here in the order of
    [map_to_list]. *)
Definition syncBody (fuel : nat) (resolve : Resolver W) (dest : string)
    (sources : list string) : M W (option (list string) * error) :=
  let imports := List.filter isProto sources in
  let roots := List.filter (λ src, negb (isProto src)) sources in
  let ctx := mkContext roots resolve dest in
  err ← forEach (recursiveResolve fuel ctx) imports;
  match err with
  | Some e => mret (None, Some e)
  | None =>
      err ← forEach (resolveLocalRoot fuel ctx) roots;
      match err with
      | Some e => mret (None, Some e)
      | None =>
          λ st, Some ((Some (map fst (map_to_list (resolved st))), None), st)
      end
  end.

(** func Sync(resolve resolver.Resolver, dest string, sources ...string) ([]string, error) *)
Definition Sync (fuel : nat) (resolve : Resolver W) (dest : string)
    (sources : list string) (w : W)
  : option ((option (list string) * error) * state W) :=
  syncBody fuel resolve dest sources (mkState w ∅ []).

End Sync.

(** ** What the record of a run says *)

(** The import paths handed to the resolver, in the order of the calls. *)
Definition fetches (tr : list Event) : list string :=
  omap (λ ev, match ev with Fetch imp _ => Some imp | _ => None end) tr.

(** Those for which the resolver gave a handle. *)
Definition fetched (tr : list Event) : list string :=
  omap (λ ev, match ev with Fetch imp Found => Some imp | _ => None end) tr.

(** The import paths whose destination file was created. *)
Definition writes (tr : list Event) : list string :=
  omap (λ ev, match ev with Write imp _ => Some imp | _ => None end) tr.

(** The import paths whose copy was opened again to be parsed. *)
Definition reopens (tr : list Event) : list string :=
  omap (λ ev, match ev with Reopen imp _ => Some imp | _ => None end) tr.

(** The error that recursiveResolve makes when the resolver does not
    give a handle for [imp]. *)
Definition blame (imp : string) (out : Outcome) : error_value :=
  match out with
  | Failed e => EWrapf e imp []
  | _ => EErrorf "could not resolve %q, may need resolver config to be updated" [imp]
  end.

(** Every key of the map is mapped to true. *)
Definition all_true (res : gmap string bool) : Prop :=
  ∀ p b, res !! p = Some b → b = true.

(** The map and the record of a run in which nothing failed so far:
    every call of the resolver gave a handle, the keys of the map are the
    paths fetched, none was fetched twice, and each was written and
    opened again. *)
Record Clean (res : gmap string bool) (tr : list Event) : Prop := mkClean {
  clean_true : all_true res;
  clean_dom : ∀ p, p ∈ fetches tr ↔ is_Some (res !! p);
  clean_nodup : NoDup (fetches tr);
  clean_found : ∀ imp out, Fetch imp out ∈ tr → out = Found;
  clean_writes : writes tr = fetches tr;
  clean_reopens : reopens tr = fetches tr;
}.

(** What holds of the map and the record at every return, also after a
    failure. *)
Record Settled (res : gmap string bool) (tr : list Event) : Prop := mkSettled {
  settled_true : all_true res;
  settled_dom : ∀ p, p ∈ fetched tr ↔ is_Some (res !! p);
  settled_nodup : NoDup (fetches tr);
  settled_writes : writes tr `prefix_of` fetched tr;
  settled_reopens : reopens tr `prefix_of` writes tr;
}.

(** What holds when a function of the engine returns [r] in state [st],
    if it was entered in a clean state. *)
Record Post {W : Type} (r : error) (st : state W) : Prop := mkPost {
  post_clean : r = None → Clean (resolved st) (trace st);
  post_settled : Settled (resolved st) (trace st);
  post_blame : ∀ imp out,
    out ≠ Found → Fetch imp out ∈ trace st →
    ∃ e, r = Some e ∧ errors.wraps e (blame imp out) = true;
}.

(** os.Stat finds [p] under one and the same root of [roots], in every
    state of the world. *)
Definition always_local {lib : GoLib} {W : Type} {os : Sys W}
    (roots : list string) (p : string) : Prop :=
  ∃ root, root ∈ roots ∧ ∀ w : W, (os_Stat (filepath_Join [root; p]) w).1 = None.

(** The states from which a walk with [n] levels of recursion left is sure
    to return: fewer than [n] paths of [U] are not yet resolved. *)
Definition within {W : Type} (U : gset string) (n : nat) (st : state W) : Prop :=
  all_true (resolved st) ∧ dom (resolved st) ⊆ U ∧
  size (U ∖ dom (resolved st)) < n.

(** What the proofs about the engine ask of the function that
    resolveImports calls back. *)
Definition engine_spec {W : Type} (recur : string → M W error) : Prop :=
  ∀ imp st r st',
    Clean (resolved st) (trace st) → recur imp st = Some (r, st') → Post r st'.

(** The path [p] was not handed to the resolver and is not a key of the
    map. *)
Definition untouched {W : Type} (p : string) (st : state W) : Prop :=
  (p ∉ fetches (trace st)) ∧ (resolved st !! p = None).

(** ** A small concrete world, to run the definitions on examples *)

Module Sim.

(** Files on disk that the run may write, and pages on the web (status
    and body by URL). *)
Record Disk : Type := mkDisk {
  files : gmap string string;
  web : gmap string (Z * string);
}.

Definition set_files (d : Disk) (f : gmap string string) : Disk :=
  mkDisk f (web d).

Definition dquote : string := String (Ascii.ascii_of_nat 34) EmptyString.

(** "%s" and "%q" take the next argument, "%q" in quotes. *)
Fixpoint sprintf (format : string) (args : list string) : string :=
  match format with
  | String "%" (String "s" rest) =>
      match args with
      | a :: args' => a +:+ sprintf rest args'
      | [] => "%!s(MISSING)" +:+ sprintf rest []
      end
  | String "%" (String "q" rest) =>
      match args with
      | a :: args' => dquote +:+ a +:+ dquote +:+ sprintf rest args'
      | [] => "%!q(MISSING)" +:+ sprintf rest []
      end
  | String c rest => String c (sprintf rest args)
  | EmptyString => EmptyString
  end.

Definition join (elem : list string) : string :=
  String.concat "/" (List.filter (λ s, negb (String.eqb s "")) elem).

Definition dir (p : string) : string :=
  String.concat "/" (removelast (strings.Split1 p "/")).

Definition base (p : string) : string :=
  List.last (strings.Split1 p "/") "".

Definition after (n : nat) (s : string) : string :=
  String.substring n (String.length s - n) s.

(** scheme://[user@]host[/path] *)
Definition parse_url (s : string) : URL + error_value :=
  match String.index 0 "://" s with
  | None => inr (EExternal "missing protocol scheme")
  | Some i =>
      let rest := after (i + 3) s in
      let '(auth, path) :=
        match String.index 0 "/" rest with
        | Some j => (String.substring 0 j rest, after j rest)
        | None => (rest, "")
        end in
      let '(user, host) :=
        match String.index 0 "@" auth with
        | Some k => (Some (String.substring 0 k auth), after (k + 1) auth)
        | None => (None, auth)
        end in
      inl (mkURL (String.substring 0 i s) user host path "")
  end.

Definition url_string (u : URL) : string :=
  Scheme u +:+ "://" +:+
  match User u with Some n => n +:+ "@" | None => "" end +:+
  Host u +:+ Path u +:+
  (if String.eqb (RawQuery u) "" then "" else "?" +:+ RawQuery u).

(** A file is a list of import paths separated by ";"; the one-character
    file "!" does not parse. *)
Definition parse (content : Bytes) : Proto + error_value :=
  if String.eqb content "!" then inr (EExternal "syntax error")
  else inl (mkProto (map (mkEntry (mkPosition "" 0 0 0) "")
                       (strings.Split1 content ";"))).

Definition lib (dec : Decoder) : GoLib := {|
  fmt_Sprintf := sprintf;
  path_Join := join;
  filepath_Join := join;
  filepath_Dir := dir;
  filepath_Base := base;
  url_Parse := parse_url;
  url_String := url_string;
  sha256_hex := λ s, s;
  json_Encode := λ s, s;
  Cmd_String := λ cmd args, String.concat " " (cmd :: args);
  Position_String := λ _, "pos";
  parser_Parse := parse;
  xml_NewDecoder := λ _, dec;
|}.

Definition no_such_file : error_value := EExternal "no such file or directory".

(** The files seen on a disk [d] next to the files [locals], which are
    there in every state; [locals] comes first. *)
Definition present (locals : gmap string string) (d : Disk)
  : gmap string string :=
  locals ∪ files d.

Definition walk (locals : gmap string string) (root : string) (d : Disk)
  : list (string * error) :=
  match List.filter (λ p, strings.HasPrefix p (root +:+ "/"))
          (map fst (map_to_list (present locals d))) with
  | [] => [(root, Some no_such_file)]
  | ps => (root, None) :: map (λ p, (p, None)) ps
  end.

(** A disk without git: pages come from [web] (404 when absent), files
    from [locals] and [files], and every subprocess fails. *)
Definition disk_sys (locals : gmap string string) : Sys Disk := {|
  http_Get := λ url d,
    (inl match web d !! url with
         | Some (code, body) => mkResponse code ∅ body
         | None => mkResponse 404 ∅ "404: Not Found"
         end, d);
  os_UserCacheDir := λ d, (("/cache", None), d);
  os_MkdirAll := λ _ d, (None, d);
  os_Stat := λ p d,
    (match present locals d !! p with
     | Some _ => None
     | None => Some no_such_file
     end, d);
  os_MkdirTemp := λ dir pat d, ((join [dir; pat], None), d);
  os_RemoveAll := λ _ d, (None, d);
  os_Rename := λ _ _ d, (None, d);
  exec_Run := λ _ _ _ d, (Some (EExternal "exit status 128"), d);
  os_Open := λ p d,
    (match present locals d !! p with
     | Some c => inl {| Name := p; Content := c |}
     | None => inr no_such_file
     end, d);
  os_Create := λ p d, (None, set_files d (<[p := ""]> (files d)));
  io_Copy := λ p c d, (None, set_files d (<[p := c]> (files d)));
  filepath_Walk := λ root d, (walk locals root d, d);
|}.

(** The example resolver: it serves the protos of [m], by import path. *)
Definition serve (m : gmap string string) : Resolver Disk := λ p d,
  (match m !! p with
   | Some c => (Some {| Name := "served:" +:+ p; Content := c |}, None)
   | None => (None, None)
   end, d).

End Sim.

(** ** resolver/local.go and the source globs of config.go *)

(** The test that findRepoForImport makes on one descriptor: the prefix
    is not empty and the path starts with it, or the path is one of the
    listed protos. *)
Definition repoMatches (repo : Repo) (path : string) : bool :=
  (negb (String.eqb (Prefix repo) "") && strings.HasPrefix path (Prefix repo))
  || existsb (fun proto => String.eqb proto path) (Protos repo).

(** What local.go and config.go ask of the outside world besides [Sys]:
    filepath.Glob, and os.IsNotExist on a non-nil error. *)
Class Globber (W : Type) : Type := {
  filepath_Glob : string → W → (list string * error) * W;
  os_IsNotExist : error_value → bool;
}.

Module local.
Section LocalStrategy.
Context {lib : GoLib} {W : Type} {os : Sys W} {gl : Globber W}.

(** The loop of Local over the roots that one include expands to.
    [None] means that no root had the file and the next include is
    tried; [Some] is what Local returns. *)
Fixpoint Local_roots (roots : list string) (path : string) (w : W)
  : option (NamedReadCloser * error) * W :=
  match roots with
  | [] => (None, w)
  | root :: rest =>
      let localPath := filepath_Join [root; path] in
      let '(r, w) := os_Open localPath w in
      match r with
      | inr e =>
          if os_IsNotExist e then Local_roots rest path w
          else (Some (None, errors.WithStack (Some e)), w)
      | inl f => (Some (Some f, None), w)
      end
  end.

(** func Local(includes []string) Resolver *)
Fixpoint Local (includes : list string) : Resolver W :=
  fun path w =>
    match includes with
    | [] => ((None, None), w)
    | include :: rest =>
        let '((roots, err), w) := filepath_Glob include w in
        match err with
        | Some e => ((None, errors.WithStack (Some e)), w)
        | None =>
            let '(res, w) := Local_roots roots path w in
            match res with
            | Some out => (out, w)
            | None => Local rest path w
            end
        end
    end.

(** os.Open fails with a not-exist error on [path] under each of the
    roots, tried in order from [w]; the world is [w'] after the last. *)
Inductive AllAbsent (path : string) : list string → W → W → Prop :=
| absent_nil w : AllAbsent path [] w w
| absent_cons root rest w e w1 w' :
    os_Open (filepath_Join [root; path]) w = (inr e, w1) →
    os_IsNotExist e = true →
    AllAbsent path rest w1 w' →
    AllAbsent path (root :: rest) w w'.

End LocalStrategy.
End local.

Module config.
Section Sources.
Context {W : Type} {gl : Globber W}.

(** The loop "Glob sources" of Config.Resolve, with what Resolve returns
    for its results [sources] and [err]; [acc] is [sources] so far. *)
Fixpoint globSources (acc : list string) (srcs : list string) (w : W)
  : (option (list string) * error) * W :=
  match srcs with
  | [] => ((Some acc, None), w)
  | source :: rest =>
      let '((matches, err), w) := filepath_Glob source w in
      match err with
      | Some e => ((None, errors.Wrap (Some e) source), w)
      | None =>
          if Nat.eqb (length matches) 0
          then globSources (acc ++ [source]) rest w
          else globSources (acc ++ matches) rest w
      end
  end.

(** What one source adds to [sources]: itself when the pattern matches
    nothing, and the matches otherwise. *)
Definition expand (source : string) (matches : list string) : list string :=
  if Nat.eqb (length matches) 0 then [source] else matches.

(** filepath.Glob gives [results], without an error, for the sources in
    order, from the world [w] to the world [w']. *)
Inductive Globbed : list string → W → list (list string) → W → Prop :=
| globbed_nil w : Globbed [] w [] w
| globbed_cons source rest w matches w1 results w' :
    filepath_Glob source w = ((matches, None), w1) →
    Globbed rest w1 results w' →
    Globbed (source :: rest) w (matches :: results) w'.

End Sources.
End config.

(** ** resolver/artifactory.go: the archive strategy *)

(** ArtifactoryRepositoryConfig is the config for a single repository
    within Artifactory. *)
Record ArtifactoryRepositoryConfig : Type := mkArtifactoryRepositoryConfig {
  Repository_Path : string;
  Version : string;
}.

(** archive/zip: an entry of an open archive, with what its Open gives,
    and the open archive with its entries in the order of the archive. *)
Record zip_File : Type := mkZipFile {
  File_Name : string;
  File_Open : Bytes + error_value;
}.

Record zip_ReadCloser : Type := mkZipReadCloser { File : list zip_File }.

(** What artifactory.go asks of the outside world besides [Sys]:
    zip.OpenReader, and ioutil.TempFile, which gives the name of the file
    it made. *)
Class Archives (W : Type) : Type := {
  zip_OpenReader : string → W → (zip_ReadCloser + error_value) * W;
  ioutil_TempFile : string → string → W → (string * error) * W;
}.

(** The variables [jarPath] and [zipFile] that the function returned by
    ArtifactoryJAR captures and keeps between its calls. *)
Record JarState : Type := mkJarState {
  jarPath : string;
  zipFile : option zip_ReadCloser;
}.

(** The loop of the resolver over zipFile.File. *)
Fixpoint findEntry (files : list zip_File) (jarPath path : string)
  : NamedReadCloser * error :=
  match files with
  | [] => (None, None)
  | file :: rest =>
      if String.eqb (File_Name file) path
      then
        match File_Open file with
        | inr e => (None, errors.Wrap (Some e) jarPath)
        | inl r => (Some {| Name := jarPath +:+ "#" +:+ path; Content := r |}, None)
        end
      else findEntry rest jarPath path
  end.

Section ArchiveStrategy.
Context {lib : GoLib} {W : Type} {os : Sys W} {ar : Archives W}.

(** What openJAR returns: [inl (dest, zr)] for (dest, zr, nil) and
    [inr (s, err)] for (s, nil, err). *)
Definition opened : Type := (string * zip_ReadCloser) + (string * error_value).

(** zr, err := zip.OpenReader(dest); return dest, zr, errors.WithStack(err) *)
Definition openReader (dest : string) (w : W) : opened * W :=
  let '(zr, w) := zip_OpenReader dest w in
  match zr with
  | inl z => (inl (dest, z), w)
  | inr e => (inr (dest, EWithStack e), w)
  end.

(** func openJAR(artifactoryURL, jarBaseURL string, repository ArtifactoryRepositoryConfig) (string, *zip.ReadCloser, error).
    http.NewRequest followed by http.DefaultClient.Do is the GET of
    [http_Get]; an error of either comes back with a stack. *)
Definition openJAR (artifactoryURL jarBaseURL : string)
    (repository : ArtifactoryRepositoryConfig) (w : W) : opened * W :=
  let '((cacheDir, err), w) := os_UserCacheDir w in
  match err with
  | Some e => (inr ("", EWithStack e), w)
  | None =>
      let artifactName := filepath_Base (Repository_Path repository) in
      let '((version, err), w) :=
        if String.eqb (Version repository) ""
        then syncJARMetadata artifactoryURL (Repository_Path repository) w
        else ((Version repository, None), w) in
      match err with
      | Some e => (inr ("", e), w)
      | None =>
          let filename := fmt_Sprintf "%s-%s.jar" [artifactName; version] in
          let dest := filepath_Join [cacheDir; filename] in
          let '(statErr, w) := os_Stat dest w in
          match statErr with
          | None => openReader dest w
          | Some _ =>
              let jarPath :=
                fmt_Sprintf "%s/%s/%s/%s"
                  [jarBaseURL; Repository_Path repository; version; filename] in
              let '(res, w) := http_Get jarPath w in
              match res with
              | inr e => (inr ("", EWithStack e), w)
              | inl resp =>
                  let '((tmp, err), w) :=
                    ioutil_TempFile cacheDir (artifactName +:+ "-*.jar") w in
                  match err with
                  | Some e => (inr ("", EWithStack e), w)
                  | None =>
                      let '(err, w) := io_Copy tmp (Body resp) w in
                      match err with
                      | Some e => (inr ("", EWithStack e), w)
                      | None =>
                          let '(err, w) := os_Rename tmp dest w in
                          match err with
                          | Some e => (inr ("", EWithStack e), w)
                          | None => openReader dest w
                          end
                      end
                  end
              end
          end
      end
  end.

(** func ArtifactoryJAR(artifactoryURL, jarURL string, repository ArtifactoryRepositoryConfig) Resolver.
    The resolver works on its two captured variables next to the world. *)
Definition ArtifactoryJAR (artifactoryURL jarURL : string)
    (repository : ArtifactoryRepositoryConfig) : Resolver (JarState * W) :=
  fun path '(js, w) =>
    match zipFile js with
    | Some z => (findEntry (File z) (jarPath js) path, (js, w))
    | None =>
        let '(res, w) := openJAR artifactoryURL jarURL repository w in
        match res with
        | inr (s, e) => ((None, Some e), (mkJarState s None, w))
        | inl (dest, z) =>
            (findEntry (File z) dest path, (mkJarState dest (Some z), w))
        end
    end.

End ArchiveStrategy.

(** ** log/log.go *)

Module log.

(** type Level int, with its six constants in the order of their values. *)
Inductive Level : Type :=
| LevelTrace | LevelDebug | LevelInfo | LevelWarn | LevelError | LevelFatal.

Global Instance Level_eq_dec : EqDecision Level.
Proof. solve_decision. Defined.

(** The integer behind a level. *)
Definition Level_int (l : Level) : Z :=
  match l with
  | LevelTrace => 0 | LevelDebug => 1 | LevelInfo => 2
  | LevelWarn => 3 | LevelError => 4 | LevelFatal => 5
  end.

(** The String method that stringer makes from the line comments of the
    constants (go:generate stringer -linecomment -type Level). *)
Definition Level_String (l : Level) : string :=
  match l with
  | LevelTrace => "trace" | LevelDebug => "debug" | LevelInfo => "info"
  | LevelWarn => "warn" | LevelError => "error" | LevelFatal => "fatal"
  end.

(** func LevelFromString(s string) (Level, error); the level of the
    default case is Level(0). *)
Definition LevelFromString (s : string) : Level * error :=
  if String.eqb s "trace" then (LevelTrace, None)
  else if String.eqb s "debug" then (LevelDebug, None)
  else if String.eqb s "info" then (LevelInfo, None)
  else if String.eqb s "warn" || String.eqb s "warning" then (LevelWarn, None)
  else if String.eqb s "error" then (LevelError, None)
  else if String.eqb s "fatal" then (LevelFatal, None)
  else (LevelTrace, errors.Errorf "invalid log level %q" [s]).

(** A destination of log lines: the two standard streams or another
    writer. *)
Inductive Writer : Type :=
| Stdout
| Stderr
| OtherWriter (id : nat).

(** The package variables MinLevel, LogOutput and LogError, and what was
    written so far, to which writer. *)
Record Globals : Type := mkGlobals {
  MinLevel : Level;
  LogOutput : Writer;
  LogError : Writer;
  written : list (Writer * string);
}.

(** The values of the package variables when the program starts. *)
Definition initial : Globals := mkGlobals LevelWarn Stdout Stderr [].

Record Config : Type := mkConfig { Config_Level : Level }.

(** func Configure(config Config) error *)
Definition Configure (config : Config) (g : Globals) : error * Globals :=
  (None, mkGlobals (Config_Level config) (LogOutput g) (LogError g) (written g)).

(** type Logger struct *)
Record Logger : Type := mkLogger {
  prefix : list string;
  buf : Bytes;
}.

Definition levelColor (l : Level) : string :=
  match l with
  | LevelTrace => ""
  | LevelDebug => "^6"
  | LevelInfo => "^2"
  | LevelWarn | LevelError | LevelFatal => "^3"
  end.

(** The line feed. *)
Definition LF : ascii := Ascii.ascii_of_nat 10.

(** func (l *Logger) prefixIt() string *)
Definition prefixIt (l : Logger) : string :=
  if Nat.eqb (length (prefix l)) 0 then " "
  else String.concat ":" (prefix l) +:+ ": ".

Section Logging.
Context {lib : GoLib}.

(** What colour.Colour(out).Printf(format, args...) writes. *)
Variable colour_Sprintf : string → list string → string.

(** func (l *Logger) Logf(level Level, format string, args ...interface{}) *)
Definition Logf (l : Logger) (level : Level) (format : string)
    (args : list string) (g : Globals) : Globals :=
  if (Level_int level <? Level_int (MinLevel g))%Z then g
  else
    let out :=
      if bool_decide (level = LevelError) then LogError g
      else if bool_decide (level = LevelFatal) then Stderr
      else LogOutput g in
    let format :=
      fmt_Sprintf ("^B%s%s:%s^R%s%s^R" +:+ String LF "")
        [levelColor level; Level_String level; prefixIt l;
         levelColor level; format] in
    mkGlobals (MinLevel g) (LogOutput g) (LogError g)
      (written g ++ [(out, colour_Sprintf format args)]).

(** func (l *Logger) Debugf(format string, args ...interface{}) *)
Definition Debugf (l : Logger) (format : string) (args : list string)
    (g : Globals) : Globals :=
  Logf l LevelDebug format args g.

(** bytes.IndexByte(b, c), with [None] for -1. *)
Fixpoint IndexByte (b : Bytes) (c : ascii) : option nat :=
  match b with
  | EmptyString => None
  | String x rest =>
      if Ascii.eqb x c then Some 0 else option_map S (IndexByte rest c)
  end.

(** b[i:] *)
Definition from (i : nat) (b : Bytes) : Bytes :=
  String.substring i (String.length b - i) b.

(** The loop of Write, run at most [fuel] times. *)
Fixpoint writeLoop (fuel : nat) (l : Logger) (g : Globals) : Logger * Globals :=
  match fuel with
  | 0 => (l, g)
  | S fuel =>
      match IndexByte (buf l) LF with
      | None => (l, g)
      | Some i =>
          let g := Debugf l "%s" [String.substring 0 i (buf l)] g in
          if Nat.leb (String.length (buf l)) i
          then (mkLogger (prefix l) "", g)
          else writeLoop fuel (mkLogger (prefix l) (from (i + 1) (buf l))) g
      end
  end.

(** func (l *Logger) Write(b []byte) (int, error). Each turn of the loop
    takes at least one byte off the buffer, so its length bounds the
    turns. *)
Definition Write (l : Logger) (b : Bytes) (g : Globals)
  : (nat * error) * (Logger * Globals) :=
  let l := mkLogger (prefix l) (buf l +:+ b) in
  ((String.length b, None), writeLoop (S (String.length (buf l))) l g).

End Logging.

End log.

(** ** The example world, for the code above *)

Module SimX.

(** URL.String puts a slash between a host and a path that does not
    start with one. *)
Definition url_string (u : URL) : string :=
  Scheme u +:+ "://" +:+
  match User u with Some n => n +:+ "@" | None => "" end +:+
  Host u +:+
  (if negb (String.eqb (Host u) "") && negb (String.eqb (Path u) "")
      && negb (strings.HasPrefix (Path u) "/")
   then "/" else "") +:+
  Path u +:+
  (if String.eqb (RawQuery u) "" then "" else "?" +:+ RawQuery u).

Definition lib (dec : Decoder) : GoLib := {|
  fmt_Sprintf := Sim.sprintf;
  path_Join := Sim.join;
  filepath_Join := Sim.join;
  filepath_Dir := Sim.dir;
  filepath_Base := Sim.base;
  url_Parse := Sim.parse_url;
  url_String := url_string;
  sha256_hex := λ s, s;
  json_Encode := λ s, s;
  Cmd_String := λ cmd args, String.concat " " (cmd :: args);
  Position_String := λ _, "pos";
  parser_Parse := Sim.parse;
  xml_NewDecoder := λ _, dec;
|}.

(** A pattern with "[" is malformed; any other pattern matches itself
    when a file lies below it, and nothing otherwise. *)
Definition globber (locals : gmap string string) : Globber Sim.Disk := {|
  filepath_Glob := λ pattern d,
    (match String.index 0 "[" pattern with
     | Some _ => ([], Some (EExternal "syntax error in pattern"))
     | None =>
         (match List.filter (λ p, strings.HasPrefix p (pattern +:+ "/"))
                  (map fst (map_to_list (Sim.present locals d))) with
          | [] => []
          | _ => [pattern]
          end, None)
     end, d);
  os_IsNotExist := λ e, bool_decide (e = Sim.no_such_file);
|}.

(** An archive is a file of entries "name=content" separated by ";"; a
    file without "=" is not an archive. *)
Definition unzip (content : string) : zip_ReadCloser :=
  mkZipReadCloser
    (map (λ item,
            let fields := strings.Split1 item "=" in
            mkZipFile (nth 0 fields "") (inl (nth 1 fields "")))
       (strings.Split1 content ";")).

Definition archives (locals : gmap string string) : Archives Sim.Disk := {|
  zip_OpenReader := λ p d,
    (match Sim.present locals d !! p with
     | Some c =>
         match String.index 0 "=" c with
         | Some _ => inl (unzip c)
         | None => inr (EExternal "zip: not a valid zip file")
         end
     | None => inr Sim.no_such_file
     end, d);
  ioutil_TempFile := λ dir pattern d,
    let name := Sim.join [dir; pattern] in
    ((name, None), Sim.set_files d (<[name := ""]> (Sim.files d)));
|}.

(** The disk of [Sim.disk_sys], on which os.Rename moves the file. *)
Definition disk_sys (locals : gmap string string) : Sys Sim.Disk :=
  let base := Sim.disk_sys locals in {|
    http_Get := http_Get (Sys := base);
    os_UserCacheDir := os_UserCacheDir (Sys := base);
    os_MkdirAll := os_MkdirAll (Sys := base);
    os_Stat := os_Stat (Sys := base);
    os_MkdirTemp := os_MkdirTemp (Sys := base);
    os_RemoveAll := os_RemoveAll (Sys := base);
    os_Rename := λ old new d,
      match Sim.files d !! old with
      | Some c =>
          (None, Sim.set_files d (<[new := c]> (delete old (Sim.files d))))
      | None => (Some Sim.no_such_file, d)
      end;
    exec_Run := exec_Run (Sys := base);
    os_Open := os_Open (Sys := base);
    os_Create := os_Create (Sys := base);
    io_Copy := io_Copy (Sys := base);
    filepath_Walk := filepath_Walk (Sys := base);
  |}.

(** The same disk, on which no directory can be made. *)
Definition readonly_sys (locals : gmap string string) : Sys Sim.Disk :=
  let base := Sim.disk_sys locals in {|
    http_Get := http_Get (Sys := base);
    os_UserCacheDir := os_UserCacheDir (Sys := base);
    os_MkdirAll := λ _ d, (Some (EExternal "permission denied"), d);
    os_Stat := os_Stat (Sys := base);
    os_MkdirTemp := os_MkdirTemp (Sys := base);
    os_RemoveAll := os_RemoveAll (Sys := base);
    os_Rename := os_Rename (Sys := base);
    exec_Run := exec_Run (Sys := base);
    os_Open := os_Open (Sys := base);
    os_Create := os_Create (Sys := base);
    io_Copy := io_Copy (Sys := base);
    filepath_Walk := filepath_Walk (Sys := base);
  |}.

End SimX.

(** ** Notions used to state further properties *)

(** A result that is a handle without an error or an error without a
    handle: neither not-found nor both at once. *)
Definition decided (res : NamedReadCloser * error) : Prop :=
  (∃ h, res = (Some h, None)) ∨ (∃ e, res = (None, Some e)).

(** The file an event names is the one the engine derives from the
    import path: the destination of the import for a write or a re-open,
    a file with the suffix of protos for a local file. *)
Definition event_ok {lib : GoLib} (dest : string) (ev : Event) : Prop :=
  match ev with
  | Fetch _ _ => True
  | Write imp destFile | Reopen imp destFile =>
      destFile = filepath_Join [dest; imp]
  | OpenLocal path => strings.HasSuffix path ".proto" = true
  end.

(** No local file was opened. *)
Definition no_local (tr : list Event) : Prop := ∀ path, OpenLocal path ∉ tr.

(** The keys of the resolved map are kept from [st] to [st']. *)
Definition grows {W : Type} (st st' : state W) : Prop :=
  ∀ p, is_Some (resolved st !! p) → is_Some (resolved st' !! p).

(** From [st] to [st'] the keys are kept and the events stay sound. *)
Definition keeps {lib : GoLib} {W : Type} (dest : string) (st st' : state W)
  : Prop :=
  grows st st' ∧
  (Forall (event_ok dest) (trace st) → Forall (event_ok dest) (trace st')).

(** What the proofs about the phases of Sync ask of a function that
    resolves one import: it keeps the keys and the soundness of the
    events, marks the import when it returns nil, and opens no local
    file. *)
Definition phase_spec {lib : GoLib} {W : Type} (dest : string)
    (recur : string → M W error) : Prop :=
  ∀ imp st r st', recur imp st = Some (r, st') →
    keeps dest st st' ∧
    (r = None → is_Some (resolved st' !! imp)) ∧
    (no_local (trace st) → no_local (trace st')).

(** ** A run under watch

    To say what a run of Sync looked up and read, the operating system is
    wrapped: the wrapped calls do what the calls of [os] do and note, next
    to the world, each os.Stat with its outcome, each file that os.Open
    gave and the entries of each filepath.Walk. The engine itself is the
    one above. *)

(** What was noted so far, oldest first. *)
Record Journal : Type := mkJournal {
  stats : list (string * bool);
    (* os.Stat(path) was called; true when it gave no error *)
  opens : list (string * Bytes);
    (* os.Open(path) gave a file with this content *)
  walks : list (string * list (string * error));
    (* filepath.Walk(root) handed these entries to its callback *)
}.

Definition no_journal : Journal := mkJournal [] [] [].

Definition nil_error (err : error) : bool :=
  match err with None => true | Some _ => false end.

(** A call of [os] that is not noted. *)
Definition lift {W A : Type} (f : W → A * W) (wj : W * Journal)
  : A * (W * Journal) :=
  let '(a, w) := f wj.1 in (a, (w, wj.2)).

Definition watched {W : Type} (os : Sys W) : Sys (W * Journal) := {|
  http_Get := λ url, lift (http_Get (Sys := os) url);
  os_UserCacheDir := lift (os_UserCacheDir (Sys := os));
  os_MkdirAll := λ path, lift (os_MkdirAll (Sys := os) path);
  os_Stat := λ path wj,
    let '(err, w) := os_Stat (Sys := os) path wj.1 in
    (err, (w, mkJournal (stats wj.2 ++ [(path, nil_error err)]) (opens wj.2)
                (walks wj.2)));
  os_MkdirTemp := λ dir pattern, lift (os_MkdirTemp (Sys := os) dir pattern);
  os_RemoveAll := λ path, lift (os_RemoveAll (Sys := os) path);
  os_Rename := λ old new, lift (os_Rename (Sys := os) old new);
  exec_Run := λ dir cmd args, lift (exec_Run (Sys := os) dir cmd args);
  os_Open := λ path wj,
    let '(r, w) := os_Open (Sys := os) path wj.1 in
    (r, (w, match r with
            | inl f =>
                mkJournal (stats wj.2) (opens wj.2 ++ [(path, Content f)])
                  (walks wj.2)
            | inr _ => wj.2
            end));
  os_Create := λ path, lift (os_Create (Sys := os) path);
  io_Copy := λ path content, lift (io_Copy (Sys := os) path content);
  filepath_Walk := λ root wj,
    let '(entries, w) := filepath_Walk (Sys := os) root wj.1 in
    (entries, (w, mkJournal (stats wj.2) (opens wj.2)
                    (walks wj.2 ++ [(root, entries)])));
|}.

(** The resolver, which works on the world and leaves the notes alone. *)
Definition watched_resolver {W : Type} (resolve : Resolver W)
  : Resolver (W * Journal) :=
  λ path, lift (resolve path).

Definition journal {W : Type} (st : state (W * Journal)) : Journal :=
  (world st).2.

(** The state of the run without the notes. *)
Definition erase {W : Type} (st : state (W * Journal)) : state W :=
  mkState (world st).1 (resolved st) (trace st).

(** The watched computation does what the plain one does. *)
Definition simulates {W A : Type} (m : M (W * Journal) A) (m0 : M W A) : Prop :=
  ∀ st, prod_map id erase <$> m st = m0 (erase st).

(** Every os.Stat of [path] that was noted found a file. *)
Definition never_missed (path : string) (j : Journal) : Prop :=
  ∀ ok, (path, ok) ∈ stats j → ok = true.

(** The file was read and parsed. *)
Definition was_read {lib : GoLib} (j : Journal) (path : string) : Prop :=
  ∃ content proto, (path, content) ∈ opens j ∧ parser_Parse content = inl proto.

(** The import is resolved, or os.Stat found it under a local root. *)
Definition handled {lib : GoLib} {W : Type} (roots : list string)
    (st : state (W * Journal)) (imp : string) : Prop :=
  is_Some (resolved st !! imp) ∨
  ∃ root, root ∈ roots ∧ (filepath_Join [root; imp], true) ∈ stats (journal st).

(** The entries that resolveImports takes for imports are handled. *)
Definition imports_handled {lib : GoLib} {W : Type} (roots : list string)
    (st : state (W * Journal)) (entries : list Entry) : Prop :=
  ∀ stmt, stmt ∈ entries → Package stmt = "" → Import stmt ≠ "" →
    handled roots st (Import stmt).

(** The imports of a file that was read are handled. *)
Definition file_handled {lib : GoLib} {W : Type} (roots : list string)
    (st : state (W * Journal)) (e : string * Bytes) : Prop :=
  ∀ proto, parser_Parse e.2 = inl proto → imports_handled roots st (Entries proto).

(** The copy of every resolved path was read and parsed. *)
Definition readback {lib : GoLib} {W : Type} (dest : string)
    (st : state (W * Journal)) : Prop :=
  ∀ q, is_Some (resolved st !! q) →
    was_read (journal st) (filepath_Join [dest; q]).

(** What a part of a watched run that returns [r] does to the notes and
    the map. *)
Record Watched {lib : GoLib} {W : Type} (roots : list string) (dest : string)
    (st : state (W * Journal)) (r : error) (st' : state (W * Journal))
  : Prop := mkWatched {
  w_stats : stats (journal st) ⊆ stats (journal st');
  w_opens : opens (journal st) ⊆ opens (journal st');
  w_walks : walks (journal st) ⊆ walks (journal st');
  w_grows : grows st st';
  w_news : r = None → ∀ e, e ∈ opens (journal st') →
    e ∈ opens (journal st) ∨ file_handled roots st' e;
  w_readback : r = None → readback dest st → readback dest st';
}.

(** If one root never missed [p], a part of the run that starts with [p]
    untouched leaves it so. *)
Definition shadowed {lib : GoLib} {W : Type} (roots : list string) (p : string)
    (st st' : state (W * Journal)) : Prop :=
  (∃ root, root ∈ roots ∧ never_missed (filepath_Join [root; p]) (journal st')) →
  untouched p st → untouched p st'.

Definition watched_spec {lib : GoLib} {W : Type} (roots : list string)
    (dest p : string) (recur : string → M (W * Journal) error) : Prop :=
  ∀ imp st r st', recur imp st = Some (r, st') →
    Watched roots dest st r st' ∧
    (r = None → is_Some (resolved st' !! imp)) ∧
    (imp ≠ p → shadowed roots p st st').

(** The root was walked, and each .proto file that the walk came to
    without an error was read and parsed. *)
Definition walk_read {lib : GoLib} (j : Journal) (root : string) : Prop :=
  ∃ entries, (root, entries) ∈ walks j ∧
    ∀ path, (path, None) ∈ entries → strings.HasSuffix path ".proto" = true →
      was_read j path.

(** The import paths that a run reached: the explicit import sources, and
    the imports of the files it read (the copy of a reached path, or a
    .proto file that the walk of a local root came to) that os.Stat did
    not find under a local root. *)
Inductive Reachable {lib : GoLib} (dest : string) (sources : list string)
    (j : Journal) : string → Prop :=
| reach_source src :
    src ∈ sources → isProto src = true → Reachable dest sources j src
| reach_import q content proto stmt :
    Reachable dest sources j q →
    (filepath_Join [dest; q], content) ∈ opens j →
    parser_Parse content = inl proto →
    stmt ∈ Entries proto → Package stmt = "" → Import stmt ≠ "" →
    (∀ root, root ∈ List.filter (λ src, negb (isProto src)) sources →
       (filepath_Join [root; Import stmt], true) ∉ stats j) →
    Reachable dest sources j (Import stmt)
| reach_local root entries path content proto stmt :
    root ∈ List.filter (λ src, negb (isProto src)) sources →
    (root, entries) ∈ walks j →
    (path, None) ∈ entries → strings.HasSuffix path ".proto" = true →
    (path, content) ∈ opens j →
    parser_Parse content = inl proto →
    stmt ∈ Entries proto → Package stmt = "" → Import stmt ≠ "" →
    (∀ root, root ∈ List.filter (λ src, negb (isProto src)) sources →
       (filepath_Join [root; Import stmt], true) ∉ stats j) →
    Reachable dest sources j (Import stmt).

(** ** Worlds in which the walk is bounded *)

(** [Inv] holds of the world after each call that the engine makes, if
    it held before. *)
Record stable {lib : GoLib} {W : Type} {os : Sys W} (dest : string)
    (resolve : Resolver W) (Inv : W → Prop) : Prop := mkStable {
  stable_resolve : ∀ imp w, Inv w → Inv (resolve imp w).2;
  stable_MkdirAll : ∀ imp w,
    Inv w → Inv (os_MkdirAll (filepath_Dir (filepath_Join [dest; imp])) w).2;
  stable_Create : ∀ imp w, Inv w → Inv (os_Create (filepath_Join [dest; imp]) w).2;
  stable_Copy : ∀ imp content w,
    Inv w → Inv (io_Copy (filepath_Join [dest; imp]) content w).2;
  stable_Open : ∀ path w, Inv w → Inv (os_Open path w).2;
  stable_Stat : ∀ path w, Inv w → Inv (os_Stat path w).2;
  stable_Walk : ∀ root w, Inv w → Inv (filepath_Walk root w).2;
}.

(** In the worlds of [Inv] the resolver gives handles for paths of [U]
    only. *)
Definition serves_in {W : Type} (resolve : Resolver W) (Inv : W → Prop)
    (U : gset string) : Prop :=
  ∀ imp w h w', Inv w → resolve imp w = ((Some h, None), w') → imp ∈ U.

Definition bounded_spec {W : Type} (Inv : W → Prop) (U : gset string) (n : nat)
    (recur : string → M W error) : Prop :=
  ∀ imp st, Inv (world st) → within U n st →
    ∃ r st', recur imp st = Some (r, st') ∧ Inv (world st') ∧ within U n st'.

(** Every call of the operating system keeps [Inv]. *)
Record calm {W : Type} {os : Sys W} (Inv : W → Prop) : Prop := mkCalm {
  calm_Get : ∀ url w, Inv w → Inv (http_Get url w).2;
  calm_UserCacheDir : ∀ w, Inv w → Inv (os_UserCacheDir w).2;
  calm_MkdirAll : ∀ path w, Inv w → Inv (os_MkdirAll path w).2;
  calm_Stat : ∀ path w, Inv w → Inv (os_Stat path w).2;
  calm_MkdirTemp : ∀ dir pattern w, Inv w → Inv (os_MkdirTemp dir pattern w).2;
  calm_RemoveAll : ∀ path w, Inv w → Inv (os_RemoveAll path w).2;
  calm_Rename : ∀ old new w, Inv w → Inv (os_Rename old new w).2;
  calm_Run : ∀ dir cmd args w, Inv w → Inv (exec_Run dir cmd args w).2;
  calm_Open : ∀ path w, Inv w → Inv (os_Open path w).2;
  calm_Create : ∀ path w, Inv w → Inv (os_Create path w).2;
  calm_Copy : ∀ path content w, Inv w → Inv (io_Copy path content w).2;
  calm_Walk : ∀ root w, Inv w → Inv (filepath_Walk root w).2;
}.

(** * Properties *)

(** ** The resolver chain *)

Section CombineFacts.
Context {W : Type}.
Implicit Types (rs pre post : list (Resolver W)) (w : W) (path : string).

Lemma AllNotFound_Combine path rs w w' :
  AllNotFound path rs w w' → Combine rs path w = ((None, None), w').
Proof.
  induction 1 as [|resolve rest w w1 w' Hr _ IH]; simpl; [done|].
  by rewrite Hr.
Qed.

Lemma Combine_AllNotFound path rs w w' :
  Combine rs path w = ((None, None), w') → AllNotFound path rs w w'.
Proof.
  revert w. induction rs as [|resolve rest IH]; simpl; intros w.
  - intros [= <-]. constructor.
  - destruct (resolve path w) as [[r err] w1] eqn:Hr.
    destruct err as [e|]; [done|]. destruct r as [h|]; [done|].
    intros Hrest. econstructor; eauto.
Qed.

(** The chain after a run of not-found answers is the chain from the
    next strategy on. *)
Lemma Combine_skip path pre rs w w1 :
  AllNotFound path pre w w1 →
  Combine (pre ++ rs) path w = Combine rs path w1.
Proof.
  induction 1 as [|resolve rest w w1 w' Hr _ IH]; simpl; [done|].
  by rewrite Hr.
Qed.

End CombineFacts.

Section CombineCalls.
Context {W : Type}.
Implicit Types (rs pre post : list (Resolver W)) (w : W) (path : string).

Lemma AllNotFound_logged path pre w w1 (f : nat → nat) (calls : list nat) :
  AllNotFound path pre w w1 →
  AllNotFound path (imap (λ i, logged (f i)) pre) (w, calls)
    (w1, calls ++ map f (seq 0 (length pre))).
Proof.
  intros Hpre. revert f calls.
  induction Hpre as [|resolve rest w w1 w' Hr _ IH]; intros f calls; simpl.
  - rewrite app_nil_r. constructor.
  - econstructor.
    + unfold logged. by rewrite Hr.
    + specialize (IH (f ∘ S) (calls ++ [f 0])).
      rewrite <- seq_shift, map_map, <- app_assoc in *. exact IH.
Qed.

Lemma Combine_calls_decisive path pre resolve post w w1 w2 r err :
  AllNotFound path pre w w1 →
  resolve path w1 = ((r, err), w2) →
  outcome_of r err ≠ NotFound →
  Combine_calls (pre ++ resolve :: post) path w = seq 0 (S (length pre)).
Proof.
  intros Hpre Hr Hout. unfold Combine_calls.
  rewrite imap_app.
  erewrite Combine_skip
    by (apply (AllNotFound_logged path pre w w1 id []); exact Hpre).
  simpl. unfold logged at 1. rewrite Hr, map_id, Nat.add_0_r.
  destruct err as [e|]; [|destruct r as [h|]; [|done]];
    exact (eq_sym (seq_S (length pre) 0)).
Qed.

Lemma Combine_calls_all path rs w w' :
  AllNotFound path rs w w' →
  Combine_calls rs path w = seq 0 (length rs).
Proof.
  intros Hrs. unfold Combine_calls.
  erewrite AllNotFound_Combine
    by (apply (AllNotFound_logged path rs w w' id []); exact Hrs).
  simpl. by rewrite map_id.
Qed.

End CombineCalls.

(** C2. Combine calls the strategies in the order of the list. When the
    strategies before [resolve] all answer not-found and [resolve] is the
    first to answer otherwise, the chain gives the handle of [resolve],
    or its error with a nil handle, the world is the one [resolve] left,
    and the calls made are those of positions 0 to [length pre]: no
    strategy of [post] is called. The chain answers not-found exactly when
    every strategy, called in turn, answers not-found. *)
Theorem Combine_first_answer {W : Type} (pre post : list (Resolver W))
    (resolve : Resolver W) (path : string) (w w1 w2 : W)
    (r : option Handle) (err : error) :
  AllNotFound path pre w w1 →
  resolve path w1 = ((r, err), w2) →
  (∀ h, r = Some h → err = None →
     Combine (pre ++ resolve :: post) path w = ((Some h, None), w2)) ∧
  (∀ e, err = Some e →
     Combine (pre ++ resolve :: post) path w = ((None, Some e), w2)) ∧
  (outcome_of r err ≠ NotFound →
     Combine_calls (pre ++ resolve :: post) path w = seq 0 (S (length pre))) ∧
  Combine_calls pre path w = seq 0 (length pre) ∧
  (∀ (rs : list (Resolver W)) v v',
     Combine rs path v = ((None, None), v') ↔ AllNotFound path rs v v').
Proof.
  intros Hpre Hr. repeat split.
  - intros h -> ->. rewrite (Combine_skip _ _ _ _ _ Hpre). simpl. by rewrite Hr.
  - intros e ->. rewrite (Combine_skip _ _ _ _ _ Hpre). simpl. by rewrite Hr.
  - intros Hout. eapply Combine_calls_decisive; eauto.
  - eapply Combine_calls_all; eauto.
  - apply Combine_AllNotFound.
  - apply AllNotFound_Combine.
Qed.

Lemma Combine_first_answer_witness :
  let miss : Resolver nat := λ _ n, ((None, None), S n) in
  let hit : Resolver nat :=
    λ p n, ((Some {| Name := p; Content := "syntax" |}, None), S n) in
  AllNotFound "a.proto" [miss; miss] 0 2 ∧
  hit "a.proto" 2 = ((Some {| Name := "a.proto"; Content := "syntax" |}, None), 3) ∧
  Combine [miss; miss; hit; miss] "a.proto" 0
    = ((Some {| Name := "a.proto"; Content := "syntax" |}, None), 3) ∧
  Combine_calls [miss; miss; hit; miss] "a.proto" 0 = [0; 1; 2].
Proof.
  intros miss hit.
  assert (Hpre : AllNotFound "a.proto" [miss; miss] 0 2)
    by (repeat econstructor).
  assert (Hr : hit "a.proto" 2
               = ((Some {| Name := "a.proto"; Content := "syntax" |}, None), 3))
    by reflexivity.
  pose proof (Combine_first_answer [miss; miss] [miss] hit "a.proto" 0 2 3
                _ _ Hpre Hr) as (Hh & _ & Hc & _).
  split; [exact Hpre|]. split; [exact Hr|].
  split; [exact (Hh _ eq_refl eq_refl)|].
  apply Hc. discriminate.
Defined.

(** ** The remote strategy *)

Section RemoteFacts.
Context {lib : GoLib} {W : Type} {os : Sys W}.

Lemma Is_Wrap_cause (fe : error_value) (msg : string) (target : error_value) :
  errors.wraps fe target = true → errors.wraps (EWrap fe msg) target = true.
Proof. simpl. intros ->. apply orb_true_r. Qed.

Lemma wraps_refl (e : error_value) : errors.wraps e e = true.
Proof. destruct e; simpl; by rewrite bool_decide_eq_true_2. Qed.

Lemma githubFetcher_Scheme (u : URL) (relSrc commit : string) (w : W) :
  Scheme (githubFetcher u relSrc commit w).1.2 = "https".
Proof.
  unfold githubFetcher.
  destruct (negb _); [done|].
  destruct (url_Parse _); [|done].
  by destruct (httpGet _ _).
Qed.

End RemoteFacts.



(** C5. In fetchProto, once the URL is parsed and a transport chosen:
    when the transport ends with an error that is the not-found sentinel,
    cloner is called, on the URL as the transport left it, and the world
    is the one cloner leaves. If cloner gives a handle without an error,
    fetchProto returns it. If cloner fails too, fetchProto returns one
    error: the error of the transport, wrapped with the message of the
    clone error and then with the URL of the repository; it still is the
    sentinel, its chain holds the error of the transport, and its message
    reads "<url>: <clone error>: <transport error>". *)
Theorem fetchProto_fallback {lib : GoLib} {W : Type} {os : Sys W}
    (config : RemoteConfig) (repo : Repo) (proto : string)
    (repoURL u1 : URL) (fetcher : fetcherFunc W)
    (r r2 : option Handle) (fe : error_value) (err2 : error) (w w1 w2 : W) :
  url_Parse (Repo_URL repo) = inl repoURL →
  chooseFetcher config repo repoURL = (Some fetcher, None) →
  fetcher repoURL (path_Join [Root repo; proto]) (Commit repo) w
    = (((r, Some fe), u1), w1) →
  errors.Is (Some fe) errNotFound = true →
  cloner u1 (path_Join [Root repo; proto]) (Commit repo) w1 = ((r2, err2), w2) →
  match err2 with
  | None => fetchProto config repo proto w = ((r2, None), w2)
  | Some ce =>
      let e := EWrap (EWrap fe (Error ce)) (Repo_URL repo) in
      fetchProto config repo proto w = ((None, Some e), w2) ∧
      errors.Is (Some e) errNotFound = true ∧
      errors.wraps e fe = true ∧
      Error e = Repo_URL repo +:+ ": " +:+ Error ce +:+ ": " +:+ Error fe
  end.
Proof.
  intros Hparse Hchoose Hfetch Hnf Hclone.
  unfold fetchProto, fetchWith. rewrite Hparse, Hchoose, Hfetch, Hnf, Hclone.
  destruct err2 as [ce|]; [|done].
  cbn [errors.Wrap]. repeat split.
  - by do 2 apply Is_Wrap_cause.
  - do 2 apply Is_Wrap_cause. apply wraps_refl.
Qed.

Lemma fetchProto_fallback_witness :
  let lib := Sim.lib [] in
  let d := Sim.mkDisk ∅ ∅ in
  let repo := mkRepo "https://github.com/org/repo.git" "src" "google/" [] "" in
  let gone := EWrap errNotFound "404: Not Found" in
  let clone_err :=
    EWithStack (EWithStack (EWrapf (EExternal "exit status 128") "%s %s failed"
      ["git clone https://github.com/org/repo.git /cache/protosync/repo.git-https://github.com/org/repo.gitmaster-*";
       "clone https://github.com/org/repo.git /cache/protosync/repo.git-https://github.com/org/repo.gitmaster-*"])) in
  fetchProto (lib := lib) (os := Sim.disk_sys ∅) (mkRemoteConfig []) repo
    "google/a.proto" d
    = ((None, Some (EWrap (EWrap gone (Error (lib := lib) clone_err))
                      "https://github.com/org/repo.git")), d).
Proof.
  intros lib d repo gone clone_err.
  pose (u := mkURL "https" None "github.com" "/org/repo.git" "").
  pose proof (fetchProto_fallback (lib := lib) (os := Sim.disk_sys ∅)
                (mkRemoteConfig []) repo
                "google/a.proto" u u
                (githubFetcher (lib := lib) (os := Sim.disk_sys ∅)) None None gone
                (Some clone_err) d d d
                eq_refl eq_refl eq_refl eq_refl eq_refl) as [Hrun _].
  exact Hrun.
Defined.

(** C7 (the code departs from it). githubFetcher writes "https" into the
    URL it was handed, whatever the input: for the URL of
    ssh://git@github.com/cashapp/protosync.git and a page that is not
    there, the call ends in not-found and leaves the scheme of the
    caller's URL at "https" instead of "ssh"; in fetchProto the clone that
    follows is made from the rewritten URL. *)
Theorem githubFetcher_rewrites_callers_URL :
  (∀ (lib : GoLib) (W : Type) (os : Sys W) (u : URL) (relSrc commit : string) (w : W),
     Scheme (githubFetcher u relSrc commit w).1.2 = "https") ∧
  let u := mkURL "ssh" (Some "git") "github.com" "/cashapp/protosync.git" "" in
  let d := Sim.mkDisk ∅ ∅ in
  Sim.parse_url "ssh://git@github.com/cashapp/protosync.git" = inl u ∧
  githubFetcher (lib := Sim.lib []) (os := Sim.disk_sys ∅) u "nonexistingcontent" "" d
    = ((None, Some (EWrap errNotFound "404: Not Found")),
       mkURL "https" (Some "git") "github.com" "/cashapp/protosync.git" "", d) ∧
  (fetchWith (lib := Sim.lib []) (os := Sim.disk_sys ∅)
     (githubFetcher (lib := Sim.lib []) (os := Sim.disk_sys ∅))
     (mkRepo "ssh://git@github.com/cashapp/protosync.git" "" "x/" [] "")
     u "x/y.proto" d).1.2
    = mkURL "https" (Some "git") "github.com" "/cashapp/protosync.git" "".
Proof.
  split; [intros; apply githubFetcher_Scheme|].
  repeat split; vm_compute; reflexivity.
Qed.

(** ** The version probe of the archive strategy *)

Section ProbeFacts.

Lemma append_assoc (a b c : string) : (a +:+ b) +:+ c = a +:+ (b +:+ c).
Proof.
  induction a as [|ch a IH]; [done|].
  change (String ch ((a +:+ b) +:+ c) = String ch (a +:+ (b +:+ c))).
  by rewrite IH.
Qed.

Lemma append_empty_r (a : string) : a +:+ "" = a.
Proof.
  induction a as [|ch a IH]; [done|].
  change (String ch (a +:+ "") = String ch a). by rewrite IH.
Qed.

(** Below the element itself nothing is gathered. *)
Lemma DecodeElement_inner body v d data rest :
  ElementContent body v →
  DecodeElement (S d) data (map XTok body ++ rest)
    = DecodeElement (S d) data rest.
Proof.
  intros Hbody. revert d data rest.
  induction Hbody as [|s body v _ IH|s body v _ IH|t i body v _ IH|s body v _ IH
                     |name attr inner vi name' body v _ IHi _ IHb];
    intros d data rest; simpl; try done.
  rewrite map_app, <- app_assoc. simpl. rewrite IHi. simpl. by rewrite IHb.
Qed.

Lemma DecodeElement_content body v data rest :
  ElementContent body v →
  DecodeElement 0 data (map XTok body ++ rest)
    = DecodeElement 0 (data +:+ v) rest.
Proof.
  intros Hbody. revert data rest.
  induction Hbody as [|s body v _ IH|s body v _ IH|t i body v _ IH|s body v _ IH
                     |name attr inner vi name' body v Hi _ _ IHb];
    intros data rest; cbn [DecodeElement map app]; try done.
  - by rewrite append_empty_r.
  - by rewrite IH, append_assoc.
  - rewrite map_app, <- app_assoc. cbn [DecodeElement map app].
    rewrite (DecodeElement_inner _ _ _ _ _ Hi). cbn [DecodeElement].
    by rewrite IHb.
Qed.

Lemma latestLoop_skip pre dec :
  Forall not_latest pre → latestLoop (pre ++ dec) = latestLoop dec.
Proof.
  induction 1 as [|item pre Hitem _ IH]; simpl; [done|].
  destruct item as [t|e]; [|done].
  destruct t as [name attr| | | | |]; try done.
  simpl in Hitem. by rewrite (proj2 (String.eqb_neq _ _) Hitem).
Qed.

Lemma latestLoop_no_marker dec :
  Forall not_latest dec →
  latestLoop dec = (("", Some (EWithStack io_EOF)), []).
Proof.
  intros Hdec. rewrite <- (app_nil_r dec). by rewrite latestLoop_skip.
Qed.

End ProbeFacts.

(** C8. If the stream starts with tokens that do not open a "latest"
    element, then has a "latest" element with well-formed content, the
    probe gives the character data of that element without an error and
    leaves what follows the end tag unread, whatever it is. If the stream
    ends and no token opened a "latest" element, the probe gives an
    error. *)
Theorem syncJARMetadata_streams {lib : GoLib} {W : Type} {os : Sys W}
    (artifactoryURL repositoryPath : string) (w w' : W) (resp : Response)
    (pre : Decoder) (name name' : xml_Name) (attr : list (xml_Name * string))
    (body : list xml_Token) (version : string) :
  http_Get (fmt_Sprintf "%s/%s/maven-metadata.xml" [artifactoryURL; repositoryPath]) w
    = (inl resp, w') →
  Forall not_latest pre →
  Local name = "latest" →
  ElementContent body version →
  (∀ rest,
     latestLoop (pre ++ XTok (StartElement name attr) :: map XTok body
                   ++ XTok (EndElement name') :: rest)
       = ((version, None), rest)) ∧
  (∀ rest,
     xml_NewDecoder (Body resp)
       = pre ++ XTok (StartElement name attr) :: map XTok body
           ++ XTok (EndElement name') :: rest →
     syncJARMetadata artifactoryURL repositoryPath w = ((version, None), w')) ∧
  (xml_NewDecoder (Body resp) = pre →
     syncJARMetadata artifactoryURL repositoryPath w
       = (("", Some (EWithStack io_EOF)), w')).
Proof.
  intros Hget Hpre Hname Hbody.
  assert (Hloop : ∀ rest,
    latestLoop (pre ++ XTok (StartElement name attr) :: map XTok body
                  ++ XTok (EndElement name') :: rest)
      = ((version, None), rest)).
  { intros rest. rewrite latestLoop_skip by done. simpl.
    rewrite Hname. simpl.
    by rewrite (DecodeElement_content _ _ _ _ Hbody). }
  split; [exact Hloop|]. split.
  - intros rest Hdec. unfold syncJARMetadata. by rewrite Hget, Hdec, Hloop.
  - intros Hdec. unfold syncJARMetadata.
    by rewrite Hget, Hdec, latestLoop_no_marker.
Qed.

Lemma syncJARMetadata_streams_witness :
  let meta := mkName "" "metadata" in
  let latest := mkName "" "latest" in
  let pre := [XTok (ProcInst "xml" "version=1.0"); XTok (StartElement meta []);
              XTok (CharData " ")] in
  let broken := [XErr (EExternal "XML syntax error"); XTok (CharData "<<")] in
  let dec := pre ++ XTok (StartElement latest []) :: map XTok [CharData "1.4.2"]
               ++ XTok (EndElement latest) :: broken in
  let d := Sim.mkDisk ∅ (list_to_map
             [("https://repo/protos/maven-metadata.xml", (200%Z, "<xml>"))]) in
  latestLoop dec = (("1.4.2", None), broken) ∧
  syncJARMetadata (lib := Sim.lib dec) (os := Sim.disk_sys ∅) "https://repo" "protos" d
    = (("1.4.2", None), d).
Proof.
  intros meta latest pre broken dec d.
  assert (Hpre : Forall not_latest pre).
  { repeat constructor. simpl. discriminate. }
  assert (Hbody : ElementContent [CharData "1.4.2"] "1.4.2")
    by apply (content_data "1.4.2" [] "" content_end).
  pose proof (syncJARMetadata_streams (lib := Sim.lib dec) (os := Sim.disk_sys ∅)
                "https://repo" "protos" d d _ pre latest latest [] _ "1.4.2"
                eq_refl Hpre eq_refl Hbody) as (Hloop & Hsync & _).
  split; [apply Hloop | apply (Hsync broken); reflexivity].
Defined.

(** ** The closure engine *)

Section TraceFacts.

Lemma fetches_app a b : fetches (a ++ b) = fetches a ++ fetches b.
Proof. apply omap_app. Qed.
Lemma fetched_app a b : fetched (a ++ b) = fetched a ++ fetched b.
Proof. apply omap_app. Qed.
Lemma writes_app a b : writes (a ++ b) = writes a ++ writes b.
Proof. apply omap_app. Qed.
Lemma reopens_app a b : reopens (a ++ b) = reopens a ++ reopens b.
Proof. apply omap_app. Qed.

Lemma elem_of_fetched p tr : p ∈ fetched tr ↔ Fetch p Found ∈ tr.
Proof.
  unfold fetched. rewrite list_elem_of_omap. split.
  - intros (ev & Hev & Hp). destruct ev as [imp [| |e]| | |]; naive_solver.
  - intros Hev. by exists (Fetch p Found).
Qed.

Lemma elem_of_fetches p tr : p ∈ fetches tr ↔ ∃ out, Fetch p out ∈ tr.
Proof.
  unfold fetches. rewrite list_elem_of_omap. split.
  - intros (ev & Hev & Hp). destruct ev; naive_solver.
  - intros [out Hev]. by exists (Fetch p out).
Qed.

Lemma fetched_all_found tr :
  (∀ imp out, Fetch imp out ∈ tr → out = Found) → fetched tr = fetches tr.
Proof.
  induction tr as [|ev tr IH]; intros Hall; [done|].
  assert (fetched tr = fetches tr) as IH'.
  { apply IH. intros imp out Hin. apply (Hall imp). by right. }
  destruct ev as [imp out| | |]; simpl; try done.
  rewrite (Hall imp out) by left. simpl. by rewrite IH'.
Qed.


Implicit Types (res : gmap string bool) (tr : list Event).

Lemma Clean_fetched res tr : Clean res tr → fetched tr = fetches tr.
Proof. intros Hc. apply fetched_all_found, Hc. Qed.

Lemma Clean_fresh res tr imp :
  Clean res tr → res !! imp = None → imp ∉ fetches tr.
Proof.
  intros Hc Hnone Hin. apply (clean_dom _ _ Hc) in Hin.
  rewrite Hnone in Hin. by destruct Hin.
Qed.

Lemma all_true_insert res imp : all_true res → all_true (<[imp:=true]> res).
Proof.
  intros Hall p b. rewrite lookup_insert. case_decide; [congruence|apply Hall].
Qed.

Lemma Clean_Settled res tr : Clean res tr → Settled res tr.
Proof.
  intros Hc. pose proof (Clean_fetched _ _ Hc) as Hf.
  destruct Hc as [Ht Hd Hn Ha Hw Hr].
  constructor; try done.
  - intros p. by rewrite Hf.
  - by rewrite Hf, Hw.
  - by rewrite Hw, Hr.
Qed.

Lemma Clean_empty : Clean ∅ [].
Proof.
  constructor; try done.
  - intros p. simpl. rewrite lookup_empty. split; [by intros ?%elem_of_nil|by intros []].
  - constructor.
  - by intros imp out ?%elem_of_nil.
Qed.

Lemma Settled_fail res tr imp out :
  Clean res tr → res !! imp = None → out ≠ Found →
  Settled res (tr ++ [Fetch imp out]).
Proof.
  intros Hc Hnone Hout. pose proof (Clean_fetched _ _ Hc) as Hf.
  pose proof (Clean_fresh _ _ _ Hc Hnone) as Hfresh.
  destruct Hc as [Ht Hd Hn Ha Hw Hr].
  assert (fetched (tr ++ [Fetch imp out]) = fetched tr) as Hfd.
  { rewrite fetched_app. destruct out; [done| |]; simpl; apply app_nil_r. }
  constructor; rewrite ?Hfd, ?fetches_app, ?writes_app, ?reopens_app; simpl;
    rewrite ?app_nil_r; try done.
  - intros p. by rewrite Hf.
  - apply NoDup_app. split; [done|]. split; [|apply NoDup_singleton].
    intros x Hx ->%list_elem_of_singleton. done.
  - by rewrite Hf, Hw.
  - by rewrite Hw, Hr.
Qed.

Lemma Settled_found res tr imp tail :
  Clean res tr → res !! imp = None →
  (fetches tail = [] ∧ fetched tail = [] ∧
   writes tail `prefix_of` [imp] ∧
   reopens tail `prefix_of` writes tail) →
  Settled (<[imp:=true]> res) (tr ++ Fetch imp Found :: tail).
Proof.
  intros Hc Hnone (Hf1 & Hf2 & Hw1 & Hr1).
  pose proof (Clean_fetched _ _ Hc) as Hf.
  pose proof (Clean_fresh _ _ _ Hc Hnone) as Hfresh.
  destruct Hc as [Ht Hd Hn Ha Hw Hr].
  constructor; rewrite ?fetched_app, ?fetches_app, ?writes_app, ?reopens_app;
    rewrite ?(fetches_app [_]), ?(fetched_app [_]), ?(writes_app [_]),
      ?(reopens_app [_]).
  - by apply all_true_insert.
  - intros p. change (Fetch imp Found :: tail) with ([Fetch imp Found] ++ tail).
    rewrite fetched_app, Hf2, Hf. simpl.
    rewrite lookup_insert_is_Some, elem_of_app, list_elem_of_singleton, Hd.
    destruct (decide (imp = p)); [by split; auto|]. split; [intros [?|?]|intros [?|[? ?]]]; auto; congruence.
  - change (Fetch imp Found :: tail) with ([Fetch imp Found] ++ tail).
    rewrite fetches_app, Hf1. simpl.
    apply NoDup_app. split; [done|]. split; [|apply NoDup_singleton].
    intros x Hx ->%list_elem_of_singleton. done.
  - change (Fetch imp Found :: tail) with ([Fetch imp Found] ++ tail).
    rewrite writes_app, fetched_app, Hf2, Hf, Hw. simpl.
    by apply prefix_app.
  - change (Fetch imp Found :: tail) with ([Fetch imp Found] ++ tail).
    rewrite reopens_app, writes_app, Hw, Hr. simpl.
    by apply prefix_app.
Qed.

Lemma Clean_found res tr imp f :
  Clean res tr → res !! imp = None →
  Clean (<[imp:=true]> res) (tr ++ [Fetch imp Found; Write imp f; Reopen imp f]).
Proof.
  intros Hc Hnone.
  pose proof (Clean_fresh _ _ _ Hc Hnone) as Hfresh.
  destruct Hc as [Ht Hd Hn Ha Hw Hr].
  constructor; rewrite ?fetches_app, ?writes_app, ?reopens_app; simpl.
  - by apply all_true_insert.
  - intros p.
    rewrite lookup_insert_is_Some, elem_of_app, list_elem_of_singleton, Hd.
    destruct (decide (imp = p)); [by split; auto|]. split; [intros [?|?]|intros [?|[? ?]]]; auto; congruence.
  - apply NoDup_app. split; [done|]. split; [|apply NoDup_singleton].
    intros x Hx ->%list_elem_of_singleton. done.
  - intros imp' out. rewrite elem_of_app. intros [Hin|Hin]; [by eapply Ha|].
    repeat (apply elem_of_cons in Hin as [Hin|Hin]; [congruence|]).
    by apply elem_of_nil in Hin.
  - by rewrite Hw.
  - by rewrite Hr.
Qed.

Lemma Clean_OpenLocal res tr path :
  Clean res tr → Clean res (tr ++ [OpenLocal path]).
Proof.
  intros [Ht Hd Hn Ha Hw Hr].
  constructor; rewrite ?fetches_app, ?writes_app, ?reopens_app; simpl;
    rewrite ?app_nil_r; try done.
  intros imp out. rewrite elem_of_app. intros [Hin|Hin]; [by eapply Ha|].
  apply list_elem_of_singleton in Hin. done.
Qed.

End TraceFacts.

Section EngineFacts.
Context {lib : GoLib} {W : Type} {os : Sys W}.
Implicit Types (st : state W) (ctx : context W) (r : error).

Lemma Post_of_Clean st r : Clean (resolved st) (trace st) → Post r st.
Proof.
  intros Hc. constructor; [done|by apply Clean_Settled|].
  intros imp out Hout Hin. by apply (clean_found _ _ Hc) in Hin.
Qed.

Lemma Post_Wrap e msg st : Post (Some e) st → Post (Some (EWrap e msg)) st.
Proof.
  intros [_ Hs Hb]. constructor; [done|done|].
  intros imp out Hout Hin. destruct (Hb imp out Hout Hin) as (e' & [= <-] & Hw).
  eexists. split; [done|]. simpl. rewrite Hw. apply orb_true_r.
Qed.

Lemma Post_WithStack r st : Post r st → Post (errors.WithStack r) st.
Proof.
  intros [Hc Hs Hb]. constructor; [|done|].
  - destruct r; [done|]. auto.
  - intros imp out Hout Hin. destruct (Hb imp out Hout Hin) as (e' & -> & Hw).
    eexists. split; [done|]. simpl. rewrite Hw. apply orb_true_r.
Qed.

(** A failing step that leaves the map and the record as they are. *)
Lemma Post_fail e st :
  Settled (resolved st) (trace st) →
  (∀ imp out, Fetch imp out ∈ trace st → out = Found) →
  Post (Some e) st.
Proof.
  intros Hs Ha. constructor; [done|done|].
  intros imp out Hout Hin. by apply Ha in Hin.
Qed.

Lemma importLoop_Post recur ctx entries :
  engine_spec recur →
  ∀ st r st', Clean (resolved st) (trace st) →
    importLoop recur ctx entries st = Some (r, st') → Post r st'.
Proof.
  intros Hrec. induction entries as [|stmt rest IH]; intros st r st' Hc; simpl.
  - intros [= <- <-]. by apply Post_of_Clean.
  - destruct (negb _); [by apply IH|].
    destruct (String.eqb (Import stmt) ""); [by apply IH|].
    unfold mbind, M_bind, sys.
    destruct (isLocal _ _ _) as [[] w1]; simpl.
    + by apply IH.
    + destruct (recur _ _) as [[[e|] st1]|] eqn:Hr; [| |done];
        apply Hrec in Hr; try exact Hc.
      * intros [= <- <-]. by apply Post_Wrap.
      * apply IH. by apply (post_clean _ _ Hr).
Qed.

Lemma resolveImports_with_Post recur ctx f :
  engine_spec recur →
  ∀ st r st', Clean (resolved st) (trace st) →
    resolveImports_with recur ctx f st = Some (r, st') → Post r st'.
Proof.
  intros Hrec st r st' Hc. unfold resolveImports_with.
  destruct (parser_Parse _) as [proto|e].
  - by apply importLoop_Post.
  - intros [= <- <-]. by apply Post_of_Clean.
Qed.

Lemma blame_last tr imp out imp' out' e :
  (∀ i o, Fetch i o ∈ tr → o = Found) →
  errors.wraps e (blame imp out) = true →
  out' ≠ Found → Fetch imp' out' ∈ tr ++ [Fetch imp out] →
  ∃ e', Some e = Some e' ∧ errors.wraps e' (blame imp' out') = true.
Proof.
  intros Ha Hw Hout [Hin|Hin%list_elem_of_singleton]%elem_of_app.
  - by apply Ha in Hin.
  - injection Hin as -> ->. by exists e.
Qed.

Lemma all_found_snoc tr imp tail :
  (∀ i o, Fetch i o ∈ tr → o = Found) →
  (∀ i o, Fetch i o ∈ tail → o = Found) →
  ∀ i o, Fetch i o ∈ tr ++ Fetch imp Found :: tail → o = Found.
Proof.
  intros Ha Ht i o [Hin|[Hin|Hin]%elem_of_cons]%elem_of_app; eauto.
  by injection Hin.
Qed.

Local Ltac settled_found :=
  apply Settled_found; [done|done|]; simpl;
  repeat split; try done; apply prefix_nil.

Lemma recursiveResolve_Post fuel ctx : engine_spec (recursiveResolve fuel ctx).
Proof.
  induction fuel as [|fuel IH]; intros imp st r st' Hc; [done|].
  cbn [recursiveResolve]. unfold mbind, M_bind, is_resolved.
  destruct (resolved st !! imp) as [b|] eqn:Hlook; cbn [default].
  { rewrite (clean_true _ _ Hc _ _ Hlook). intros [= <- <-].
    by apply Post_of_Clean. }
  unfold sys at 1.
  destruct (resolve ctx imp (world st)) as [[h err] w1] eqn:Hres.
  unfold emit at 1. cbn [world resolved trace].
  pose proof (clean_found _ _ Hc) as Ha.
  destruct err as [e|]; [|destruct h as [h|]].
  - intros [= <- <-]. constructor; [done|by apply Settled_fail|].
    cbn [trace outcome_of]. intros imp' out' Hout Hin.
    eapply blame_last; [exact Ha| |exact Hout|exact Hin].
    simpl. by rewrite bool_decide_eq_true_2.
  - unfold mark_resolved, sys at 1. cbn [world resolved trace outcome_of].
    set (destFile := filepath_Join [dest ctx; imp]).
    destruct (os_MkdirAll _ _) as [[e|] w2].
    { intros [= <- <-]. apply Post_fail; cbn [resolved trace].
      - settled_found.
      - by apply all_found_snoc; [|intros ?? ?%elem_of_nil]. }
    unfold emit at 1, sys at 1. cbn [world resolved trace].
    rewrite <- app_assoc. cbn [app].
    destruct (os_Create _ _) as [[e|] w3].
    { intros [= <- <-]. apply Post_fail; cbn [resolved trace].
      - settled_found.
      - apply all_found_snoc; [done|].
        intros ?? [?|?%elem_of_nil]%elem_of_cons; done. }
    unfold sys at 1. cbn [world resolved trace].
    destruct (io_Copy _ _ _) as [[e|] w4].
    { intros [= <- <-]. apply Post_fail; cbn [resolved trace].
      - settled_found.
      - apply all_found_snoc; [done|].
        intros ?? [?|?%elem_of_nil]%elem_of_cons; done. }
    unfold emit at 1, sys at 1. cbn [world resolved trace].
    rewrite <- app_assoc. cbn [app].
    assert (Clean (<[imp:=true]> (resolved st))
              (trace st ++ [Fetch imp Found; Write imp destFile;
                            Reopen imp destFile])) as Hc'
      by by apply Clean_found.
    destruct (os_Open _ _) as [[f|e] w5].
    + by apply resolveImports_with_Post.
    + intros [= <- <-]. by apply Post_of_Clean.
  - intros [= <- <-]. constructor; [done|by apply Settled_fail|].
    cbn [trace outcome_of]. intros imp' out' Hout Hin.
    eapply blame_last; [exact Ha| |exact Hout|exact Hin].
    simpl. by rewrite bool_decide_eq_true_2.
Qed.

Lemma walkFn_Post fuel ctx path err st r st' :
  Clean (resolved st) (trace st) →
  walkFn fuel ctx path err st = Some (r, st') → Post r st'.
Proof.
  intros Hc. unfold walkFn.
  destruct err as [e|].
  { intros [= <- <-]. by apply Post_of_Clean. }
  destruct (negb _).
  { intros [= <- <-]. by apply Post_of_Clean. }
  unfold mbind, M_bind, emit, sys. cbn [world resolved trace].
  pose proof (Clean_OpenLocal _ _ path Hc) as Hc'.
  destruct (os_Open _ _) as [[f|e] w1].
  - apply resolveImports_with_Post; [apply recursiveResolve_Post|done].
  - intros [= <- <-]. by apply Post_of_Clean.
Qed.

Lemma walkLoop_Post fuel ctx entries st r st' :
  Clean (resolved st) (trace st) →
  walkLoop fuel ctx entries st = Some (r, st') → Post r st'.
Proof.
  revert st. induction entries as [|[path err] rest IH]; intros st Hc; simpl.
  - intros [= <- <-]. by apply Post_of_Clean.
  - unfold mbind, M_bind.
    destruct (walkFn _ _ _ _ _) as [[[e|] st1]|] eqn:Hfn; [| |done];
      apply walkFn_Post in Hfn; try done.
    + by intros [= <- <-].
    + apply IH. by apply (post_clean _ _ Hfn).
Qed.

Lemma resolveLocalRoot_Post fuel ctx : engine_spec (resolveLocalRoot fuel ctx).
Proof.
  intros root st r st' Hc. unfold resolveLocalRoot, mbind, M_bind, sys.
  destruct (filepath_Walk _ _) as [entries w1].
  destruct (walkLoop _ _ _ _) as [[err st1]|] eqn:Hloop; [|done].
  apply walkLoop_Post in Hloop; [|done].
  intros [= <- <-]. by apply Post_WithStack.
Qed.

Lemma forEach_Post f srcs :
  engine_spec f →
  ∀ st r st', Clean (resolved st) (trace st) →
    forEach f srcs st = Some (r, st') → Post r st'.
Proof.
  intros Hf. induction srcs as [|src rest IH]; intros st r st' Hc; simpl.
  - intros [= <- <-]. by apply Post_of_Clean.
  - unfold mbind, M_bind.
    destruct (f _ _) as [[[e|] st1]|] eqn:Hsrc; [| |done];
      apply Hf in Hsrc; try done.
    + by intros [= <- <-].
    + apply IH. by apply (post_clean _ _ Hsrc).
Qed.

(** What Sync returns, in terms of the state it ends in. *)
Lemma Sync_Post fuel resolve dest sources w synced err st' :
  Sync fuel resolve dest sources w = Some ((synced, err), st') →
  Post err st' ∧
  synced = match err with
           | Some _ => None
           | None => Some (map fst (map_to_list (resolved st')))
           end.
Proof.
  unfold Sync, syncBody, mbind, M_bind.
  destruct (forEach _ _ _) as [[[e|] st1]|] eqn:H1; [| |done];
    apply forEach_Post in H1;
    try apply recursiveResolve_Post; try apply Clean_empty.
  { by intros [= <- <- <-]. }
  destruct (forEach _ _ _) as [[[e|] st2]|] eqn:H2; [| |done];
    apply forEach_Post in H2;
    try apply resolveLocalRoot_Post; try by apply (post_clean _ _ H1).
  { by intros [= <- <- <-]. }
  by intros [= <- <- <-].
Qed.

End EngineFacts.

Section Termination.
Context {lib : GoLib} {W : Type} {os : Sys W} (U : gset string).
Implicit Types (st : state W) (ctx : context W) (r : error).

Lemma within_S n st : within U n st → within U (S n) st.
Proof. intros (?&?&?). repeat split; [done..|lia]. Qed.

Lemma within_mark n st imp (w : W) tr :
  within U (S n) st → imp ∈ U → default false (resolved st !! imp) = false →
  within U n (mkState w (<[imp:=true]> (resolved st)) tr).
Proof.
  intros (Ht & Hsub & Hsize) HU Hdef.
  assert (resolved st !! imp = None) as Hnone.
  { destruct (resolved st !! imp) as [b|] eqn:Hl; [|done].
    apply Ht in Hl as ->. done. }
  assert (imp ∉ dom (resolved st)) as Hfresh by by apply not_elem_of_dom.
  repeat split; cbn [resolved].
  - by apply all_true_insert.
  - rewrite dom_insert_L. apply union_subseteq.
    split; [by apply singleton_subseteq_l|done].
  - rewrite dom_insert_L.
    assert (U ∖ dom (resolved st)
            = {[imp]} ∪ U ∖ ({[imp]} ∪ dom (resolved st))) as Heq.
    { apply set_eq. intros x. rewrite !elem_of_union, !elem_of_difference,
        elem_of_union, elem_of_singleton.
      destruct (decide (x = imp)) as [->|Hne]; [tauto|]. tauto. }
    assert ({[imp]} ## U ∖ ({[imp]} ∪ dom (resolved st))) as Hdisj.
    { apply disjoint_singleton_l. rewrite elem_of_difference, elem_of_union,
        elem_of_singleton. tauto. }
    rewrite Heq, size_union, size_singleton in Hsize by done. lia.
Qed.

End Termination.

Section Bounded.
Context {lib : GoLib} {W : Type} {os : Sys W}.
Variables (Inv : W → Prop) (U : gset string).
Implicit Types (st : state W) (ctx : context W) (r : error).

Lemma isLocal_stable rts imp (w : W) :
  (∀ path w, Inv w → Inv (os_Stat path w).2) →
  Inv w → Inv (isLocal rts imp w).2.
Proof.
  intros Hstat. revert w. induction rts as [|root rest IH]; intros w Hw; [done|].
  cbn [isLocal]. specialize (Hstat (filepath_Join [root; imp]) w Hw).
  destruct (os_Stat _ w) as [[e|] w1]; [by apply IH|done].
Qed.

Lemma importLoop_bounded n recur ctx entries :
  stable (dest ctx) (resolve ctx) Inv →
  bounded_spec Inv U n recur →
  ∀ st, Inv (world st) → within U n st →
    ∃ r st', importLoop recur ctx entries st = Some (r, st') ∧
      Inv (world st') ∧ within U n st'.
Proof.
  intros Hst Hrec. induction entries as [|stmt rest IH]; intros st Hi Hin; simpl.
  - by eexists _, _.
  - destruct (negb _); [by apply IH|].
    destruct (String.eqb (Import stmt) ""); [by apply IH|].
    unfold mbind, M_bind, sys.
    pose proof (isLocal_stable (roots ctx) (Import stmt) (world st)
                  (stable_Stat _ _ _ Hst) Hi) as Hi1.
    destruct (isLocal _ _ _) as [[] w1]; simpl in *.
    + by apply IH.
    + destruct (Hrec (Import stmt) (mkState w1 (resolved st) (trace st)))
        as (r & st1 & -> & Hi2 & Hin1); [done..|].
      destruct r as [e|]; [by eexists _, _|]. by apply IH.
Qed.

Lemma recursiveResolve_bounded fuel ctx :
  stable (dest ctx) (resolve ctx) Inv →
  serves_in (resolve ctx) Inv U →
  bounded_spec Inv U fuel (recursiveResolve fuel ctx).
Proof.
  intros Hst Hserve. induction fuel as [|fuel IH]; intros imp st Hi Hin.
  { destruct Hin as (_ & _ & ?). lia. }
  cbn [recursiveResolve]. unfold mbind, M_bind, is_resolved.
  destruct (default false (resolved st !! imp)) eqn:Hdef.
  { eexists _, _. split; [done|]. by split. }
  unfold sys at 1.
  pose proof (stable_resolve _ _ _ Hst imp _ Hi) as Hi1.
  destruct (resolve ctx imp (world st)) as [[h err] w1] eqn:Hres.
  unfold emit at 1. cbn [world resolved trace snd] in *.
  destruct err as [e|]; [|destruct h as [h|]];
    [by eexists _, _| |by eexists _, _].
  unfold mark_resolved, sys at 1. cbn [world resolved trace].
  pose proof (Hserve _ _ _ _ Hi Hres) as HU.
  pose proof (stable_MkdirAll _ _ _ Hst imp _ Hi1) as Hi2.
  destruct (os_MkdirAll _ _) as [[e|] w2]; cbn [snd] in Hi2.
  { eexists _, _. split; [done|]. split; [done|]. by apply within_S, within_mark. }
  unfold emit at 1, sys at 1. cbn [world resolved trace].
  pose proof (stable_Create _ _ _ Hst imp _ Hi2) as Hi3.
  destruct (os_Create _ _) as [[e|] w3]; cbn [snd] in Hi3.
  { eexists _, _. split; [done|]. split; [done|]. by apply within_S, within_mark. }
  unfold sys at 1. cbn [world resolved trace].
  pose proof (stable_Copy _ _ _ Hst imp (Content h) _ Hi3) as Hi4.
  destruct (io_Copy _ _ _) as [[e|] w4]; cbn [snd] in Hi4.
  { eexists _, _. split; [done|]. split; [done|]. by apply within_S, within_mark. }
  unfold emit at 1, sys at 1. cbn [world resolved trace].
  pose proof (stable_Open _ _ _ Hst (filepath_Join [dest ctx; imp]) _ Hi4) as Hi5.
  destruct (os_Open _ _) as [[f|e] w5]; cbn [snd] in Hi5.
  - unfold resolveImports_with. destruct (parser_Parse _) as [proto|e].
    + edestruct (importLoop_bounded fuel (recursiveResolve fuel ctx) ctx
                   (Entries proto) Hst IH) as (r & st' & Hrun & Hi' & Hin');
        [| |eexists _, _; split; [exact Hrun|split; [done|by apply within_S]]].
      * done.
      * by apply within_mark.
    + eexists _, _. split; [done|]. split; [done|].
      by apply within_S, within_mark.
  - eexists _, _. split; [done|]. split; [done|]. by apply within_S, within_mark.
Qed.

Lemma walkLoop_bounded fuel ctx entries :
  stable (dest ctx) (resolve ctx) Inv →
  serves_in (resolve ctx) Inv U →
  ∀ st, Inv (world st) → within U fuel st →
    ∃ r st', walkLoop fuel ctx entries st = Some (r, st') ∧
      Inv (world st') ∧ within U fuel st'.
Proof.
  intros Hst Hserve. induction entries as [|[path err] rest IH];
    intros st Hi Hin; simpl.
  { by eexists _, _. }
  unfold mbind, M_bind.
  assert (∃ r st1, walkFn fuel ctx path err st = Some (r, st1)
                   ∧ Inv (world st1) ∧ within U fuel st1)
    as (r & st1 & -> & Hi1 & Hin1).
  { unfold walkFn. destruct err as [e|]; [by eexists _, _|].
    destruct (negb _); [by eexists _, _|].
    unfold mbind, M_bind, emit, sys. cbn [world resolved trace].
    pose proof (stable_Open _ _ _ Hst path _ Hi) as Hi1.
    destruct (os_Open _ _) as [[f|e] w1]; cbn [snd] in Hi1; [|by eexists _, _].
    unfold resolveImports, resolveImports_with.
    destruct (parser_Parse _) as [proto|e]; [|by eexists _, _].
    apply importLoop_bounded; [done|by apply recursiveResolve_bounded|done..]. }
  destruct r as [e|]; [by eexists _, _|]. by apply IH.
Qed.

Lemma forEach_bounded n f srcs :
  bounded_spec Inv U n f →
  ∀ st, Inv (world st) → within U n st →
    ∃ r st', forEach f srcs st = Some (r, st') ∧ Inv (world st') ∧ within U n st'.
Proof.
  intros Hf. induction srcs as [|src rest IH]; intros st Hi Hin; simpl.
  { by eexists _, _. }
  unfold mbind, M_bind.
  destruct (Hf src st Hi Hin) as (r & st1 & -> & Hi1 & Hin1).
  destruct r as [e|]; [by eexists _, _|]. by apply IH.
Qed.

Lemma resolveLocalRoot_bounded fuel ctx :
  stable (dest ctx) (resolve ctx) Inv →
  serves_in (resolve ctx) Inv U →
  bounded_spec Inv U fuel (resolveLocalRoot fuel ctx).
Proof.
  intros Hst Hserve root st Hi Hin. unfold resolveLocalRoot, mbind, M_bind, sys.
  pose proof (stable_Walk _ _ _ Hst root _ Hi) as Hi1.
  destruct (filepath_Walk _ _) as [entries w1]; cbn [snd] in Hi1.
  destruct (walkLoop_bounded fuel ctx entries Hst Hserve
              (mkState w1 (resolved st) (trace st)))
    as (r & st1 & -> & Hi2 & Hin1); [done..|].
  by eexists _, _.
Qed.

Lemma Sync_bounded fuel resolve dest sources w :
  Inv w → stable dest resolve Inv → serves_in resolve Inv U → size U < fuel →
  ∃ res st', Sync fuel resolve dest sources w = Some (res, st').
Proof.
  intros Hi Hst Hserve Hsize. unfold Sync, syncBody, mbind, M_bind.
  set (ctx := mkContext _ resolve dest).
  edestruct (forEach_bounded fuel (recursiveResolve fuel ctx))
    as (r1 & st1 & -> & Hi1 & Hin1);
    [by apply recursiveResolve_bounded|exact Hi| |].
  { repeat split; cbn [resolved].
    - by intros p b ?%lookup_empty_Some.
    - rewrite dom_empty_L. apply empty_subseteq.
    - rewrite dom_empty_L, difference_empty_L. done. }
  destruct r1 as [e|]; [by eexists _, _|].
  edestruct (forEach_bounded fuel (resolveLocalRoot fuel ctx))
    as (r2 & st2 & -> & Hi2 & Hin2);
    [by apply resolveLocalRoot_bounded|exact Hi1|exact Hin1|].
  destruct r2 as [e|]; by eexists _, _.
Qed.

End Bounded.

(** ** Runs under watch *)

Section WatchedFacts.
Context {lib : GoLib} {W : Type} {os : Sys W}.
Implicit Types (st : state (W * Journal)) (r : error) (j : Journal).

Lemma handled_mono roots st st' imp :
  stats (journal st) ⊆ stats (journal st') → grows st st' →
  handled roots st imp → handled roots st' imp.
Proof.
  intros Hs Hg [Hr|(root & Hin & Hst)]; [left; by apply Hg|].
  right. exists root. split; [done|by apply Hs].
Qed.

Lemma file_handled_mono roots st st' e :
  stats (journal st) ⊆ stats (journal st') → grows st st' →
  file_handled roots st e → file_handled roots st' e.
Proof.
  intros Hs Hg He proto Hp stmt Hin Hpkg Himp.
  eapply handled_mono; [done..|]. by eapply He.
Qed.

Lemma Watched_refl roots dest st r : Watched roots dest st r st.
Proof.
  split; [done|done|done|by intros q ?| |done]. intros _ e He. by left.
Qed.

(** A part that succeeded, followed by another part. *)
Lemma Watched_trans roots dest st1 st2 r st3 :
  Watched roots dest st1 None st2 → Watched roots dest st2 r st3 →
  Watched roots dest st1 r st3.
Proof.
  intros [Hs1 Ho1 Hk1 Hg1 Hn1 Hr1] [Hs2 Ho2 Hk2 Hg2 Hn2 Hr2]. split.
  - by etrans.
  - by etrans.
  - by etrans.
  - intros q ?. by apply Hg2, Hg1.
  - intros -> e He. destruct (Hn2 eq_refl e He) as [He2|?]; [|by right].
    destruct (Hn1 eq_refl e He2) as [?|Hh]; [by left|right].
    by eapply file_handled_mono.
  - intros -> ?. by apply Hr2, Hr1.
Qed.

(** A part that failed tells of the notes and the map only. *)
Lemma Watched_fail roots dest st e st' :
  stats (journal st) ⊆ stats (journal st') →
  opens (journal st) ⊆ opens (journal st') →
  walks (journal st) ⊆ walks (journal st') →
  grows st st' → Watched roots dest st (Some e) st'.
Proof. by split. Qed.

Lemma Watched_weaken roots dest st r e st' :
  Watched roots dest st r st' → Watched roots dest st (Some e) st'.
Proof. intros [? ? ? ? _ _]. by split. Qed.

Lemma shadowed_trans roots p st1 st2 st3 :
  stats (journal st2) ⊆ stats (journal st3) →
  shadowed roots p st1 st2 → shadowed roots p st2 st3 → shadowed roots p st1 st3.
Proof.
  intros Hs H1 H2 (root & Hin & Hnm) Hu. apply H2; [by exists root|].
  apply H1; [|done]. exists root. split; [done|]. intros ok Hok. by apply Hnm, Hs.
Qed.

(** What the loop over the roots notes: when it does not find the
    import, a miss under every root; when it finds it, a hit. *)
Lemma isLocal_watched roots imp (wj : W * Journal) :
  ∃ added,
    isLocal (os := watched os) roots imp wj
    = ((isLocal (os := os) roots imp wj.1).1,
       ((isLocal (os := os) roots imp wj.1).2,
        mkJournal (stats wj.2 ++ added) (opens wj.2) (walks wj.2))) ∧
    if (isLocal (os := os) roots imp wj.1).1
    then ∃ root, root ∈ roots ∧ (filepath_Join [root; imp], true) ∈ added
    else ∀ root, root ∈ roots → (filepath_Join [root; imp], false) ∈ added.
Proof.
  revert wj. induction roots as [|root rest IH]; intros [w j].
  - exists []. cbn [isLocal fst snd]. rewrite app_nil_r. split; [by destruct j|].
    intros root Hin. by apply elem_of_nil in Hin.
  - cbn [isLocal os_Stat watched fst snd].
    destruct (os_Stat (filepath_Join [root; imp]) w) as [[e|] w1]; cbn [nil_error].
    + destruct (IH (w1, mkJournal (stats j ++ [(filepath_Join [root; imp], false)])
                          (opens j) (walks j))) as (added & -> & Hadded).
      cbn [fst snd stats opens walks] in *.
      exists ((filepath_Join [root; imp], false) :: added).
      split; [by rewrite <- app_assoc|].
      destruct (isLocal rest imp w1).1.
      * destruct Hadded as (root' & Hin & Hhit). exists root'.
        split; [by right|by right].
      * intros root' [->|Hin]%elem_of_cons; [by left|]. right. by apply Hadded.
    + exists [(filepath_Join [root; imp], true)]. split; [done|].
      cbn [fst]. exists root. split; by left.
Qed.

End WatchedFacts.

Section WatchedEngine.
Context {lib : GoLib} {W : Type} {os : Sys W}.
Variables (rts : list string) (dst : string) (resolve0 : Resolver W) (p : string).
Implicit Types (st : state (W * Journal)) (r : error).

Local Abbreviation ctx := (mkContext rts (watched_resolver resolve0) dst).

(** A step that leaves the notes and the map as they are. *)
Lemma Watched_quiet st r (w : W) tr :
  Watched rts dst st r (mkState (w, journal st) (resolved st) tr).
Proof.
  split; [done|done|done|by intros q ?| |done]. intros _ e He. by left.
Qed.

Lemma importLoop_Watched recur entries :
  watched_spec rts dst p recur →
  ∀ st r st',
    importLoop (os := watched os) recur ctx entries st = Some (r, st') →
    Watched rts dst st r st' ∧
    (r = None → imports_handled rts st' entries) ∧
    shadowed rts p st st'.
Proof.
  intros Hrec. induction entries as [|stmt rest IH]; intros st r st'.
  { intros [= <- <-]. split; [apply Watched_refl|]. split; [|by intros _ ?].
    intros _ stmt Hin. by apply elem_of_nil in Hin. }
  cbn [importLoop roots].
  destruct (String.eqb_spec (Package stmt) "") as [Hpkg|Hpkg]; cbn [negb].
  2:{ intros Hrun. apply IH in Hrun as (Hw & Hh & Hs).
      split; [done|]. split; [|done]. intros Hr stmt' [->|Hin]%elem_of_cons ??;
        [done|by apply Hh]. }
  destruct (String.eqb_spec (Import stmt) "") as [Himp|Himp].
  { intros Hrun. apply IH in Hrun as (Hw & Hh & Hs).
    split; [done|]. split; [|done]. intros Hr stmt' [->|Hin]%elem_of_cons ??;
      [done|by apply Hh]. }
  unfold mbind, M_bind, sys.
  destruct (isLocal_watched rts (Import stmt) (world st)) as (added & -> & Hadded).
  destruct (isLocal rts (Import stmt) (world st).1) as [found w1].
  cbn [fst snd] in *.
  set (st1 := mkState (w1, mkJournal (stats (world st).2 ++ added)
                             (opens (world st).2) (walks (world st).2))
                (resolved st) (trace st)).
  assert (Watched rts dst st None st1) as Hw1.
  { split; [by apply list_subseteq_app_l|done|done|by intros q ?| |done].
    intros _ e He. by left. }
  assert (shadowed rts p st st1) as Hs1 by by intros _ ?.
  destruct found.
  - intros Hrun. apply IH in Hrun as (Hw & Hh & Hs).
    split; [by eapply Watched_trans|]. split.
    + intros Hr stmt' [->|Hin]%elem_of_cons ??; [|by apply Hh].
      destruct Hadded as (root & Hin & Hhit). right. exists root. split; [done|].
      apply (w_stats _ _ _ _ _ Hw). unfold journal, st1. cbn [world snd stats].
      apply elem_of_app. by right.
    + eapply shadowed_trans; [apply Hw|done..].
  - destruct (recur (Import stmt) st1) as [[r1 st2]|] eqn:Hr1; [|done].
    apply Hrec in Hr1 as (Hw2 & Hres2 & Hs2).
    assert (∀ st3, stats (journal st2) ⊆ stats (journal st3) →
              (∃ root, root ∈ rts ∧
                 never_missed (filepath_Join [root; p]) (journal st3)) →
              Import stmt ≠ p) as Hne.
    { intros st3 Hsub (root & Hin & Hnm) Heq.
      specialize (Hadded root Hin). rewrite Heq in Hadded.
      assert ((filepath_Join [root; p], false) ∈ stats (journal st3)) as Hmiss.
      { apply Hsub, (w_stats _ _ _ _ _ Hw2). unfold journal, st1.
        cbn [world snd stats]. apply elem_of_app. by right. }
      by apply Hnm in Hmiss. }
    destruct r1 as [e|].
    + intros [= <- <-]. split.
      { eapply Watched_trans; [done|]. by eapply Watched_weaken. }
      split; [done|]. intros Hprem Hu. apply Hs2; [by apply (Hne st2)|done|exact Hu].
    + intros Hrun. apply IH in Hrun as (Hw & Hh & Hs).
      split; [eapply Watched_trans; [done|]; by eapply Watched_trans|]. split.
      * intros Hr stmt' [->|Hin]%elem_of_cons ??; [|by apply Hh].
        left. by apply (w_grows _ _ _ _ _ Hw), Hres2.
      * intros Hprem Hu. apply Hs; [done|].
        assert (∃ root, root ∈ rts ∧
                  never_missed (filepath_Join [root; p]) (journal st2)) as Hprem2.
        { destruct Hprem as (root & Hin & Hnm). exists root. split; [done|].
          intros ok Hok. by apply Hnm, (w_stats _ _ _ _ _ Hw). }
        apply Hs2; [eapply Hne; [|exact Hprem]; apply Hw|done|exact Hu].
Qed.

Lemma resolveImports_Watched recur (f : Handle) st r st' :
  watched_spec rts dst p recur →
  resolveImports_with (os := watched os) recur ctx f st = Some (r, st') →
  Watched rts dst st r st' ∧
  (r = None → file_handled rts st' (Name f, Content f)) ∧
  shadowed rts p st st'.
Proof.
  intros Hrec. unfold resolveImports_with.
  destruct (parser_Parse (Content f)) as [proto|e] eqn:Hp.
  - intros Hrun. eapply importLoop_Watched in Hrun as (Hw & Hh & Hs); [|done].
    split; [done|]. split; [|done]. intros Hr proto' Hp'. cbn [snd] in Hp'.
    rewrite Hp in Hp'. injection Hp' as <-. by apply Hh.
  - intros [= <- <-]. split; [apply Watched_refl|]. split; [done|by intros _ ?].
Qed.

(** The ways in which a call of recursiveResolve under watch ends. *)
Lemma recursiveResolve_cases fuel imp st r st' :
  recursiveResolve (os := watched os) (S fuel) ctx imp st = Some (r, st') →
  let destFile := filepath_Join [dst; imp] in
  (r = None ∧ st' = st ∧ is_Some (resolved st !! imp)) ∨
  (∃ e out (w : W),
     r = Some e ∧
     st' = mkState (w, journal st) (resolved st) (trace st ++ [Fetch imp out])) ∨
  (∃ e (w : W) evs,
     r = Some e ∧ Forall (λ ev, ∀ q out, ev ≠ Fetch q out) evs ∧
     st' = mkState (w, journal st) (<[imp:=true]> (resolved st))
             (trace st ++ Fetch imp Found :: evs)) ∨
  (∃ (f : Handle) (w : W),
     resolveImports_with (os := watched os)
       (recursiveResolve (os := watched os) fuel ctx) ctx f
       (mkState (w, mkJournal (stats (journal st))
                      (opens (journal st) ++ [(destFile, Content f)])
                      (walks (journal st)))
          (<[imp:=true]> (resolved st))
          (trace st ++ [Fetch imp Found; Write imp destFile; Reopen imp destFile]))
     = Some (r, st')).
Proof.
  intros Hrun destFile. revert Hrun.
  cbn [recursiveResolve]. unfold mbind, M_bind, is_resolved.
  destruct (default false (resolved st !! imp)) eqn:Hdef.
  { intros [= <- <-]. left. split; [done|]. split; [done|].
    by destruct (resolved st !! imp). }
  right. revert Hrun. unfold sys at 1.
  cbn [resolve dest].
  change (watched_resolver resolve0 imp (world st))
    with (lift (resolve0 imp) (world st)). unfold lift at 1.
  destruct (resolve0 imp (world st).1) as [[h err] w1].
  unfold emit at 1. cbn [world resolved trace fst snd].
  destruct err as [e|]; [|destruct h as [h|]].
  { intros [= <- <-]. left. by eexists _, _, _. }
  2:{ intros [= <- <-]. left. by eexists _, _, _. }
  right. revert Hrun.
  unfold mark_resolved, sys at 1. cbn [world resolved trace os_MkdirAll watched].
  unfold lift at 1. cbn [fst snd outcome_of]. fold destFile.
  destruct (os_MkdirAll _ w1) as [[e|] w2].
  { intros [= <- <-]. left. eexists _, w2, []. split; [done|].
    split; [by constructor|done]. }
  unfold emit at 1, sys at 1. cbn [world resolved trace os_Create watched].
  unfold lift at 1. cbn [fst snd].
  destruct (os_Create _ w2) as [[e|] w3].
  { intros [= <- <-]. left. eexists _, w3, [Write imp destFile].
    rewrite <- app_assoc. split; [done|]. split; [|done]. by repeat constructor. }
  unfold sys at 1. cbn [world resolved trace io_Copy watched].
  unfold lift at 1. cbn [fst snd].
  destruct (io_Copy _ _ w3) as [[e|] w4].
  { intros [= <- <-]. left. eexists _, w4, [Write imp destFile].
    rewrite <- app_assoc. split; [done|]. split; [|done]. by repeat constructor. }
  unfold emit at 1, sys at 1. cbn [world resolved trace os_Open watched fst snd].
  destruct (os_Open _ w4) as [[f|e] w5].
  - intros Hrun. right. exists f, w5. rewrite <- !app_assoc in Hrun. exact Hrun.
  - intros [= <- <-]. left.
    eexists _, w5, [Write imp destFile; Reopen imp destFile].
    rewrite <- !app_assoc. split; [done|]. split; [|reflexivity].
    by repeat constructor.
Qed.

Lemma untouched_events st (wj : W * Journal) res evs :
  untouched p st → Forall (λ ev, ∀ out, ev ≠ Fetch p out) evs → res !! p = None →
  untouched p (mkState wj res (trace st ++ evs)).
Proof.
  intros [Hf _] Hevs Hres. split; [|done]. cbn [trace].
  rewrite elem_of_fetches. intros [out [Hin|Hin]%elem_of_app].
  - apply Hf, elem_of_fetches. by exists out.
  - rewrite Forall_forall in Hevs. by apply (Hevs _ Hin out).
Qed.

Lemma Watched_result roots dest st r r' st' :
  (r' = None → r = None) →
  Watched roots dest st r st' → Watched roots dest st r' st'.
Proof. intros Hr [? ? ? ? Hn Hb]. split; auto. Qed.

Lemma recursiveResolve_Watched fuel :
  watched_spec rts dst p (recursiveResolve (os := watched os) fuel ctx).
Proof.
  induction fuel as [|fuel IH]; intros imp st r st' Hrun; [done|].
  apply recursiveResolve_cases in Hrun
    as [(-> & -> & Hres)|[(e & out & w & -> & ->)
       |[(e & w & evs & -> & Hevs & ->)|(f & w & Hrun)]]].
  - split; [apply Watched_refl|]. split; [done|by intros _ _ ?].
  - split; [apply Watched_quiet|]. split; [done|]. intros Hne _ Hu.
    apply untouched_events; [done| |apply Hu].
    constructor; [congruence|constructor].
  - split; [|split; [done|]].
    + apply Watched_fail; [done|done|done|]. intros q Hq. cbn [resolved].
      rewrite lookup_insert_is_Some. destruct (decide (imp = q)); auto.
    + intros Hne _ Hu.
      apply (untouched_events st _ _ (Fetch imp Found :: evs)); [done| |].
      * constructor; [congruence|].
        eapply Forall_impl; [exact Hevs|]. intros ev Hev out. apply Hev.
      * rewrite lookup_insert_ne by done. apply Hu.
  - set (destFile := filepath_Join [dst; imp]) in *.
    set (st1 := mkState _ _ _) in Hrun.
    assert (stats (journal st) ⊆ stats (journal st1)) as Hst by done.
    assert (opens (journal st) ⊆ opens (journal st1)) as Hop.
    { unfold journal, st1. cbn [world snd opens]. by apply list_subseteq_app_l. }
    assert (grows st st1) as Hgr.
    { intros q Hq. unfold st1. cbn [resolved]. rewrite lookup_insert_is_Some.
      destruct (decide (imp = q)); auto. }
    assert (imp ≠ p → untouched p st → untouched p st1) as Hu1.
    { intros Hne Hu. apply untouched_events; [done| |].
      - repeat constructor; congruence.
      - rewrite lookup_insert_ne by done. apply Hu. }
    revert Hrun. unfold resolveImports_with.
    destruct (parser_Parse (Content f)) as [proto|e] eqn:Hp.
    2:{ intros [= <- <-]. split; [by apply Watched_fail|]. split; [done|].
        intros Hne _ Hu. by apply Hu1. }
    intros Hrun. eapply importLoop_Watched in Hrun as (Hw & Hh & Hs); [|done].
    destruct Hw as [Hs2 Ho2 Hk2 Hg2 Hn2 Hr2]. split; [split|split].
    + by etrans.
    + by etrans.
    + done.
    + intros q Hq. by apply Hg2, Hgr.
    + intros Hr e He. destruct (Hn2 Hr e He) as [He1|?]; [|by right].
      apply elem_of_app in He1 as [?|He1%list_elem_of_singleton]; [by left|].
      subst e.
      right. intros proto' Hp'. cbn [snd] in Hp'. rewrite Hp in Hp'.
      injection Hp' as <-. by apply Hh.
    + intros Hr Hrb. apply Hr2; [done|]. intros q Hq.
      unfold st1 in Hq. cbn [resolved] in Hq.
      apply lookup_insert_is_Some in Hq as [<-|[_ Hq]].
      * exists (Content f), proto. split; [|done]. unfold journal, st1.
        cbn [world snd opens]. apply elem_of_app. right. by left.
      * destruct (Hrb q Hq) as (c & pr & Hin & Hpr). exists c, pr.
        split; [by apply Hop|done].
    + intros _. apply Hg2. unfold st1. cbn [resolved].
      rewrite lookup_insert_is_Some. by left.
    + intros Hne Hprem Hu. apply Hs; [done|by apply Hu1].
Qed.

Lemma walkFn_Watched fuel path err st r st' :
  walkFn (os := watched os) fuel ctx path err st = Some (r, st') →
  Watched rts dst st r st' ∧ shadowed rts p st st'.
Proof.
  unfold walkFn. destruct err as [e|].
  { intros [= <- <-]. split; [apply Watched_refl|by intros _ ?]. }
  destruct (negb _).
  { intros [= <- <-]. split; [apply Watched_refl|by intros _ ?]. }
  unfold mbind, M_bind, emit, sys. cbn [world resolved trace os_Open watched].
  destruct (os_Open path (world st).1) as [[f|e] w1].
  2:{ intros [= <- <-]. split; [apply Watched_quiet|]. intros _ Hu.
      apply untouched_events; [done|by repeat constructor|apply Hu]. }
  set (st1 := mkState _ _ _).
  assert (untouched p st → untouched p st1) as Hu1.
  { intros Hu. apply untouched_events; [done|by repeat constructor|apply Hu]. }
  unfold resolveImports. intros Hrun.
  eapply resolveImports_Watched in Hrun as (Hw & Hh & Hs);
    [|apply recursiveResolve_Watched].
  destruct Hw as [Hs2 Ho2 Hk2 Hg2 Hn2 Hr2]. split; [split|].
  - done.
  - etrans; [|exact Ho2]. unfold journal, st1. cbn [world snd opens].
    by apply list_subseteq_app_l.
  - done.
  - intros q Hq. by apply Hg2.
  - intros Hr e He. destruct (Hn2 Hr e He) as [He1|?]; [|by right].
    apply elem_of_app in He1 as [?|He1%list_elem_of_singleton]; [by left|].
      subst e.
    right. by apply Hh.
  - intros Hr Hrb. apply Hr2; [done|]. intros q Hq.
    destruct (Hrb q Hq) as (c & pr & Hin & Hpr). exists c, pr.
    split; [|done]. unfold journal, st1. cbn [world snd opens].
    apply elem_of_app. by left.
  - intros Hprem Hu. apply Hs; [done|by apply Hu1].
Qed.

Lemma walkLoop_Watched fuel entries st r st' :
  walkLoop (os := watched os) fuel ctx entries st = Some (r, st') →
  Watched rts dst st r st' ∧ shadowed rts p st st'.
Proof.
  revert st. induction entries as [|[path err] rest IH]; intros st; simpl.
  { intros [= <- <-]. split; [apply Watched_refl|by intros _ ?]. }
  unfold mbind, M_bind.
  destruct (walkFn _ _ _ _ _) as [[r1 st1]|] eqn:Hfn; [|done].
  apply walkFn_Watched in Hfn as [Hw1 Hs1].
  destruct r1 as [e|]; [by intros [= <- <-]|].
  intros Hrun. apply IH in Hrun as [Hw2 Hs2].
  split; [by eapply Watched_trans|]. eapply shadowed_trans; [apply Hw2|done..].
Qed.

Lemma was_read_mono (j j' : Journal) path :
  opens j ⊆ opens j' → was_read j path → was_read j' path.
Proof. intros Ho (c & pr & Hin & Hpr). exists c, pr. split; [by apply Ho|done]. Qed.

Lemma walk_read_mono (j j' : Journal) root :
  opens j ⊆ opens j' → walks j ⊆ walks j' → walk_read j root → walk_read j' root.
Proof.
  intros Ho Hk (entries & Hin & Hall). exists entries. split; [by apply Hk|].
  intros path Hp Hsuf. eapply was_read_mono; [done|]. by apply Hall.
Qed.

(** When the callback succeeds on a .proto file, the file was read. *)
Lemma walkFn_read fuel path st st' :
  walkFn (os := watched os) fuel ctx path None st = Some (None, st') →
  strings.HasSuffix path ".proto" = true → was_read (journal st') path.
Proof using All.
  unfold walkFn. intros Hrun Hsuf. rewrite Hsuf in Hrun. cbn [negb] in Hrun.
  revert Hrun.
  unfold mbind, M_bind, emit, sys. cbn [world resolved trace os_Open watched].
  destruct (os_Open path (world st).1) as [[f|e] w1]; [|done].
  set (st1 := mkState _ _ _). unfold resolveImports. intros Hrun.
  assert (was_read (journal st1) path) as Hread.
  { revert Hrun. unfold resolveImports_with.
    destruct (parser_Parse (Content f)) as [proto|e] eqn:Hp; [|done]. intros _.
    exists (Content f), proto. split; [|done]. unfold journal, st1.
    cbn [world snd opens]. apply elem_of_app. right. by left. }
  eapply resolveImports_Watched in Hrun as (Hw & _ & _);
    [|apply recursiveResolve_Watched].
  eapply was_read_mono; [apply Hw|done].
Qed.

Lemma walkLoop_read fuel entries st st' :
  walkLoop (os := watched os) fuel ctx entries st = Some (None, st') →
  ∀ path, (path, None) ∈ entries → strings.HasSuffix path ".proto" = true →
    was_read (journal st') path.
Proof using All.
  revert st. induction entries as [|[path err] rest IH]; intros st; simpl.
  { intros _ path Hin. by apply elem_of_nil in Hin. }
  unfold mbind, M_bind.
  destruct (walkFn _ _ _ _ _) as [[r1 st1]|] eqn:Hfn; [|done].
  destruct r1 as [e|]; [done|]. intros Hrun path' Hin Hsuf.
  apply elem_of_cons in Hin as [[= -> <-]|Hin]; [|by eapply IH].
  apply walkFn_read in Hfn; [|done].
  apply walkLoop_Watched in Hrun as [Hw _].
  eapply was_read_mono; [apply Hw|done].
Qed.

Lemma resolveLocalRoot_Watched fuel root st r st' :
  resolveLocalRoot (os := watched os) fuel ctx root st = Some (r, st') →
  Watched rts dst st r st' ∧ shadowed rts p st st' ∧
  (r = None → walk_read (journal st') root).
Proof.
  unfold resolveLocalRoot, mbind, M_bind, sys. cbn [filepath_Walk watched].
  destruct (filepath_Walk root (world st).1) as [entries w1].
  set (st1 := mkState _ _ _).
  destruct (walkLoop _ _ _ _) as [[err st2]|] eqn:Hloop; [|done].
  pose proof Hloop as Hread.
  apply walkLoop_Watched in Hloop as [Hw Hs]. intros [= <- <-].
  assert (Watched rts dst st None st1) as Hw1.
  { split; [done|done| |by intros q ?| |done].
    - unfold journal, st1. cbn [world snd walks]. by apply list_subseteq_app_l.
    - intros _ e He. by left. }
  split; [|split].
  - eapply Watched_trans; [exact Hw1|].
    eapply Watched_result; [|exact Hw]. by destruct err.
  - intros Hprem Hu. by apply Hs.
  - intros Hr. destruct err as [e|]; [done|]. exists entries. split.
    + apply (w_walks _ _ _ _ _ Hw). unfold journal, st1. cbn [world snd walks].
      apply elem_of_app. right. by left.
    + by eapply walkLoop_read.
Qed.

Lemma forEach_Watched (f : string → M (W * Journal) error) srcs (P : Prop) :
  (∀ src st r st', src ∈ srcs → f src st = Some (r, st') →
     Watched rts dst st r st' ∧ (P → shadowed rts p st st')) →
  ∀ st r st', forEach f srcs st = Some (r, st') →
    Watched rts dst st r st' ∧ (P → shadowed rts p st st').
Proof.
  induction srcs as [|src rest IH]; intros Hf st r st'; simpl.
  { intros [= <- <-]. split; [apply Watched_refl|by intros _ _ ?]. }
  unfold mbind, M_bind.
  destruct (f src st) as [[r1 st1]|] eqn:Hsrc; [|done].
  apply Hf in Hsrc as [Hw1 Hs1]; [|by left].
  destruct r1 as [e|]; [by intros [= <- <-]|].
  intros Hrun. apply IH in Hrun as [Hw2 Hs2].
  - split; [by eapply Watched_trans|]. intros HP.
    eapply shadowed_trans; [apply Hw2|auto..].
  - intros src' ???? . apply Hf. by right.
Qed.

(** When the loop over the explicit sources succeeds, each of them is
    resolved. *)
Lemma forEach_marks fuel srcs st r st' :
  forEach (recursiveResolve (os := watched os) fuel ctx) srcs st = Some (r, st') →
  grows st st' ∧ (r = None → ∀ src, src ∈ srcs → is_Some (resolved st' !! src)).
Proof using All.
  revert st. induction srcs as [|src rest IH]; intros st; simpl.
  { intros [= <- <-]. split; [by intros q ?|]. intros _ src Hin.
    by apply elem_of_nil in Hin. }
  unfold mbind, M_bind.
  destruct (recursiveResolve _ _ _ _) as [[r1 st1]|] eqn:Hsrc; [|done].
  apply recursiveResolve_Watched in Hsrc as (Hw & Hres & _).
  destruct r1 as [e|]; [intros [= <- <-]; split; [apply Hw|done]|].
  intros Hrun. apply IH in Hrun as [Hg Hall]. split.
  - intros q Hq. by apply Hg, (w_grows _ _ _ _ _ Hw).
  - intros Hr src' [->|Hin]%elem_of_cons; [by apply Hg, Hres|by apply Hall].
Qed.

(** When the loop over the local roots succeeds, each of them was walked
    and read. *)
Lemma forEach_walks fuel srcs st r st' :
  forEach (resolveLocalRoot (os := watched os) fuel ctx) srcs st = Some (r, st') →
  Watched rts dst st r st' ∧
  (r = None → ∀ root, root ∈ srcs → walk_read (journal st') root).
Proof using All.
  revert st. induction srcs as [|src rest IH]; intros st; simpl.
  { intros [= <- <-]. split; [apply Watched_refl|]. intros _ root Hin.
    by apply elem_of_nil in Hin. }
  unfold mbind, M_bind.
  destruct (resolveLocalRoot _ _ _ _) as [[r1 st1]|] eqn:Hsrc; [|done].
  apply resolveLocalRoot_Watched in Hsrc as (Hw & _ & Hread).
  destruct r1 as [e|]; [intros [= <- <-]; by split|].
  intros Hrun. apply IH in Hrun as [Hw2 Hall].
  split; [by eapply Watched_trans|].
  intros Hr root [->|Hin]%elem_of_cons; [|by apply Hall].
  eapply walk_read_mono; [apply Hw2|apply Hw2|by apply Hread].
Qed.

End WatchedEngine.

Section WatchedSync.
Context {lib : GoLib} {W : Type} {os : Sys W}.

Lemma Sync_Watched fuel (resolve : Resolver W) dest sources (w : W) synced err st' p :
  Sync (os := watched os) fuel (watched_resolver resolve) dest sources
    (w, no_journal) = Some ((synced, err), st') →
  let rts := List.filter (λ src, negb (isProto src)) sources in
  let st0 := mkState (w, no_journal) ∅ [] in
  Watched rts dest st0 err st' ∧
  (err = None →
     (∀ src, src ∈ List.filter isProto sources → is_Some (resolved st' !! src)) ∧
     (∀ root, root ∈ rts → walk_read (journal st') root)) ∧
  (p ∉ List.filter isProto sources → shadowed rts p st0 st').
Proof.
  intros Hrun rts st0. revert Hrun. unfold Sync, syncBody, mbind, M_bind.
  fold rts. fold st0.
  destruct (forEach _ (List.filter isProto sources) st0) as [[r1 st1]|] eqn:H1;
    [|done].
  pose proof (forEach_marks rts dest resolve p fuel _ _ _ _ H1) as [_ Hmarks].
  apply (forEach_Watched rts dest p _ _ (p ∉ List.filter isProto sources))
    in H1 as [Hw1 Hs1].
  2:{ intros src st r st2 Hin Hr.
      apply (recursiveResolve_Watched rts dest resolve p) in Hr as (Hw & _ & Hs).
      split; [done|]. intros Hp. apply Hs. by intros ->. }
  destruct r1 as [e|].
  { intros [= <- <- <-]. split; [done|]. by split. }
  destruct (forEach _ rts st1) as [[r2 st2]|] eqn:H2; [|done].
  pose proof (forEach_walks rts dest resolve p fuel _ _ _ _ H2) as [_ Hwalks].
  apply (forEach_Watched rts dest p _ _ True) in H2 as [Hw2 Hs2].
  2:{ intros src st r st3 _ Hr.
      apply (resolveLocalRoot_Watched rts dest resolve p) in Hr as (Hw & Hs & _).
      by split. }
  assert (Watched rts dest st0 r2 st2) as Hw by by eapply Watched_trans.
  assert (p ∉ List.filter isProto sources → shadowed rts p st0 st2) as Hs.
  { intros Hp. eapply shadowed_trans; [apply Hw2|auto..]. }
  destruct r2 as [e|]; intros [= <- <- <-].
  - split; [done|]. by split.
  - split; [done|]. split; [|done]. intros _. split; [|by apply Hwalks].
    intros src Hin. by apply (w_grows _ _ _ _ _ Hw2), Hmarks.
Qed.

End WatchedSync.

(** ** The watched run and the plain run *)

Section Erasure.
Context {lib : GoLib} {W : Type} {os : Sys W}.
Variables (rts : list string) (dst : string) (resolve0 : Resolver W).
Implicit Types (st : state (W * Journal)).

Local Abbreviation ctx := (mkContext rts (watched_resolver resolve0) dst).
Local Abbreviation ctx0 := (mkContext rts resolve0 dst).

Lemma simulates_ret {A : Type} (a : A) : simulates (W := W) (mret a) (mret a).
Proof. by intros st. Qed.

Lemma simulates_bind {A B : Type} (m : M (W * Journal) A) (m0 : M W A)
    (f : A → M (W * Journal) B) (f0 : A → M W B) :
  simulates m m0 → (∀ a, simulates (f a) (f0 a)) →
  simulates (m ≫= f) (m0 ≫= f0).
Proof.
  intros Hm Hf st. unfold mbind, M_bind. specialize (Hm st).
  destruct (m st) as [[a st1]|]; cbn in Hm; rewrite <- Hm; [apply Hf|done].
Qed.

Lemma simulates_lift {A : Type} (g : W → A * W) : simulates (sys (lift g)) (sys g).
Proof.
  intros st. unfold sys, lift. cbn [erase world].
  by destruct (g (world st).1) as [a w1].
Qed.

Lemma simulates_emit ev : simulates (W := W) (emit ev) (emit ev).
Proof. by intros st. Qed.

Lemma simulates_is_resolved imp :
  simulates (W := W) (is_resolved imp) (is_resolved imp).
Proof. by intros st. Qed.

Lemma simulates_mark imp :
  simulates (W := W) (mark_resolved imp) (mark_resolved imp).
Proof. by intros st. Qed.

Lemma simulates_Open path :
  simulates (sys (os_Open (Sys := watched os) path)) (sys (os_Open path)).
Proof.
  intros st. unfold sys. cbn [os_Open watched erase world].
  by destruct (os_Open path (world st).1) as [[f|e] w1].
Qed.

Lemma simulates_Walk root :
  simulates (sys (filepath_Walk (Sys := watched os) root))
    (sys (filepath_Walk root)).
Proof.
  intros st. unfold sys. cbn [filepath_Walk watched erase world].
  by destruct (filepath_Walk root (world st).1) as [entries w1].
Qed.

Lemma simulates_isLocal imp :
  simulates (sys (isLocal (os := watched os) rts imp)) (sys (isLocal rts imp)).
Proof.
  intros st. unfold sys.
  destruct (isLocal_watched rts imp (world st)) as (added & -> & _).
  cbn [erase world]. by destruct (isLocal rts imp (world st).1) as [found w1].
Qed.

Lemma importLoop_simulates recur recur0 entries :
  (∀ imp, simulates (recur imp) (recur0 imp)) →
  simulates (importLoop (os := watched os) recur ctx entries)
    (importLoop (os := os) recur0 ctx0 entries).
Proof.
  intros Hrec. induction entries as [|stmt rest IH]; [apply simulates_ret|].
  cbn [importLoop roots].
  destruct (negb _); [apply IH|].
  destruct (String.eqb _ _); [apply IH|].
  apply simulates_bind; [apply simulates_isLocal|]. intros [|]; [apply IH|].
  apply simulates_bind; [apply Hrec|]. intros [e|]; [apply simulates_ret|apply IH].
Qed.

Lemma resolveImports_simulates recur recur0 (f : Handle) :
  (∀ imp, simulates (recur imp) (recur0 imp)) →
  simulates (resolveImports_with (os := watched os) recur ctx f)
    (resolveImports_with (os := os) recur0 ctx0 f).
Proof.
  intros Hrec. unfold resolveImports_with.
  destruct (parser_Parse _); [by apply importLoop_simulates|apply simulates_ret].
Qed.

Lemma recursiveResolve_simulates fuel imp :
  simulates (recursiveResolve (os := watched os) fuel ctx imp)
    (recursiveResolve (os := os) fuel ctx0 imp).
Proof.
  revert imp. induction fuel as [|fuel IH]; intros imp; [by intros st|].
  cbn [recursiveResolve resolve dest].
  apply simulates_bind; [apply simulates_is_resolved|].
  intros [|]; [apply simulates_ret|].
  apply simulates_bind; [apply (simulates_lift (resolve0 imp))|]. intros [h err].
  apply simulates_bind; [apply simulates_emit|]. intros _.
  destruct err as [e|]; [apply simulates_ret|].
  destruct h as [h|]; [|apply simulates_ret].
  apply simulates_bind; [apply simulates_mark|]. intros _.
  apply simulates_bind; [apply (simulates_lift (os_MkdirAll _))|].
  intros [e|]; [apply simulates_ret|].
  apply simulates_bind; [apply simulates_emit|]. intros _.
  apply simulates_bind; [apply (simulates_lift (os_Create _))|].
  intros [e|]; [apply simulates_ret|].
  apply simulates_bind; [apply (simulates_lift (io_Copy _ _))|].
  intros [e|]; [apply simulates_ret|].
  apply simulates_bind; [apply simulates_emit|]. intros _.
  apply simulates_bind; [apply simulates_Open|].
  intros [f|e]; [|apply simulates_ret].
  by apply resolveImports_simulates.
Qed.

Lemma walkLoop_simulates fuel entries :
  simulates (walkLoop (os := watched os) fuel ctx entries)
    (walkLoop (os := os) fuel ctx0 entries).
Proof.
  induction entries as [|[path err] rest IH]; [apply simulates_ret|].
  cbn [walkLoop]. apply simulates_bind.
  - unfold walkFn. destruct err as [e|]; [apply simulates_ret|].
    destruct (negb _); [apply simulates_ret|].
    apply simulates_bind; [apply simulates_emit|]. intros _.
    apply simulates_bind; [apply simulates_Open|].
    intros [f|e]; [|apply simulates_ret].
    apply resolveImports_simulates, recursiveResolve_simulates.
  - intros [e|]; [apply simulates_ret|apply IH].
Qed.

Lemma resolveLocalRoot_simulates fuel root :
  simulates (resolveLocalRoot (os := watched os) fuel ctx root)
    (resolveLocalRoot (os := os) fuel ctx0 root).
Proof.
  unfold resolveLocalRoot.
  apply simulates_bind; [apply simulates_Walk|].
  intros entries. apply simulates_bind; [apply walkLoop_simulates|].
  intros err. apply simulates_ret.
Qed.

Lemma forEach_simulates f f0 srcs :
  (∀ src, simulates (f src) (f0 src)) →
  simulates (W := W) (forEach f srcs) (forEach f0 srcs).
Proof.
  intros Hf. induction srcs as [|src rest IH]; [apply simulates_ret|].
  cbn [forEach]. apply simulates_bind; [apply Hf|].
  intros [e|]; [apply simulates_ret|apply IH].
Qed.

End Erasure.

(** The watched run of Sync returns what the plain run returns, in the
    same state but for the notes. *)
Lemma Sync_simulates {lib : GoLib} {W : Type} {os : Sys W} (fuel : nat)
    (resolve : Resolver W) (dest : string) (sources : list string) (w : W)
    (j : Journal) :
  prod_map id erase
    <$> Sync (os := watched os) fuel (watched_resolver resolve) dest sources (w, j)
  = Sync (os := os) fuel resolve dest sources w.
Proof.
  unfold Sync, syncBody.
  match goal with |- _ <$> ?m ?st = ?m0 ?st0 =>
    change st0 with (erase st); generalize st;
    change (simulates m m0) end.
  apply simulates_bind.
  { apply forEach_simulates. intros src. apply recursiveResolve_simulates. }
  intros [e|]; [apply simulates_ret|].
  apply simulates_bind.
  { apply forEach_simulates. intros src. apply resolveLocalRoot_simulates. }
  intros [e|]; [apply simulates_ret|]. by intros st.
Qed.

Section Claims.
Context {lib : GoLib} {W : Type} {os : Sys W}.

Lemma fetched_sublist tr : fetched tr `sublist_of` fetches tr.
Proof.
  induction tr as [|ev tr IH]; [constructor|].
  destruct ev as [imp [| |e]| | |]; simpl; first [done|by constructor].
Qed.

Lemma Settled_writes_NoDup res tr : Settled res tr → NoDup (writes tr).
Proof.
  intros Hs. destruct (settled_writes _ _ Hs) as [k Hk].
  pose proof (sublist_NoDup _ _ (settled_nodup _ _ Hs) (fetched_sublist tr)) as Hn.
  rewrite Hk in Hn. by apply NoDup_app in Hn as [? _].
Qed.

Lemma Settled_reopens_NoDup res tr : Settled res tr → NoDup (reopens tr).
Proof.
  intros Hs. destruct (settled_reopens _ _ Hs) as [k Hk].
  pose proof (Settled_writes_NoDup _ _ Hs) as Hn.
  rewrite Hk in Hn. by apply NoDup_app in Hn as [? _].
Qed.

Lemma elem_of_keys (res : gmap string bool) p :
  p ∈ map fst (map_to_list res) ↔ is_Some (res !! p).
Proof.
  rewrite list_elem_of_fmap. split.
  - intros ([k v] & -> & Hin). apply elem_of_map_to_list in Hin. by exists v.
  - intros [v Hv]. exists (p, v). split; [done|]. by apply elem_of_map_to_list.
Qed.

End Claims.

(** C1. A call of recursiveResolve for a path that is marked resolved
    returns nil at once and leaves the world, the map and the record of
    calls as they are: the resolver is not called and nothing is written.
    So, in the state in which Sync ends, with or without an error, no
    path was handed to the resolver twice, no destination file was
    created twice, every file created belongs to a path fetched, and the
    keys of the resolved map are the paths for which the resolver gave a
    handle. *)
Theorem resolved_paths_fetched_once {lib : GoLib} {W : Type} {os : Sys W}
    (fuel : nat) (resolve : Resolver W) (dest : string) (sources : list string)
    (w : W) (res : option (list string) * error) (st' : state W) :
  Sync fuel resolve dest sources w = Some (res, st') →
  (∀ n ctx p (st : state W),
     resolved st !! p = Some true →
     recursiveResolve (S n) ctx p st = Some (None, st)) ∧
  NoDup (fetches (trace st')) ∧
  NoDup (writes (trace st')) ∧
  writes (trace st') `prefix_of` fetched (trace st') ∧
  (∀ p, p ∈ dom (resolved st') ↔ Fetch p Found ∈ trace st').
Proof.
  intros Hrun. destruct res as [synced err].
  apply Sync_Post in Hrun as [[_ Hs _] _].
  split; [|split; [|split; [|split]]].
  - intros n ctx p st Hp. cbn [recursiveResolve].
    unfold mbind, M_bind, is_resolved. by rewrite Hp.
  - apply Hs.
  - by eapply Settled_writes_NoDup.
  - apply Hs.
  - intros p. rewrite elem_of_dom, <- elem_of_fetched. symmetry. apply Hs.
Qed.

Lemma resolved_paths_fetched_once_witness :
  let m : gmap string string :=
    list_to_map [("a.proto", "c.proto;b.proto"); ("b.proto", "c.proto");
                 ("c.proto", "")] in
  ∃ st',
    Sync (lib := Sim.lib []) (os := Sim.disk_sys ∅) 4 (Sim.serve m) "out"
      ["a.proto"; "b.proto"] (Sim.mkDisk ∅ ∅)
      = Some ((Some ["c.proto"; "a.proto"; "b.proto"], None), st') ∧
    fetches (trace st') = ["a.proto"; "c.proto"; "b.proto"] ∧
    NoDup (fetches (trace st')) ∧ NoDup (writes (trace st')).
Proof.
  intros m.
  destruct (Sync (lib := Sim.lib []) (os := Sim.disk_sys ∅) 4 (Sim.serve m)
              "out" ["a.proto"; "b.proto"] (Sim.mkDisk ∅ ∅))
    as [[res st']|] eqn:Hrun; [|by vm_compute in Hrun].
  exists st'.
  pose proof (resolved_paths_fetched_once _ _ _ _ _ _ _ Hrun) as (_ & Hf & Hw & _).
  vm_compute in Hrun. injection Hrun as <- <-.
  split; [reflexivity|]. split; [reflexivity|]. split; [exact Hf|exact Hw].
Defined.



(** C10. Whenever Sync returns an error, from the loop over the explicit
    imports or from the walk of a local root, the list it returns is nil.
    The state of the world is the one reached when the error was met:
    what was written before stays written. *)
Theorem Sync_error_returns_nil {lib : GoLib} {W : Type} {os : Sys W}
    (fuel : nat) (resolve : Resolver W) (dest : string) (sources : list string)
    (w : W) (synced : option (list string)) (e : error_value) (st' : state W) :
  Sync fuel resolve dest sources w = Some ((synced, Some e), st') →
  synced = None ∧
  ∀ p, p ∈ writes (trace st') → p ∈ fetched (trace st').
Proof.
  intros Hrun. apply Sync_Post in Hrun as [[_ Hs _] ->].
  split; [done|]. intros p Hp.
  destruct (settled_writes _ _ Hs) as [k ->]. apply elem_of_app. by left.
Qed.

Lemma Sync_error_returns_nil_witness :
  let m : gmap string string :=
    list_to_map [("a.proto", ""); ("b.proto", "zz.proto")] in
  ∃ e st',
    Sync (lib := Sim.lib []) (os := Sim.disk_sys ∅) 3 (Sim.serve m) "out"
      ["a.proto"; "b.proto"] (Sim.mkDisk ∅ ∅) = Some ((None, Some e), st') ∧
    map_to_list (Sim.files (world st'))
      = [("out/a.proto", ""); ("out/b.proto", "zz.proto")].
Proof.
  intros m.
  destruct (Sync (lib := Sim.lib []) (os := Sim.disk_sys ∅) 3 (Sim.serve m)
              "out" ["a.proto"; "b.proto"] (Sim.mkDisk ∅ ∅))
    as [[[synced [e|]] st']|] eqn:Hrun;
    [|by vm_compute in Hrun|by vm_compute in Hrun].
  exists e, st'.
  destruct (Sync_error_returns_nil _ _ _ _ _ _ _ _ Hrun) as [-> _].
  split; [reflexivity|].
  vm_compute in Hrun. injection Hrun as _ <-. vm_compute. reflexivity.
Defined.

(** ** What the remote strategy keeps *)

Section RemoteKeeps.
Context {lib : GoLib} {W : Type} {os : Sys W}.
Variable Inv : W → Prop.
Hypothesis Hcalm : calm Inv.

Lemma httpGet_keeps (srcURL : string) (w : W) :
  Inv w → Inv (httpGet srcURL w).2.
Proof using All.
  intros Hw. unfold httpGet. pose proof (calm_Get _ Hcalm srcURL w Hw) as H1.
  destruct (http_Get srcURL w) as [[resp|e] w1]; [|done].
  destruct (_ || _); [done|]. by destruct (strings.HasPrefix _ _).
Qed.

Lemma githubFetcher_keeps (u : URL) (relSrc commit : string) (w : W) :
  Inv w → Inv (githubFetcher u relSrc commit w).2.
Proof using All.
  intros Hw. unfold githubFetcher. destruct (negb _); [done|].
  destruct (url_Parse _) as [u'|e]; [|done].
  pose proof (httpGet_keeps (url_String u') w Hw) as H1.
  by destruct (httpGet _ _).
Qed.

Lemma bitBucketFetcher_keeps (u : URL) (relSrc commit : string) (w : W) :
  Inv w → Inv (bitBucketFetcher u relSrc commit w).2.
Proof using All.
  intros Hw. unfold bitBucketFetcher. destruct (_ || _); [done|].
  match goal with |- context [httpGet ?x w] =>
    pose proof (httpGet_keeps x w Hw) as H1; by destruct (httpGet x w) end.
Qed.

Lemma runInDir_keeps (dir cmdStr : string) (args : list string) (w : W) :
  Inv w → Inv (runInDir dir cmdStr args w).2.
Proof using All.
  intros Hw. unfold runInDir.
  pose proof (calm_Run _ Hcalm dir cmdStr args w Hw) as H1.
  by destruct (exec_Run _ _ _ _) as [[e|] w1].
Qed.

Lemma gitClone_keeps (sourceURL destDir : string) (w : W) :
  Inv w → Inv (gitClone sourceURL destDir w).2.
Proof using All.
  intros Hw. unfold gitClone.
  pose proof (calm_Stat _ Hcalm (path_Join [destDir; ".git"]) w Hw) as H1.
  destruct (os_Stat _ w) as [[e|] w1]; cbn [snd] in H1;
    [|by apply runInDir_keeps].
  match goal with |- context [os_MkdirTemp ?a ?b w1] =>
    pose proof (calm_MkdirTemp _ Hcalm a b w1 H1) as H2;
    destruct (os_MkdirTemp a b w1) as [[tmp [e1|]] w2] end;
    cbn [snd] in H2; [done|].
  match goal with |- context [runInDir ?a ?b ?c w2] =>
    pose proof (runInDir_keeps a b c w2 H2) as H3;
    destruct (runInDir a b c w2) as [[e1|] w3] end; cbn [snd] in H3.
  - pose proof (calm_RemoveAll _ Hcalm tmp w3 H3) as H4.
    by destruct (os_RemoveAll tmp w3).
  - pose proof (calm_Rename _ Hcalm tmp destDir w3 H3) as H4.
    destruct (os_Rename tmp destDir w3) as [err w4]; cbn [snd] in H4.
    pose proof (calm_RemoveAll _ Hcalm tmp w4 H4) as H5.
    destruct (os_RemoveAll tmp w4) as [? w5]. by destruct err.
Qed.

Lemma cloner_keeps (u : URL) (relPath commit : string) (w : W) :
  Inv w → Inv (cloner u relPath commit w).2.
Proof using All.
  intros Hw. unfold cloner.
  pose proof (calm_UserCacheDir _ Hcalm w Hw) as H1.
  destruct (os_UserCacheDir w) as [[cacheDir [e|]] w1]; cbn [snd] in H1; [done|].
  match goal with |- context [os_MkdirAll ?a w1] =>
    pose proof (calm_MkdirAll _ Hcalm a w1 H1) as H2;
    destruct (os_MkdirAll a w1) as [[e|] w2] end; cbn [snd] in H2; [done|].
  match goal with |- context [gitClone ?a ?b w2] =>
    pose proof (gitClone_keeps a b w2 H2) as H3;
    destruct (gitClone a b w2) as [[e|] w3] end; cbn [snd] in H3; [done|].
  match goal with |- context [runInDir ?a ?b ?c w3] =>
    pose proof (runInDir_keeps a b c w3 H3) as H4;
    destruct (runInDir a b c w3) as [[e|] w4] end; cbn [snd] in H4; [done|].
  match goal with |- context [os_Open ?a w4] =>
    pose proof (calm_Open _ Hcalm a w4 H4) as H5;
    by destruct (os_Open a w4) as [[f|e] w5] end.
Qed.

Lemma fetchWith_keeps (fetcher : fetcherFunc W) (repo : Repo) (repoURL : URL)
    (proto : string) (w : W) :
  (∀ u s c v, Inv v → Inv (fetcher u s c v).2) →
  Inv w → Inv (fetchWith fetcher repo repoURL proto w).2.
Proof using All.
  intros Hf Hw. unfold fetchWith.
  pose proof (Hf repoURL (path_Join [Root repo; proto]) (Commit repo) w Hw) as H1.
  destruct (fetcher _ _ _ _) as [[[r err] u1] w1]. cbn [snd] in H1.
  destruct (errors.Is err errNotFound).
  - pose proof (cloner_keeps u1 (path_Join [Root repo; proto]) (Commit repo)
                  w1 H1) as H2.
    destruct (cloner _ _ _ _) as [[r2 [e2|]] w2]; cbn [snd] in H2;
      by destruct err.
  - by destruct err.
Qed.

Lemma Remote_keeps (config : RemoteConfig) (repos : list Repo) (path : string)
    (w : W) :
  Inv w → Inv (Remote config repos path w).2.
Proof using All.
  intros Hw. unfold Remote. destruct (findRepoForImport _ _) as [repo|]; [|done].
  unfold fetchProto. destruct (url_Parse _) as [repoURL|e]; [|done].
  unfold chooseFetcher. destruct (String.eqb _ _).
  { pose proof (fetchWith_keeps githubFetcher repo repoURL path w
                  githubFetcher_keeps Hw) as H1.
    by destruct (fetchWith _ _ _ _ _) as [[res u1] w1]. }
  destruct (existsb _ _); [|done].
  pose proof (fetchWith_keeps bitBucketFetcher repo repoURL path w
                bitBucketFetcher_keeps Hw) as H1.
  by destruct (fetchWith _ _ _ _ _) as [[res u1] w1].
Qed.

(** A quiet operating system and the remote strategy make a stable
    setting for the engine. *)
Lemma Remote_stable (config : RemoteConfig) (repos : list Repo) (dest : string) :
  stable dest (Remote config repos) Inv.
Proof using All.
  split; intros.
  - by apply Remote_keeps.
  - by apply (calm_MkdirAll _ Hcalm).
  - by apply (calm_Create _ Hcalm).
  - by apply (calm_Copy _ Hcalm).
  - by apply (calm_Open _ Hcalm).
  - by apply (calm_Stat _ Hcalm).
  - by apply (calm_Walk _ Hcalm).
Qed.

End RemoteKeeps.

(** ** The remote strategy on the example disk *)

Section RemoteExample.

Lemma Sim_calm (locals : gmap string string) (web0 : gmap string (Z * string)) :
  calm (os := Sim.disk_sys locals) (λ d, Sim.web d = web0).
Proof. by split; intros; cbn. Qed.

Lemma substring_whole (x : string) : String.substring 0 (String.length x) x = x.
Proof. induction x as [|ch x IH]; [done|]. simpl. by rewrite IH. Qed.

Lemma Sim_sprintf_raw (user project commit s : string) :
  Sim.sprintf "https://raw.githubusercontent.com/%s/%s/%s/%s"
    [user; project; commit; s]
  = "https://raw.githubusercontent.com/" +:+ user +:+ "/" +:+ project +:+ "/"
    +:+ commit +:+ "/" +:+ s.
Proof.
  change (String.append "https://raw.githubusercontent.com/"
            (user +:+ "/" +:+ (project +:+ "/" +:+ (commit +:+ "/" +:+ (s +:+ ""))))
          = "https://raw.githubusercontent.com/" +:+ user +:+ "/" +:+ project
            +:+ "/" +:+ commit +:+ "/" +:+ s).
  by rewrite append_empty_r.
Qed.

Lemma Sim_parse_raw (t : string) :
  Sim.parse_url ("https://raw.githubusercontent.com/" +:+ t)
  = inl (mkURL "https" None "raw.githubusercontent.com" ("/" +:+ t) "").
Proof.
  assert (∀ s, String.prefix "" s = true) as Hp by by intros [].
  unfold Sim.parse_url, Sim.after. unfold String.append. simpl.
  rewrite !substring_whole, !Hp. simpl. by rewrite ?substring_whole.
Qed.

(** Without git every clone fails. *)
Lemma Sim_cloner_fails (locals : gmap string string) (u : URL)
    (relPath commit : string) (d : Sim.Disk) :
  (cloner (lib := Sim.lib []) (os := Sim.disk_sys locals) u relPath commit d).1.1
  = None.
Proof.
  unfold cloner, gitClone, runInDir.
  cbn [os_UserCacheDir os_MkdirAll os_Stat os_MkdirTemp exec_Run os_RemoveAll
       Sim.disk_sys].
  by destruct (Sim.present locals d !! _).
Qed.

(** What githubFetcher asks for on the example disk. *)
Lemma Sim_githubFetcher (locals : gmap string string) (relSrc commit : string)
    (d : Sim.Disk) :
  let u := mkURL "https" None "github.com" "/org/repo.git" "" in
  githubFetcher (lib := Sim.lib []) (os := Sim.disk_sys locals) u relSrc commit d
  = let '(res, d1) :=
      httpGet (os := Sim.disk_sys locals)
        ("https://raw.githubusercontent.com/org/repo/" +:+ commit +:+ "/"
         +:+ relSrc) d in
    (res, u, d1).
Proof.
  intros u. unfold githubFetcher. cbn [Path set_Scheme u].
  set (parts := strings.Split1 _ _). vm_compute in parts. subst parts.
  cbn [length Nat.eqb negb nth fmt_Sprintf url_Parse url_String Sim.lib].
  rewrite Sim_sprintf_raw.
  change ("https://raw.githubusercontent.com/" +:+ "org" +:+ "/" +:+ "repo"
          +:+ "/" +:+ commit +:+ "/" +:+ relSrc)
    with ("https://raw.githubusercontent.com/"
          +:+ ("org/repo/" +:+ commit +:+ "/" +:+ relSrc)).
  rewrite Sim_parse_raw. unfold Sim.url_string.
  cbn [Scheme User Host Path RawQuery String.eqb].
  rewrite append_empty_r. reflexivity.
Qed.

(** With the pages [web0] on the web, the remote strategy over the one
    repository gives handles only for paths that have a page. *)
Lemma Sim_Remote_serves (web0 : gmap string (Z * string)) (U : gset string) :
  (∀ imp,
     is_Some (web0 !! ("https://raw.githubusercontent.com/org/repo/v1/" +:+ imp)) →
     imp ∈ U) →
  serves_in
    (Remote (lib := Sim.lib []) (os := Sim.disk_sys ∅) (mkRemoteConfig [])
       [mkRepo "https://github.com/org/repo.git" "" "g/" [] "v1"])
    (λ d, Sim.web d = web0) U.
Proof.
  intros Hpages imp d h d' Hinv. unfold Remote.
  change (findRepoForImport _ imp)
    with (if strings.HasPrefix imp "g/"
          then Some (mkRepo "https://github.com/org/repo.git" "" "g/" [] "v1")
          else None).
  destruct (strings.HasPrefix imp "g/") eqn:Hpre; [|done].
  destruct imp as [|ch imp]; [done|]. clear Hpre.
  unfold fetchProto. cbn [url_Parse Sim.lib Repo_URL].
  set (parsed := Sim.parse_url _). vm_compute in parsed. subst parsed.
  cbn [chooseFetcher Host String.eqb Ascii.eqb Bool.eqb]. unfold chooseFetcher.
  cbn [Host String.eqb Ascii.eqb Bool.eqb].
  unfold fetchWith. cbn [path_Join Sim.lib Root Commit CommitHash].
  change (Commit _) with "v1".
  change (Sim.join [""; String ch imp]) with (String ch imp).
  rewrite (Sim_githubFetcher ∅ (String ch imp) "v1" d). cbn zeta.
  unfold httpGet at 1. cbn [http_Get Sim.disk_sys]. rewrite Hinv.
  change ("https://raw.githubusercontent.com/org/repo/" +:+ "v1" +:+ "/"
          +:+ String ch imp)
    with ("https://raw.githubusercontent.com/org/repo/v1/" +:+ String ch imp).
  pose proof (Sim_cloner_fails ∅ (mkURL "https" None "github.com" "/org/repo.git" "")
                (String ch imp) "v1" d) as Hclone.
  destruct (web0 !! _) as [[code body]|] eqn:Hpage.
  - cbn [StatusCode Header Body]. destruct (_ || _).
    + cbn [errors.Is errors.Wrap errors.wraps].
      destruct (cloner _ _ _ _) as [[r [e|]] d1]; cbn [fst] in Hclone;
        subst r; cbn; destruct (_ || _); cbn; intros Heq; discriminate Heq.
    + change (Header_Get ∅ "Content-Type") with "".
      cbn [strings.HasPrefix String.prefix].
      intros _. apply Hpages. by rewrite Hpage.
  - cbn [StatusCode Header Body].
    destruct (_ || _) eqn:Hcode; [|by vm_compute in Hcode].
    cbn [errors.Is errors.Wrap errors.wraps].
    destruct (cloner _ _ _ _) as [[r [e|]] d1]; cbn [fst] in Hclone;
      subst r; cbn; destruct (_ || _); cbn; intros Heq; discriminate Heq.
Qed.

End RemoteExample.



(** On the example disk, a file of [locals] under [root] is found by
    os.Stat in every state. *)
Lemma Sim_always_local (locals : gmap string string) (root p c : string) :
  locals !! Sim.join [root; p] = Some c →
  always_local (lib := Sim.lib []) (os := Sim.disk_sys locals) [root] p.
Proof.
  intros Hl. exists root. split; [by left|]. intros d.
  cbn [os_Stat Sim.disk_sys fst filepath_Join Sim.lib]. unfold Sim.present.
  by rewrite (lookup_union_Some_l _ _ _ _ Hl).
Qed.

(** C4 (as amended). Let [p] be a path that is not among the explicit
    import sources of Sync, and [root] a local root such that every
    os.Stat of the file [p] under [root] that was made during the run
    found it. Then [p] is never handed to the resolver, is not a key of
    the resolved map, and is not in the list that Sync returns. The calls
    of os.Stat are those noted in the journal of the watched run, which
    returns what the plain run returns. *)
Theorem local_import_not_dispatched {lib : GoLib} {W : Type} {os : Sys W}
    (fuel : nat) (resolve : Resolver W) (dest : string) (sources : list string)
    (w : W) (synced : option (list string)) (err : error)
    (st' : state (W * Journal)) (p root : string) :
  p ∉ List.filter isProto sources →
  root ∈ List.filter (λ src, negb (isProto src)) sources →
  Sync (os := watched os) fuel (watched_resolver resolve) dest sources
    (w, no_journal) = Some ((synced, err), st') →
  never_missed (filepath_Join [root; p]) (journal st') →
  Sync (os := os) fuel resolve dest sources w = Some ((synced, err), erase st') ∧
  (∀ out, Fetch p out ∉ trace (erase st')) ∧
  resolved (erase st') !! p = None ∧
  (∀ l, synced = Some l → p ∉ l).
Proof.
  intros Hsrc Hroot Hrun Hnm.
  pose proof (Sync_simulates fuel resolve dest sources w no_journal) as Hsim.
  rewrite Hrun in Hsim. split; [done|].
  pose proof (Sync_Watched fuel resolve dest sources w synced err st' p Hrun)
    as (_ & _ & Hsh).
  destruct (Hsh Hsrc) as [Hf Hr].
  { by exists root. }
  { split; [apply not_elem_of_nil|apply lookup_empty]. }
  apply Sync_Post in Hrun as [_ ->].
  split; [|split; [done|]].
  - intros out Hin. apply Hf, elem_of_fetches. by exists out.
  - intros l Hl. destruct err; [done|]. injection Hl as <-.
    rewrite elem_of_keys. cbn [erase resolved] in Hr. rewrite Hr. by intros [].
Qed.

Lemma local_import_not_dispatched_witness :
  let m : gmap string string :=
    list_to_map [("a.proto", "x/y.proto"); ("x/y.proto", "")] in
  let d := Sim.mkDisk (list_to_map [("root/x/y.proto", "")]) ∅ in
  ∃ st',
    Sync (lib := Sim.lib []) (os := watched (Sim.disk_sys ∅)) 3
      (watched_resolver (Sim.serve m)) "out" ["a.proto"; "root"] (d, no_journal)
      = Some ((Some ["a.proto"], None), st') ∧
    stats (journal st') = [("root/x/y.proto", true)] ∧
    Sync (lib := Sim.lib []) (os := Sim.disk_sys ∅) 3 (Sim.serve m) "out"
      ["a.proto"; "root"] d
      = Some ((Some ["a.proto"], None), erase st') ∧
    ∀ out, Fetch "x/y.proto" out ∉ trace (erase st').
Proof.
  intros m d.
  destruct (Sync (lib := Sim.lib []) (os := watched (Sim.disk_sys ∅)) 3
              (watched_resolver (Sim.serve m)) "out" ["a.proto"; "root"]
              (d, no_journal))
    as [[[synced err] st']|] eqn:Hrun; [|by vm_compute in Hrun].
  assert ("x/y.proto" ∉ List.filter isProto ["a.proto"; "root"]) as Hsrc.
  { intros Hin%list_elem_of_In. vm_compute in Hin.
    destruct Hin as [Heq|[]]. discriminate Heq. }
  assert ("root" ∈ List.filter (λ src, negb (isProto src)) ["a.proto"; "root"])
    as Hroot by (apply list_elem_of_In; vm_compute; tauto).
  assert (never_missed (filepath_Join (GoLib := Sim.lib []) ["root"; "x/y.proto"])
            (journal st')) as Hnm.
  { pose proof Hrun as Hc. vm_compute in Hc. injection Hc as _ _ <-.
    intros ok Hin%list_elem_of_In. vm_compute in Hin.
    destruct Hin as [Heq|[]]. by injection Heq as <-. }
  destruct (local_import_not_dispatched (lib := Sim.lib []) _ _ _ _ _ _ _ _ _ _
              Hsrc Hroot Hrun Hnm) as (Hplain & Hf & _).
  exists st'.
  assert (stats (journal st') = [("root/x/y.proto", true)]) as Hstats.
  { pose proof Hrun as Hc. vm_compute in Hc. injection Hc as _ _ <-.
    reflexivity. }
  assert (synced = Some ["a.proto"] ∧ err = None) as [-> ->].
  { pose proof Hrun as Hc. vm_compute in Hc. injection Hc as <- <- _.
    split; reflexivity. }
  split; [reflexivity|]. split; [exact Hstats|]. split; [exact Hplain|exact Hf].
Defined.

(** C4 as the claim states it does not hold: an explicit import source is
    handed to the resolver, recorded and returned although os.Stat finds
    it under a local root in every state of the world. *)
Lemma local_import_counterexample :
  let m : gmap string string := list_to_map [("x/y.proto", "")] in
  let locals : gmap string string := list_to_map [("root/x/y.proto", "")] in
  always_local (lib := Sim.lib []) (os := Sim.disk_sys locals)
    ["root"] "x/y.proto" ∧
  ∃ st',
    Sync (lib := Sim.lib []) (os := Sim.disk_sys locals) 3 (Sim.serve m) "out"
      ["x/y.proto"; "root"] (Sim.mkDisk ∅ ∅)
      = Some ((Some ["x/y.proto"], None), st') ∧
    Fetch "x/y.proto" Found ∈ trace st' ∧
    resolved st' !! "x/y.proto" = Some true.
Proof.
  intros m locals. split.
  { apply (Sim_always_local locals "root" "x/y.proto" "").
    vm_compute. reflexivity. }
  eexists. split; [vm_compute; reflexivity|].
  split; [apply list_elem_of_In; vm_compute; tauto|vm_compute; reflexivity].
Qed.

(** * Further properties of the code *)

(** ** Further properties of the resolver chain and the remote strategy *)

Lemma findRepoForImport_step (repo : Repo) (rest : list Repo) (path : string) :
  findRepoForImport (repo :: rest) path
  = if repoMatches repo path then Some repo else findRepoForImport rest path.
Proof.
  unfold repoMatches. simpl.
  destruct (negb _ && _); [done|]. by destruct (existsb _ _).
Qed.

(** X1. findRepoForImport gives the first descriptor of the list that
    matches the path (its prefix is not empty and starts the path, or the
    path is one of its protos): no descriptor before it matches. It gives
    nil exactly when no descriptor of the list matches. *)
Theorem findRepoForImport_first_match (repos : list Repo) (path : string) :
  match findRepoForImport repos path with
  | Some repo =>
      ∃ pre post, repos = pre ++ repo :: post ∧
        Forall (λ r, repoMatches r path = false) pre ∧
        repoMatches repo path = true
  | None => Forall (λ r, repoMatches r path = false) repos
  end.
Proof.
  induction repos as [|repo rest IH]; [by constructor|].
  rewrite findRepoForImport_step.
  destruct (repoMatches repo path) eqn:Hm.
  - exists [], rest. by repeat split.
  - destruct (findRepoForImport rest path) as [found|].
    + destruct IH as (pre & post & -> & Hpre & Hfound).
      exists (repo :: pre), post. repeat split; [|done]. by constructor.
    + by constructor.
Qed.

Lemma Combine_app {W : Type} (a b : list (Resolver W)) (path : string) (w : W) :
  Combine (a ++ b) path w
  = let '((r, err), w1) := Combine a path w in
    match err, r with
    | None, None => Combine b path w1
    | _, _ => ((r, err), w1)
    end.
Proof.
  revert w. induction a as [|resolve rest IH]; intros w; simpl; [done|].
  destruct (resolve path w) as [[r err] w1].
  destruct err as [e|]; [done|]. destruct r as [h|]; [done|]. apply IH.
Qed.

(** X7. Combine never returns a handle together with an error: its answer
    is not-found, a handle alone or an error alone, whatever the strategies
    return. *)
Theorem Combine_one_outcome {W : Type} (resolvers : list (Resolver W))
    (path : string) (w : W) :
  (Combine resolvers path w).1 = (None, None) ∨
  decided (Combine resolvers path w).1.
Proof.
  revert w. induction resolvers as [|resolve rest IH]; intros w; simpl.
  - by left.
  - destruct (resolve path w) as [[r err] w1].
    destruct err as [e|]; [right; right; by exists e|].
    destruct r as [h|]; [right; left; by exists h|]. apply IH.
Qed.

(** X8. Chains nest: a chain of chains answers as the one chain of all
    their strategies in order, with the same effects on the world. *)
Theorem Combine_flatten {W : Type} (chains : list (list (Resolver W)))
    (path : string) (w : W) :
  Combine (map Combine chains) path w = Combine (concat chains) path w.
Proof.
  revert w. induction chains as [|chain rest IH]; intros w; [done|].
  cbn [map concat]. rewrite Combine_app. cbn [Combine].
  destruct (Combine chain path w) as [[r err] w1] eqn:Hc.
  destruct err as [e|].
  - destruct (Combine_one_outcome chain path w) as [Hn|[[h Hh]|[e' He]]];
      rewrite Hc in *; simpl in *; congruence.
  - destruct r as [h|]; [done|]. apply IH.
Qed.

Section RemoteShape.
Context {lib : GoLib} {W : Type} {os : Sys W}.

Lemma decided_handle h : decided (Some h, None).
Proof. left. by exists h. Qed.

Lemma decided_error e : decided (None, Some e).
Proof. right. by exists e. Qed.

Lemma httpGet_decided (srcURL : string) (w : W) : decided (httpGet srcURL w).1.
Proof.
  unfold httpGet. destruct (http_Get srcURL w) as [[resp|e] w1]; simpl.
  - destruct (_ || _); [apply decided_error|].
    destruct (strings.HasPrefix _ _); [apply decided_error|apply decided_handle].
  - apply decided_error.
Qed.

Lemma githubFetcher_decided (u : URL) (relSrc commit : string) (w : W) :
  decided (githubFetcher u relSrc commit w).1.1.
Proof.
  unfold githubFetcher. destruct (negb _); [apply decided_error|].
  destruct (url_Parse _) as [u'|e]; [|apply decided_error].
  pose proof (httpGet_decided (url_String u') w) as Hd.
  by destruct (httpGet _ _).
Qed.

Lemma bitBucketFetcher_decided (u : URL) (relSrc commit : string) (w : W) :
  decided (bitBucketFetcher u relSrc commit w).1.1.
Proof.
  unfold bitBucketFetcher. destruct (_ || _); [apply decided_error|].
  match goal with |- context [httpGet ?x w] =>
    pose proof (httpGet_decided x w) as Hd; by destruct (httpGet x w) end.
Qed.

Lemma cloner_decided (u : URL) (relPath commit : string) (w : W) :
  decided (cloner u relPath commit w).1.
Proof.
  unfold cloner.
  destruct (os_UserCacheDir w) as [[cacheDir [e|]] w1]; [apply decided_error|].
  destruct (os_MkdirAll _ _) as [[e|] w2]; [apply decided_error|].
  destruct (gitClone _ _ _) as [[e|] w3]; [apply decided_error|].
  destruct (runInDir _ _ _ _) as [[e|] w4]; [apply decided_error|].
  destruct (os_Open _ _) as [[f|e] w5]; [apply decided_handle|apply decided_error].
Qed.

Lemma fetchWith_decided (fetcher : fetcherFunc W) (repo : Repo) (repoURL : URL)
    (proto : string) (w : W) :
  (∀ u s c v, decided (fetcher u s c v).1.1) →
  decided (fetchWith fetcher repo repoURL proto w).1.1.
Proof.
  intros Hf. unfold fetchWith.
  pose proof (Hf repoURL (path_Join [Root repo; proto]) (Commit repo) w) as Hd.
  destruct (fetcher _ _ _ _) as [[[r err] u1] w1]. simpl in Hd.
  destruct Hd as [[h [= -> ->]]|[e [= -> ->]]]; simpl; [apply decided_handle|].
  destruct (errors.wraps e errNotFound); [|apply decided_error].
  pose proof (cloner_decided u1 (path_Join [Root repo; proto]) (Commit repo) w1) as Hd.
  destruct (cloner _ _ _ _) as [[r2 err2] w2]. simpl in Hd.
  destruct Hd as [[h [= -> ->]]|[e2 [= -> ->]]]; simpl;
    [apply decided_handle|apply decided_error].
Qed.

Lemma fetchProto_decided (config : RemoteConfig) (repo : Repo) (proto : string)
    (w : W) :
  decided (fetchProto config repo proto w).1.
Proof.
  unfold fetchProto. destruct (url_Parse _) as [repoURL|e]; [|apply decided_error].
  unfold chooseFetcher. destruct (String.eqb _ _).
  { pose proof (fetchWith_decided githubFetcher repo repoURL proto w
                  githubFetcher_decided) as Hd.
    by destruct (fetchWith _ _ _ _ _) as [[res u1] w1]. }
  destruct (existsb _ _); [|apply decided_error].
  pose proof (fetchWith_decided bitBucketFetcher repo repoURL proto w
                bitBucketFetcher_decided) as Hd.
  by destruct (fetchWith _ _ _ _ _) as [[res u1] w1].
Qed.

End RemoteShape.

(** X2. Remote answers not-found, without touching the world, for a path
    that no descriptor matches. For a path that a descriptor matches its
    answer is the one of fetchProto for the first such descriptor, and it
    is a handle or an error, never not-found: a chain does not go on to a
    later strategy for a path that a configured repository claims. *)
Theorem Remote_decides_matched_paths {lib : GoLib} {W : Type} {os : Sys W}
    (config : RemoteConfig) (repos : list Repo) (path : string) (w : W) :
  match findRepoForImport repos path with
  | None => Remote config repos path w = ((None, None), w)
  | Some repo =>
      Remote config repos path w = fetchProto config repo path w ∧
      decided (Remote config repos path w).1
  end.
Proof.
  unfold Remote. destruct (findRepoForImport repos path) as [repo|]; [|done].
  split; [done|apply fetchProto_decided].
Qed.

(** X3. fetchProto fails before any request when the repository URL does
    not parse (the parse error, with a stack) or when its host is neither
    github.com nor one of the configured Bitbucket servers (unsupported
    repository source, naming the URL); the world is as it was. *)
Theorem fetchProto_config_errors {lib : GoLib} {W : Type} {os : Sys W}
    (config : RemoteConfig) (repo : Repo) (proto : string) (w : W)
    (parsed : URL + error_value) :
  url_Parse (Repo_URL repo) = parsed →
  match parsed with
  | inr e => fetchProto config repo proto w = ((None, Some (EWithStack e)), w)
  | inl u =>
      Host u ≠ "github.com" →
      Host u ∉ BitbucketServers config →
      fetchProto config repo proto w
        = ((None, Some (EWithStack (EErrorf "unsupported repository source %q"
                                      [Repo_URL repo]))), w)
  end.
Proof.
  intros Hparse. unfold fetchProto. rewrite Hparse.
  destruct parsed as [u|e]; [|done].
  intros Hgh Hbb. unfold chooseFetcher.
  rewrite (proj2 (String.eqb_neq _ _) Hgh).
  destruct (existsb _ _) eqn:Hex; [|done].
  apply existsb_exists in Hex as (server & Hin & Heq).
  apply String.eqb_eq in Heq as <-. by apply list_elem_of_In in Hin.
Qed.

Lemma fetchProto_config_errors_witness :
  let repo := mkRepo "https://gitlab.com/org/repo.git" "" "org/" [] "" in
  let d := Sim.mkDisk ∅ ∅ in
  fetchProto (lib := Sim.lib []) (os := Sim.disk_sys ∅)
    (mkRemoteConfig ["bitbucket.example.org"]) repo "org/a.proto" d
  = ((None, Some (EWithStack (EErrorf "unsupported repository source %q"
                                ["https://gitlab.com/org/repo.git"]))), d).
Proof.
  intros repo d.
  apply (fetchProto_config_errors (lib := Sim.lib []) (os := Sim.disk_sys ∅)
           (mkRemoteConfig ["bitbucket.example.org"]) repo "org/a.proto" d
           (inl (mkURL "https" None "gitlab.com" "/org/repo.git" "")) eq_refl).
  - discriminate.
  - intros Hin%list_elem_of_In. vm_compute in Hin. destruct Hin as [Heq|[]].
    discriminate Heq.
Defined.

(** X4. When the transport chosen for the repository answers with a handle,
    or with an error that is not the not-found sentinel, fetchProto returns
    that handle, or that error wrapped with the repository URL, in the
    world the transport left: cloner is not run. The error is then still
    not the sentinel. *)
Theorem fetchProto_clones_only_after_not_found {lib : GoLib} {W : Type}
    {os : Sys W} (config : RemoteConfig) (repo : Repo) (proto : string)
    (repoURL u1 : URL) (fetcher : fetcherFunc W)
    (r : option Handle) (err : error) (w w1 : W) :
  url_Parse (Repo_URL repo) = inl repoURL →
  chooseFetcher config repo repoURL = (Some fetcher, None) →
  fetcher repoURL (path_Join [Root repo; proto]) (Commit repo) w
    = (((r, err), u1), w1) →
  errors.Is err errNotFound = false →
  fetchProto config repo proto w
    = (match err with
       | Some e => (None, Some (EWrap e (Repo_URL repo)))
       | None => (r, None)
       end, w1) ∧
  errors.Is (fetchProto config repo proto w).1.2 errNotFound = false.
Proof.
  intros Hparse Hchoose Hfetch Hnf.
  unfold fetchProto, fetchWith. rewrite Hparse, Hchoose, Hfetch, Hnf.
  destruct err as [e|]; simpl; [|done].
  split; [done|]. simpl in Hnf. by rewrite Hnf.
Qed.

Lemma fetchProto_clones_only_after_not_found_witness :
  let repo := mkRepo "https://github.com/org/repo.git" "src" "google/" [] "v1" in
  let d := Sim.mkDisk ∅ (list_to_map
    [("https://raw.githubusercontent.com/org/repo/v1/src/google/a.proto",
      (200%Z, "syntax"))]) in
  fetchProto (lib := Sim.lib []) (os := Sim.disk_sys ∅) (mkRemoteConfig [])
    repo "google/a.proto" d
  = ((Some {| Name := "https://raw.githubusercontent.com/org/repo/v1/src/google/a.proto";
              Content := "syntax" |}, None), d).
Proof.
  intros repo d.
  pose (u := mkURL "https" None "github.com" "/org/repo.git" "").
  pose proof (fetchProto_clones_only_after_not_found (lib := Sim.lib [])
                (os := Sim.disk_sys ∅) (mkRemoteConfig []) repo "google/a.proto"
                u u (githubFetcher (lib := Sim.lib []) (os := Sim.disk_sys ∅))
                _ None d d eq_refl eq_refl eq_refl eq_refl) as [Hrun _].
  exact Hrun.
Defined.





(** ** The local strategy and the source globs *)

Section LocalFacts.
Context {lib : GoLib} {W : Type} {os : Sys W} {gl : Globber W}.

Lemma Local_roots_decided (roots : list string) (path : string) (w : W) out w' :
  local.Local_roots roots path w = (Some out, w') → decided out.
Proof.
  revert w. induction roots as [|root rest IH]; intros w; simpl; [done|].
  destruct (os_Open _ w) as [[f|e] w1].
  - intros [= <- <-]. left. by exists f.
  - destruct (os_IsNotExist e); [apply IH|].
    intros [= <- <-]. right. by eexists.
Qed.

Lemma Local_roots_absent (path : string) (roots : list string) (w w' : W) :
  local.AllAbsent path roots w w' →
  ∀ rest, local.Local_roots (roots ++ rest) path w = local.Local_roots rest path w'.
Proof.
  induction 1 as [|root roots w e w1 w' Hopen Hne _ IH]; intros rest; [done|].
  simpl. by rewrite Hopen, Hne.
Qed.

End LocalFacts.

(** X9. Local over a list of include patterns is the chain (Combine) of
    the Local strategies of each pattern alone, in order. *)
Theorem Local_is_chain_of_includes {lib : GoLib} {W : Type} {os : Sys W}
    {gl : Globber W} (includes : list string) (path : string) (w : W) :
  local.Local includes path w
  = Combine (map (λ include, local.Local [include]) includes) path w.
Proof.
  revert w. induction includes as [|include rest IH]; intros w; [done|].
  cbn [map Combine local.Local].
  destruct (filepath_Glob include w) as [[roots [e|]] w1]; [done|].
  destruct (local.Local_roots roots path w1) as [[out|] w2] eqn:Hroots.
  - apply Local_roots_decided in Hroots as [[h ->]|[e ->]]; done.
  - apply IH.
Qed.

(** X10. What Local does with its first include pattern. A malformed
    pattern is an error (with a stack) and the later patterns are not
    tried. Otherwise the directories the pattern expands to are tried in
    order: the first one where os.Open does not fail with a not-exist
    error decides, with the opened file or with that error (with a stack);
    when the file does not exist in any of them, Local goes on with the
    remaining patterns. *)
Theorem Local_include_outcomes {lib : GoLib} {W : Type} {os : Sys W}
    {gl : Globber W} (include : string) (rest : list string) (path : string)
    (w w1 : W) (roots : list string) (globErr : error) :
  filepath_Glob include w = ((roots, globErr), w1) →
  match globErr with
  | Some e =>
      local.Local (include :: rest) path w = ((None, Some (EWithStack e)), w1)
  | None =>
      (∀ pre root post w2 res w3,
         roots = pre ++ root :: post →
         local.AllAbsent path pre w1 w2 →
         os_Open (filepath_Join [root; path]) w2 = (res, w3) →
         (∀ e, res = inr e → os_IsNotExist e = false) →
         local.Local (include :: rest) path w
           = (match res with
              | inl f => (Some f, None)
              | inr e => (None, Some (EWithStack e))
              end, w3)) ∧
      (∀ w2, local.AllAbsent path roots w1 w2 →
         local.Local (include :: rest) path w = local.Local rest path w2)
  end.
Proof.
  intros Hglob. cbn [local.Local]. rewrite Hglob.
  destruct globErr as [e|]; [done|]. split.
  - intros pre root post w2 res w3 -> Hpre Hopen Hhard.
    rewrite (Local_roots_absent _ _ _ _ Hpre). simpl. rewrite Hopen.
    destruct res as [f|e]; [done|]. by rewrite (Hhard e eq_refl).
  - intros w2 Hall.
    pose proof (Local_roots_absent _ _ _ _ Hall []) as Hr.
    rewrite app_nil_r in Hr. by rewrite Hr.
Qed.

Lemma Local_include_outcomes_witness :
  let locals : gmap string string :=
    list_to_map [("vendor/x/y.proto", "syntax"); ("protos/a.proto", "")] in
  let d := Sim.mkDisk ∅ ∅ in
  local.Local (lib := Sim.lib []) (os := Sim.disk_sys locals)
    (gl := SimX.globber locals) ["protos"; "vendor"; "bad["] "x/y.proto" d
  = ((Some {| Name := "vendor/x/y.proto"; Content := "syntax" |}, None), d).
Proof.
  intros locals d.
  pose proof (Local_include_outcomes (lib := Sim.lib []) (os := Sim.disk_sys locals)
                (gl := SimX.globber locals) "protos" ["vendor"; "bad["]
                "x/y.proto" d d ["protos"] None) as Hfirst.
  destruct Hfirst as [_ Hnext]; [vm_compute; reflexivity|].
  rewrite (Hnext d).
  2:{ eapply local.absent_cons; [vm_compute; reflexivity|vm_compute; reflexivity|].
      constructor. }
  pose proof (Local_include_outcomes (lib := Sim.lib []) (os := Sim.disk_sys locals)
                (gl := SimX.globber locals) "vendor" ["bad["]
                "x/y.proto" d d ["vendor"] None) as Hsecond.
  destruct Hsecond as [Hhit _]; [vm_compute; reflexivity|].
  apply (Hhit [] "vendor" [] d
           (inl {| Name := "vendor/x/y.proto"; Content := "syntax" |}) d);
    [reflexivity|constructor|vm_compute; reflexivity|discriminate].
Defined.

(** ** The source globs of Config.Resolve *)

Section SourcesFacts.
Context {W : Type} {gl : Globber W}.

Lemma globSources_Globbed (srcs acc : list string) (w w' : W) results :
  config.Globbed srcs w results w' →
  config.globSources acc srcs w
  = ((Some (acc ++ concat (zip_with config.expand srcs results)), None), w').
Proof.
  intros Hg. revert acc. induction Hg as [w|source rest w matches w1 results w' Hglob _ IH];
    intros acc; simpl.
  - by rewrite app_nil_r.
  - rewrite Hglob. unfold config.expand at 1.
    destruct (Nat.eqb _ _); rewrite IH, <- app_assoc; done.
Qed.

Lemma globSources_stops (pre post acc : list string) (source : string)
    (w w1 w2 : W) results matches e :
  config.Globbed pre w results w1 →
  filepath_Glob source w1 = ((matches, Some e), w2) →
  config.globSources acc (pre ++ source :: post) w
  = ((None, Some (EWrap e source)), w2).
Proof.
  intros Hg Hglob. revert acc.
  induction Hg as [w|s rest w m w1 results w' Hs _ IH]; intros acc; simpl.
  - by rewrite Hglob.
  - rewrite Hs. destruct (Nat.eqb _ _); by rewrite IH.
Qed.

Lemma expand_length (source : string) (matches : list string) :
  (1 ≤ length (config.expand source matches))%nat.
Proof.
  unfold config.expand. destruct (Nat.eqb _ _) eqn:Hlen; [simpl; lia|].
  apply Nat.eqb_neq in Hlen. lia.
Qed.

Lemma Globbed_length (srcs : list string) (w w' : W) results :
  config.Globbed srcs w results w' →
  length results = length srcs ∧
  (length srcs ≤ length (concat (zip_with config.expand srcs results)))%nat.
Proof.
  induction 1 as [w|source rest w matches w1 results w' _ _ [IH1 IH2]]; [done|].
  simpl. rewrite length_app. pose proof (expand_length source matches).
  split; lia.
Qed.

End SourcesFacts.

(** X11. The source loop of Config.Resolve. When filepath.Glob gives
    matches without an error for every source in turn, Resolve returns
    the sources expanded in order: a source whose pattern matched nothing
    is in the list as written, the matches of the others are all in it,
    and the list is at least as long as the configured one. When
    filepath.Glob fails for a source after the ones before it were
    expanded, no list is returned and the error is that error wrapped with
    that source; the sources after it are not tried. *)
Theorem Resolve_keeps_every_source {W : Type} {gl : Globber W}
    (srcs : list string) (w : W) :
  (∀ results w',
     config.Globbed srcs w results w' →
     let out := concat (zip_with config.expand srcs results) in
     config.globSources [] srcs w = ((Some out, None), w') ∧
     (length srcs ≤ length out)%nat ∧
     (∀ i source matches,
        srcs !! i = Some source → results !! i = Some matches →
        if Nat.eqb (length matches) 0 then source ∈ out
        else ∀ m, m ∈ matches → m ∈ out)) ∧
  (∀ pre source post results w1 matches e w2,
     srcs = pre ++ source :: post →
     config.Globbed pre w results w1 →
     filepath_Glob source w1 = ((matches, Some e), w2) →
     config.globSources [] srcs w = ((None, Some (EWrap e source)), w2)).
Proof.
  split.
  - intros results w' Hg out. split; [by apply (globSources_Globbed srcs [])|].
    split; [by eapply Globbed_length|].
    intros i source matches Hsrc Hres.
    assert (∀ m, m ∈ config.expand source matches → m ∈ out) as Hin.
    { intros m Hm. apply list_elem_of_In, in_concat.
      exists (config.expand source matches).
      split; [|by apply list_elem_of_In]. apply list_elem_of_In.
      apply list_elem_of_lookup. exists i.
      by rewrite lookup_zip_with, Hsrc, Hres. }
    unfold config.expand in Hin. destruct (Nat.eqb _ _); [|done].
    apply Hin. by left.
  - intros pre source post results w1 matches e w2 -> Hg Hglob.
    by eapply globSources_stops.
Qed.

Lemma Resolve_keeps_every_source_witness :
  let locals : gmap string string := list_to_map [("protos/a.proto", "")] in
  let d := Sim.mkDisk ∅ ∅ in
  let out := ["google/api/http.proto"; "protos"] in
  config.globSources (gl := SimX.globber locals) []
    ["google/api/http.proto"; "protos"] d = ((Some out, None), d) ∧
  "google/api/http.proto" ∈ out ∧
  config.globSources (gl := SimX.globber locals) []
    ["protos"; "[a-"; "google/api/http.proto"] d
  = ((None, Some (EWrap (EExternal "syntax error in pattern") "[a-")), d).
Proof.
  intros locals d out.
  assert (config.Globbed (gl := SimX.globber locals)
            ["google/api/http.proto"; "protos"] d [[]; ["protos"]] d) as Hboth.
  { eapply config.globbed_cons; [by vm_compute|].
    eapply config.globbed_cons; [by vm_compute|]. constructor. }
  assert (config.Globbed (gl := SimX.globber locals) ["protos"] d [["protos"]] d)
    as Hfirst.
  { eapply config.globbed_cons; [by vm_compute|]. constructor. }
  destruct (Resolve_keeps_every_source (gl := SimX.globber locals)
              ["google/api/http.proto"; "protos"] d) as [Hok _].
  destruct (Hok _ _ Hboth) as (Hrun & _ & Hkept).
  split; [exact Hrun|]. split.
  - exact (Hkept 0 "google/api/http.proto" [] eq_refl eq_refl).
  - exact (proj2 (Resolve_keeps_every_source (gl := SimX.globber locals)
                    ["protos"; "[a-"; "google/api/http.proto"] d)
             ["protos"] "[a-" ["google/api/http.proto"] _ d [] _ d
             eq_refl Hfirst eq_refl).
Defined.

(** ** The archive strategy *)

Lemma findEntry_absent (files : list zip_File) (jar path : string) :
  Forall (λ f, File_Name f ≠ path) files → findEntry files jar path = (None, None).
Proof.
  induction 1 as [|file rest Hne _ IH]; simpl; [done|].
  by rewrite (proj2 (String.eqb_neq _ _) Hne).
Qed.

Lemma findEntry_first (pre post : list zip_File) (file : zip_File)
    (jar path : string) :
  Forall (λ f, File_Name f ≠ path) pre →
  File_Name file = path →
  findEntry (pre ++ file :: post) jar path
  = match File_Open file with
    | inl r => (Some {| Name := jar +:+ "#" +:+ path; Content := r |}, None)
    | inr e => (None, Some (EWrap e jar))
    end.
Proof.
  intros Hpre Hname. induction Hpre as [|f rest Hne _ IH]; simpl.
  - rewrite (proj2 (String.eqb_eq _ _) Hname). by destruct (File_Open file).
  - by rewrite (proj2 (String.eqb_neq _ _) Hne).
Qed.

(** X12. Once the archive is open, ArtifactoryJAR answers from it with no
    effect on the world or on what it holds: not-found when no entry has
    the name of the path, and otherwise the first entry with that name,
    as a handle named <jarPath>#<path>, or the error of opening the entry
    wrapped with the archive path. *)
Theorem ArtifactoryJAR_serves_open_archive {lib : GoLib} {W : Type}
    {os : Sys W} {ar : Archives W} (artifactoryURL jarURL : string)
    (repository : ArtifactoryRepositoryConfig) (path : string)
    (js : JarState) (z : zip_ReadCloser) (w : W) :
  zipFile js = Some z →
  ∃ res, ArtifactoryJAR artifactoryURL jarURL repository path (js, w)
         = (res, (js, w)) ∧
    (Forall (λ f, File_Name f ≠ path) (File z) → res = (None, None)) ∧
    (∀ pre file post,
       File z = pre ++ file :: post →
       Forall (λ f, File_Name f ≠ path) pre →
       File_Name file = path →
       res = match File_Open file with
             | inl r =>
                 (Some {| Name := jarPath js +:+ "#" +:+ path; Content := r |}, None)
             | inr e => (None, Some (EWrap e (jarPath js)))
             end).
Proof.
  intros Hz. unfold ArtifactoryJAR. rewrite Hz. eexists. split; [done|]. split.
  - apply findEntry_absent.
  - intros pre file post -> Hpre Hname. by apply findEntry_first.
Qed.

Lemma ArtifactoryJAR_serves_open_archive_witness :
  let z := SimX.unzip "a.proto=syntax;b/c.proto=package c;a.proto=other" in
  let js := mkJarState "/cache/protos-1.0.jar" (Some z) in
  let d := Sim.mkDisk ∅ ∅ in
  ArtifactoryJAR (lib := Sim.lib []) (os := Sim.disk_sys ∅)
    (ar := SimX.archives ∅) "https://repo" "https://repo"
    (mkArtifactoryRepositoryConfig "releases/protos" "1.0") "a.proto" (js, d)
  = ((Some {| Name := "/cache/protos-1.0.jar#a.proto"; Content := "syntax" |},
      None), (js, d)).
Proof.
  intros z js d.
  destruct (ArtifactoryJAR_serves_open_archive (lib := Sim.lib [])
              (os := Sim.disk_sys ∅) (ar := SimX.archives ∅)
              "https://repo" "https://repo"
              (mkArtifactoryRepositoryConfig "releases/protos" "1.0")
              "a.proto" js z d eq_refl) as (res & Hrun & _ & Hhit).
  rewrite Hrun. f_equal.
  apply (Hhit [] (mkZipFile "a.proto" (inl "syntax"))
           [mkZipFile "b/c.proto" (inl "package c");
            mkZipFile "a.proto" (inl "other")]); [reflexivity|constructor|reflexivity].
Defined.

(** X13. The first call of ArtifactoryJAR opens the archive. When that
    fails the call returns the error and the archive stays closed, so the
    next call tries again. When it succeeds the archive is kept, and every
    later call, for any path and in any world, is answered from it without
    another download. *)
Theorem ArtifactoryJAR_opens_once {lib : GoLib} {W : Type}
    {os : Sys W} {ar : Archives W} (artifactoryURL jarURL : string)
    (repository : ArtifactoryRepositoryConfig) (path : string)
    (js : JarState) (w w1 : W) (res : (string * zip_ReadCloser) + (string * error_value)) :
  zipFile js = None →
  openJAR artifactoryURL jarURL repository w = (res, w1) →
  match res with
  | inr (s, e) =>
      ArtifactoryJAR artifactoryURL jarURL repository path (js, w)
        = ((None, Some e), (mkJarState s None, w1))
  | inl (dest, z) =>
      ArtifactoryJAR artifactoryURL jarURL repository path (js, w)
        = (findEntry (File z) dest path, (mkJarState dest (Some z), w1)) ∧
      ∀ path' w2,
        ArtifactoryJAR artifactoryURL jarURL repository path'
          (mkJarState dest (Some z), w2)
          = (findEntry (File z) dest path', (mkJarState dest (Some z), w2))
  end.
Proof.
  intros Hnone Hopen. unfold ArtifactoryJAR. rewrite Hnone, Hopen.
  by destruct res as [[dest z]|[s e]].
Qed.

(** X14. With a pinned version and the file
    <cache>/<artifact>-<version>.jar present, openJAR makes no request: it
    opens that file as an archive and returns it with its path, or the
    error of opening it (with a stack). *)
Theorem openJAR_pinned_and_cached {lib : GoLib} {W : Type}
    {os : Sys W} {ar : Archives W} (artifactoryURL jarBaseURL : string)
    (repository : ArtifactoryRepositoryConfig) (cacheDir : string) (w w1 w2 : W) :
  Version repository ≠ "" →
  os_UserCacheDir w = ((cacheDir, None), w1) →
  let dest :=
    filepath_Join [cacheDir;
      fmt_Sprintf "%s-%s.jar"
        [filepath_Base (Repository_Path repository); Version repository]] in
  os_Stat dest w1 = (None, w2) →
  openJAR artifactoryURL jarBaseURL repository w
  = match zip_OpenReader dest w2 with
    | (inl z, w3) => (inl (dest, z), w3)
    | (inr e, w3) => (inr (dest, EWithStack e), w3)
    end.
Proof.
  intros Hpinned Hcache dest Hstat. unfold openJAR.
  rewrite Hcache, (proj2 (String.eqb_neq _ _) Hpinned). fold dest.
  rewrite Hstat. unfold openReader. by destruct (zip_OpenReader dest w2) as [[z|e] w3].
Qed.

Lemma ArtifactoryJAR_opens_once_witness :
  let locals : gmap string string :=
    list_to_map [("/cache/protos-1.0.jar", "a.proto=syntax")] in
  let repository := mkArtifactoryRepositoryConfig "releases/protos" "1.0" in
  let z := SimX.unzip "a.proto=syntax" in
  let d := Sim.mkDisk ∅ ∅ in
  ArtifactoryJAR (lib := Sim.lib []) (os := Sim.disk_sys locals)
    (ar := SimX.archives locals) "https://repo" "https://repo" repository
    "zz.proto" (mkJarState "" None, d)
  = ((None, None), (mkJarState "/cache/protos-1.0.jar" (Some z), d)).
Proof.
  intros locals repository z d.
  pose proof (ArtifactoryJAR_opens_once (lib := Sim.lib [])
                (os := Sim.disk_sys locals) (ar := SimX.archives locals)
                "https://repo" "https://repo" repository "zz.proto"
                (mkJarState "" None) d d
                (inl ("/cache/protos-1.0.jar", z)) eq_refl) as Hspec.
  destruct Hspec as [Hrun _]; [vm_compute; reflexivity|].
  rewrite Hrun. reflexivity.
Defined.

Lemma openJAR_pinned_and_cached_witness :
  let locals : gmap string string :=
    list_to_map [("/cache/protos-1.0.jar", "a.proto=syntax")] in
  let repository := mkArtifactoryRepositoryConfig "releases/protos" "1.0" in
  let d := Sim.mkDisk ∅ ∅ in
  openJAR (lib := Sim.lib []) (os := Sim.disk_sys locals)
    (ar := SimX.archives locals) "https://repo" "https://repo" repository d
  = (inl ("/cache/protos-1.0.jar", SimX.unzip "a.proto=syntax"), d).
Proof.
  intros locals repository d.
  rewrite (openJAR_pinned_and_cached (lib := Sim.lib [])
             (os := Sim.disk_sys locals) (ar := SimX.archives locals)
             "https://repo" "https://repo" repository "/cache" d d d);
    [vm_compute; reflexivity|discriminate|reflexivity|vm_compute; reflexivity].
Defined.

(** X15. With a pinned version and no cached file, openJAR requests
    <jarBaseURL>/<path>/<version>/<artifact>-<version>.jar, copies the body
    to a temporary file in the cache directory and renames it to the cache
    path before it opens it. The status of the response is not looked at:
    the body of an error page is stored under the cache path as well, and
    opening it as an archive is what fails. *)
Theorem openJAR_stores_any_response {lib : GoLib} {W : Type}
    {os : Sys W} {ar : Archives W} (artifactoryURL jarBaseURL : string)
    (repository : ArtifactoryRepositoryConfig) (cacheDir tmp : string)
    (statErr : error_value) (resp : Response) (w w1 w2 w3 w4 w5 w6 : W) :
  Version repository ≠ "" →
  os_UserCacheDir w = ((cacheDir, None), w1) →
  let artifactName := filepath_Base (Repository_Path repository) in
  let filename := fmt_Sprintf "%s-%s.jar" [artifactName; Version repository] in
  let dest := filepath_Join [cacheDir; filename] in
  os_Stat dest w1 = (Some statErr, w2) →
  http_Get (fmt_Sprintf "%s/%s/%s/%s"
              [jarBaseURL; Repository_Path repository; Version repository; filename])
    w2 = (inl resp, w3) →
  ioutil_TempFile cacheDir (artifactName +:+ "-*.jar") w3 = ((tmp, None), w4) →
  io_Copy tmp (Body resp) w4 = (None, w5) →
  os_Rename tmp dest w5 = (None, w6) →
  openJAR artifactoryURL jarBaseURL repository w
  = match zip_OpenReader dest w6 with
    | (inl z, w7) => (inl (dest, z), w7)
    | (inr e, w7) => (inr (dest, EWithStack e), w7)
    end.
Proof.
  intros Hpinned Hcache artifactName filename dest Hstat Hget Htmp Hcopy Hmove.
  unfold openJAR.
  rewrite Hcache, (proj2 (String.eqb_neq _ _) Hpinned).
  fold artifactName. fold filename. fold dest.
  rewrite Hstat, Hget, Htmp, Hcopy, Hmove.
  unfold openReader. by destruct (zip_OpenReader dest w6) as [[z|e] w7].
Qed.

Lemma openJAR_stores_any_response_witness :
  let repository := mkArtifactoryRepositoryConfig "releases/protos" "1.0" in
  let d := Sim.mkDisk ∅ ∅ in
  ∃ d',
    openJAR (lib := Sim.lib []) (os := SimX.disk_sys ∅)
      (ar := SimX.archives ∅) "https://repo" "https://repo" repository d
    = (inr ("/cache/protos-1.0.jar",
            EWithStack (EExternal "zip: not a valid zip file")), d') ∧
    Sim.files d' !! "/cache/protos-1.0.jar" = Some "404: Not Found".
Proof.
  intros repository d.
  pose (d4 := Sim.mkDisk (list_to_map [("/cache/protos-*.jar", "")]) ∅).
  pose (d5 := Sim.mkDisk (list_to_map [("/cache/protos-*.jar", "404: Not Found")]) ∅).
  pose (d6 := Sim.mkDisk (list_to_map [("/cache/protos-1.0.jar", "404: Not Found")]) ∅).
  exists d6.
  rewrite (openJAR_stores_any_response (lib := Sim.lib [])
             (os := SimX.disk_sys ∅) (ar := SimX.archives ∅)
             "https://repo" "https://repo" repository "/cache"
             "/cache/protos-*.jar" Sim.no_such_file
             (mkResponse 404 ∅ "404: Not Found") d d d d d4 d5 d6);
    [split; vm_compute; reflexivity|discriminate|reflexivity
    |vm_compute; reflexivity..].
Defined.

(** ** Errors of the version probe *)

Section ProbeErrors.

Lemma DecodeElement_error depth data dec v e rest :
  DecodeElement depth data dec = ((v, Some e), rest) → v = "".
Proof.
  revert depth data. induction dec as [|item dec IH]; intros depth data.
  - by intros [= <- _ _].
  - destruct item as [t|e']; [|by intros [= <- _ _]].
    destruct depth, t; cbn [DecodeElement]; try apply IH. intros [=].
Qed.

Lemma latestLoop_error dec v e rest :
  latestLoop dec = ((v, Some e), rest) → v = "".
Proof.
  induction dec as [|item dec IH]; [by intros [= <- _ _]|].
  destruct item as [t|e']; [|by intros [= <- _ _]].
  destruct t as [name attr| | | | |]; cbn [latestLoop]; try apply IH.
  destruct (String.eqb _ _); [apply DecodeElement_error|apply IH].
Qed.

End ProbeErrors.

(** X16. syncJARMetadata never returns a version together with an error:
    whenever it gives an error, the version is the empty string, also when
    character data of the latest element had already been read. *)
Theorem syncJARMetadata_no_version_with_error {lib : GoLib} {W : Type}
    {os : Sys W} (artifactoryURL repositoryPath : string) (w w' : W)
    (version : string) (e : error_value) :
  syncJARMetadata artifactoryURL repositoryPath w = ((version, Some e), w') →
  version = "".
Proof.
  unfold syncJARMetadata. destruct (http_Get _ w) as [[resp|err] w1].
  - destruct (latestLoop _) as [[v err] rest] eqn:Hloop. cbn [fst].
    intros [= -> -> _]. by eapply latestLoop_error.
  - by intros [= <- _ _].
Qed.

(** X17. A decoding error met before any latest element is returned with
    a stack; a decoding error met inside the latest element, after
    well-formed content, is returned as the decoder gave it. Both come
    with the empty version. *)
Theorem syncJARMetadata_error_wrapping {lib : GoLib} {W : Type} {os : Sys W}
    (artifactoryURL repositoryPath : string) (w w' : W) (resp : Response)
    (pre : list xml_Item) (e : error_value) (rest : list xml_Item) :
  http_Get (fmt_Sprintf "%s/%s/maven-metadata.xml" [artifactoryURL; repositoryPath]) w
    = (inl resp, w') →
  Forall not_latest pre →
  (xml_NewDecoder (Body resp) = pre ++ XErr e :: rest →
   syncJARMetadata artifactoryURL repositoryPath w
   = (("", Some (EWithStack e)), w')) ∧
  (∀ name attr body v,
     Local name = "latest" → ElementContent body v →
     xml_NewDecoder (Body resp)
       = pre ++ XTok (StartElement name attr) :: map XTok body ++ XErr e :: rest →
     syncJARMetadata artifactoryURL repositoryPath w = (("", Some e), w')).
Proof.
  intros Hget Hpre. split.
  - intros Hdec. unfold syncJARMetadata.
    by rewrite Hget, Hdec, latestLoop_skip.
  - intros name attr body v Hname Hbody Hdec. unfold syncJARMetadata.
    rewrite Hget, Hdec, latestLoop_skip by done. cbn [latestLoop].
    rewrite Hname. cbn [String.eqb Ascii.eqb Bool.eqb].
    by rewrite (DecodeElement_content _ _ _ _ Hbody).
Qed.

Lemma syncJARMetadata_no_version_with_error_witness :
  let latest := mkName "" "latest" in
  let dec := [XTok (StartElement latest []); XTok (CharData "1.4");
              XErr (EExternal "XML syntax error")] in
  let d := Sim.mkDisk ∅ ∅ in
  syncJARMetadata (lib := Sim.lib dec) (os := Sim.disk_sys ∅) "https://repo" "protos" d
    = (("", Some (EExternal "XML syntax error")), d).
Proof.
  intros latest dec d.
  destruct (syncJARMetadata (lib := Sim.lib dec) (os := Sim.disk_sys ∅)
              "https://repo" "protos" d) as [[version err] d'] eqn:Hrun.
  destruct err as [e|]; [|by vm_compute in Hrun].
  pose proof (syncJARMetadata_no_version_with_error (lib := Sim.lib dec)
                (os := Sim.disk_sys ∅) _ _ _ _ _ _ Hrun) as ->.
  vm_compute in Hrun. by injection Hrun as <- <-.
Defined.

Lemma syncJARMetadata_error_wrapping_witness :
  let latest := mkName "" "latest" in
  let e := EExternal "XML syntax error" in
  let pre := [XTok (StartElement (mkName "" "metadata") [])] in
  let early := pre ++ [XErr e] in
  let late := pre ++ XTok (StartElement latest []) :: map XTok [CharData "1.4"]
                ++ [XErr e] in
  let d := Sim.mkDisk ∅ ∅ in
  syncJARMetadata (lib := Sim.lib early) (os := Sim.disk_sys ∅) "https://repo" "protos" d
    = (("", Some (EWithStack e)), d) ∧
  syncJARMetadata (lib := Sim.lib late) (os := Sim.disk_sys ∅) "https://repo" "protos" d
    = (("", Some e), d).
Proof.
  intros latest e pre early late d.
  assert (Hpre : Forall not_latest pre).
  { repeat constructor. simpl. discriminate. }
  assert (Hbody : ElementContent [CharData "1.4"] "1.4")
    by apply (content_data "1.4" [] "" content_end).
  split.
  - exact (proj1 (syncJARMetadata_error_wrapping (lib := Sim.lib early)
                    (os := Sim.disk_sys ∅) "https://repo" "protos" d d _ pre e []
                    eq_refl Hpre) eq_refl).
  - exact (proj2 (syncJARMetadata_error_wrapping (lib := Sim.lib late)
                    (os := Sim.disk_sys ∅) "https://repo" "protos" d d _ pre e []
                    eq_refl Hpre) latest [] _ _ eq_refl Hbody eq_refl).
Defined.

(** ** The phases of Sync and the files it names *)

Section PhaseFacts.
Context {lib : GoLib} {W : Type} {os : Sys W}.
Implicit Types (st : state W) (ctx : context W) (r : error).

Lemma keeps_refl dest st : keeps dest st st.
Proof. split; [by intros p ?|done]. Qed.

Lemma keeps_trans dest st1 st2 st3 :
  keeps dest st1 st2 → keeps dest st2 st3 → keeps dest st1 st3.
Proof. intros [Hg1 Hf1] [Hg2 Hf2]. split; [intros p ?|]; auto. Qed.

(** A step that changes the world, may mark [imp] and may add sound
    events. *)
Lemma keeps_step dest st (w : W) res evs :
  (res = resolved st ∨ ∃ imp, res = <[imp:=true]> (resolved st)) →
  Forall (event_ok dest) evs →
  keeps dest st (mkState w res (trace st ++ evs)).
Proof.
  intros Hres Hevs. split.
  - intros p Hp. cbn [resolved]. destruct Hres as [->|[imp ->]]; [done|].
    rewrite lookup_insert_is_Some. destruct (decide (imp = p)); auto.
  - intros Htr. cbn [trace]. by apply Forall_app.
Qed.

Lemma no_local_app tr evs :
  no_local tr → (∀ path, OpenLocal path ∉ evs) → no_local (tr ++ evs).
Proof. intros Htr Hevs path [?|?]%elem_of_app; [by eapply Htr|by eapply Hevs]. Qed.

Lemma importLoop_phase recur ctx entries :
  phase_spec (dest ctx) recur →
  ∀ st r st', importLoop recur ctx entries st = Some (r, st') →
    keeps (dest ctx) st st' ∧ (no_local (trace st) → no_local (trace st')).
Proof.
  intros Hrec. induction entries as [|stmt rest IH]; intros st r st'; simpl.
  - intros [= <- <-]. split; [apply keeps_refl|done].
  - destruct (negb _); [by apply IH|].
    destruct (String.eqb (Import stmt) ""); [by apply IH|].
    unfold mbind, M_bind, sys.
    destruct (isLocal _ _ _) as [[] w1]; simpl.
    + intros Hrun. apply IH in Hrun. exact Hrun.
    + destruct (recur _ _) as [[[e|] st1]|] eqn:Hr; [| |done];
        apply Hrec in Hr as (Hk & _ & Hn).
      * by intros [= <- <-].
      * intros Hrun. apply IH in Hrun as [Hk' Hn'].
        split; [by eapply keeps_trans|auto].
Qed.

Lemma recursiveResolve_phase fuel ctx :
  phase_spec (dest ctx) (recursiveResolve fuel ctx).
Proof.
  induction fuel as [|fuel IH]; intros imp st r st'; [done|].
  cbn [recursiveResolve]. unfold mbind, M_bind, is_resolved.
  destruct (default false (resolved st !! imp)) eqn:Hdef.
  { intros [= <- <-]. split; [apply keeps_refl|]. split; [|done].
    intros _. destruct (resolved st !! imp); [by eexists|done]. }
  unfold sys at 1;
    destruct (resolve ctx imp (world st)) as [[h err] w1];
    unfold emit at 1; cbn [world resolved trace];
    set (destFile := filepath_Join [dest ctx; imp]);
    (destruct err as [e|]; [|destruct h as [h|]]);
    [intros [= <- <-]; split; [by apply keeps_step; [left|repeat constructor]|];
     split; [done|intros Hn; apply no_local_app; [done|];
                  by intros path [=]%list_elem_of_singleton]
    |
    |intros [= <- <-]; split; [by apply keeps_step; [left|repeat constructor]|];
     split; [done|intros Hn; apply no_local_app; [done|];
                  by intros path [=]%list_elem_of_singleton]].
  unfold mark_resolved, sys at 1; cbn [world resolved trace outcome_of].
  assert (∀ (w : W) evs,
         Forall (event_ok (dest ctx)) evs → (∀ path, OpenLocal path ∉ evs) →
         ∀ e : error_value, keeps (dest ctx) st
                (mkState w (<[imp:=true]> (resolved st))
                   (trace st ++ Fetch imp Found :: evs)) ∧
              (Some e = None →
                 is_Some (<[imp:=true]> (resolved st) !! imp)) ∧
              (no_local (trace st) →
                 no_local (trace st ++ Fetch imp Found :: evs))) as Hfail
    by (intros w evs Hevs Hloc e; split;
        [apply keeps_step; [right; by exists imp|by constructor]|];
        split; [done|]; intros Hn; apply no_local_app; [done|];
        intros path [[=]|?]%elem_of_cons; by eapply Hloc).
  destruct (os_MkdirAll _ _) as [[e|] w2];
    [intros [= <- <-]; apply (Hfail w2 []); [constructor|];
     by intros path ?%elem_of_nil|].
  unfold emit at 1, sys at 1; cbn [world resolved trace];
    rewrite <- app_assoc; cbn [app].
  destruct (os_Create _ _) as [[e|] w3];
    [intros [= <- <-]; apply (Hfail w3 [Write imp destFile]);
     [by repeat constructor|];
     by intros path [[=]|?%elem_of_nil]%elem_of_cons|].
  unfold sys at 1; cbn [world resolved trace].
  destruct (io_Copy _ _ _) as [[e|] w4];
    [intros [= <- <-]; apply (Hfail w4 [Write imp destFile]);
     [by repeat constructor|];
     by intros path [[=]|?%elem_of_nil]%elem_of_cons|].
  unfold emit at 1, sys at 1; cbn [world resolved trace];
    rewrite <- app_assoc; cbn [app].
  assert (Forall (event_ok (dest ctx))
                 [Write imp destFile; Reopen imp destFile]) as Hevs
    by (by repeat constructor).
  assert (∀ path, OpenLocal path
                 ∉ [Write imp destFile; Reopen imp destFile]) as Hloc
    by (by intros path [[=]|[[=]|?%elem_of_nil]%elem_of_cons]%elem_of_cons).
  destruct (os_Open _ _) as [[f|e] w5];
    [|intros [= <- <-]; by apply (Hfail w5 _ Hevs Hloc)].
  unfold resolveImports_with; destruct (parser_Parse _) as [proto|e];
    [|intros [= <- <-]; by apply (Hfail w5 _ Hevs Hloc)].
  intros Hrun; apply (importLoop_phase _ _ _ IH) in Hrun as [Hk Hn];
    destruct (Hfail w5 _ Hevs Hloc (EExternal "")) as (Hk0 & _ & Hn0);
    split; [by eapply keeps_trans|];
    split; [|by auto];
    intros _; apply Hk; cbn [resolved]; rewrite lookup_insert_eq; by eexists.
Qed.

Lemma walkLoop_keeps fuel ctx entries st r st' :
  walkLoop fuel ctx entries st = Some (r, st') → keeps (dest ctx) st st'.
Proof.
  revert st. induction entries as [|[path err] rest IH]; intros st; simpl.
  { intros [= <- <-]. apply keeps_refl. }
  unfold mbind, M_bind.
  destruct (walkFn _ _ _ _ _) as [[r1 st1]|] eqn:Hfn; [|done].
  assert (keeps (dest ctx) st st1) as Hk1.
  { revert Hfn. unfold walkFn.
    destruct err as [e|]; [intros [= <- <-]; apply keeps_refl|].
    destruct (negb _) eqn:Hsuffix; [intros [= <- <-]; apply keeps_refl|].
    apply negb_false_iff in Hsuffix.
    unfold mbind, M_bind, emit, sys. cbn [world resolved trace].
    assert (∀ w : W, keeps (dest ctx) st
              (mkState w (resolved st) (trace st ++ [OpenLocal path]))) as Hk
      by (intros w; apply keeps_step; [by left|by repeat constructor]).
    destruct (os_Open _ _) as [[f|e] w1]; [|intros [= <- <-]; apply Hk].
    unfold resolveImports, resolveImports_with.
    destruct (parser_Parse _) as [proto|e]; [|intros [= <- <-]; apply Hk].
    intros Hrun.
    apply (importLoop_phase _ _ _ (recursiveResolve_phase fuel ctx)) in Hrun
      as [Hk' _].
    by eapply keeps_trans. }
  destruct r1 as [e|]; [by intros [= <- <-]|].
  intros Hrun. apply IH in Hrun. by eapply keeps_trans.
Qed.

Lemma resolveLocalRoot_keeps fuel ctx root st r st' :
  resolveLocalRoot fuel ctx root st = Some (r, st') → keeps (dest ctx) st st'.
Proof.
  unfold resolveLocalRoot, mbind, M_bind, sys.
  destruct (filepath_Walk _ _) as [entries w1].
  destruct (walkLoop _ _ _ _) as [[err st1]|] eqn:Hloop; [|done].
  apply walkLoop_keeps in Hloop. by intros [= <- <-].
Qed.

Lemma forEach_imports_phase fuel ctx srcs st r st' :
  forEach (recursiveResolve fuel ctx) srcs st = Some (r, st') →
  keeps (dest ctx) st st' ∧
  (no_local (trace st) → no_local (trace st')) ∧
  (r = None → ∀ src, src ∈ srcs → is_Some (resolved st' !! src)).
Proof.
  revert st. induction srcs as [|src rest IH]; intros st; simpl.
  { intros [= <- <-]. split; [apply keeps_refl|]. split; [done|].
    by intros _ src ?%elem_of_nil. }
  unfold mbind, M_bind.
  destruct (recursiveResolve _ _ _ _) as [[r1 st1]|] eqn:Hsrc; [|done].
  apply recursiveResolve_phase in Hsrc as (Hk1 & Hmark & Hn1).
  destruct r1 as [e|]; [by intros [= <- <-]|].
  intros Hrun. apply IH in Hrun as (Hk & Hn & Hall).
  split; [by eapply keeps_trans|]. split; [by auto|].
  intros Hr src' [->|Hin]%elem_of_cons; [|by apply Hall].
  apply Hk. by apply Hmark.
Qed.

Lemma forEach_roots_keeps fuel ctx roots st r st' :
  forEach (resolveLocalRoot fuel ctx) roots st = Some (r, st') →
  keeps (dest ctx) st st'.
Proof.
  revert st. induction roots as [|root rest IH]; intros st; simpl.
  { intros [= <- <-]. apply keeps_refl. }
  unfold mbind, M_bind.
  destruct (resolveLocalRoot _ _ _ _) as [[r1 st1]|] eqn:Hroot; [|done].
  apply resolveLocalRoot_keeps in Hroot.
  destruct r1 as [e|]; [by intros [= <- <-]|].
  intros Hrun. apply IH in Hrun. by eapply keeps_trans.
Qed.

End PhaseFacts.



(** X20. Sync walks the local roots only after every explicit .proto
    source is resolved: in a run where a file under a root was opened,
    each explicit .proto source is marked resolved. *)
Theorem Sync_walks_roots_after_imports {lib : GoLib} {W : Type} {os : Sys W}
    (fuel : nat) (resolve : Resolver W) (dest : string) (sources : list string)
    (w : W) (res : option (list string) * error) (st' : state W) (path : string) :
  Sync fuel resolve dest sources w = Some (res, st') →
  OpenLocal path ∈ trace st' →
  ∀ src, src ∈ sources → isProto src = true → is_Some (resolved st' !! src).
Proof.
  unfold Sync, syncBody, mbind, M_bind.
  set (ctx := mkContext _ resolve dest).
  destruct (forEach _ _ _) as [[r1 st1]|] eqn:H1; [|done].
  apply forEach_imports_phase in H1 as (_ & Hn & Hall).
  assert (no_local (trace st1)) as Hn1
    by (apply Hn; by intros p ?%elem_of_nil).
  destruct r1 as [e|].
  { intros [= <- <-] Hin. by apply Hn1 in Hin. }
  destruct (forEach _ _ _) as [[r2 st2]|] eqn:H2; [|done].
  apply forEach_roots_keeps in H2 as [Hg _].
  intros Hrun _ src Hin Hproto.
  assert (st' = st2) as -> by (destruct r2; by injection Hrun).
  apply Hg, Hall; [done|].
  apply list_elem_of_In, filter_In. split; [by apply list_elem_of_In|done].
Qed.



Lemma Sync_walks_roots_after_imports_witness :
  let m : gmap string string := list_to_map [("a.proto", "")] in
  let locals : gmap string string := list_to_map [("root/b.proto", "")] in
  ∃ st',
    Sync (lib := Sim.lib []) (os := Sim.disk_sys locals) 3 (Sim.serve m) "out"
      ["root"; "a.proto"] (Sim.mkDisk ∅ ∅)
      = Some ((Some ["a.proto"], None), st') ∧
    trace st' = [Fetch "a.proto" Found; Write "a.proto" "out/a.proto";
                 Reopen "a.proto" "out/a.proto"; OpenLocal "root/b.proto"] ∧
    is_Some (resolved st' !! "a.proto").
Proof.
  intros m locals.
  destruct (Sync (lib := Sim.lib []) (os := Sim.disk_sys locals) 3 (Sim.serve m)
              "out" ["root"; "a.proto"] (Sim.mkDisk ∅ ∅))
    as [[res st']|] eqn:Hrun; [|by vm_compute in Hrun].
  exists st'.
  assert (OpenLocal "root/b.proto" ∈ trace st') as Hin.
  { pose proof Hrun as Hnf. vm_compute in Hnf. injection Hnf as _ <-.
    apply list_elem_of_In. vm_compute. tauto. }
  pose proof (Sync_walks_roots_after_imports _ _ _ _ _ _ _ _ Hrun Hin
                "a.proto" ltac:(by right; left) eq_refl) as Hmarked.
  vm_compute in Hrun. injection Hrun as <- <-.
  split; [reflexivity|]. split; [reflexivity|exact Hmarked].
Defined.

(** ** The logger *)

Section LogFacts.
Context {lib : GoLib}.
Variable colour_Sprintf : string → list string → string.
Implicit Types (l : log.Logger) (g : log.Globals) (x b pre post : Bytes).

Lemma length_append x b :
  String.length (x +:+ b) = String.length x + String.length b.
Proof.
  induction x as [|ch x IH]; [done|].
  change (S (String.length (x +:+ b)) = S (String.length x + String.length b)).
  by rewrite IH.
Qed.

Lemma substring_all x : String.substring 0 (String.length x) x = x.
Proof. induction x as [|ch x IH]; [done|]. simpl. by rewrite IH. Qed.

Lemma substring_prefix pre x :
  String.substring 0 (String.length pre) (pre +:+ x) = pre.
Proof.
  induction pre as [|ch pre IH]; [by destruct x|].
  change (String ch (String.substring 0 (String.length pre) (pre +:+ x))
          = String ch pre).
  by rewrite IH.
Qed.

Lemma from_suffix pre c post :
  log.from (String.length pre + 1) (pre +:+ String c post) = post.
Proof.
  unfold log.from. rewrite length_append. cbn [String.length].
  replace (String.length pre + S (String.length post) - (String.length pre + 1))
    with (String.length post) by lia.
  induction pre as [|ch pre IH]; [apply substring_all|exact IH].
Qed.

Lemma IndexByte_at pre c post :
  log.IndexByte pre c = None →
  log.IndexByte (pre +:+ String c post) c = Some (String.length pre).
Proof.
  induction pre as [|ch pre IH]; intros Hpre.
  - change (log.IndexByte (String c post) c = Some 0).
    cbn [log.IndexByte]. by rewrite Ascii.eqb_refl.
  - change (log.IndexByte (String ch (pre +:+ String c post)) c
            = Some (S (String.length pre))).
    cbn [log.IndexByte] in *. destruct (Ascii.eqb ch c); [done|].
    destruct (log.IndexByte pre c); [done|]. by rewrite IH.
Qed.

(** A buffer has no [c], or is cut at the first one. *)
Lemma IndexByte_cut x c :
  log.IndexByte x c = None ∨
  ∃ pre post, x = pre +:+ String c post ∧ log.IndexByte pre c = None.
Proof.
  induction x as [|ch x IH]; [by left|].
  cbn [log.IndexByte]. destruct (Ascii.eqb_spec ch c) as [->|Hne].
  - right. by exists "", x.
  - destruct IH as [->|(pre & post & -> & Hpre)]; [by left|].
    right. exists (String ch pre), post. split; [done|].
    cbn [log.IndexByte]. destruct (Ascii.eqb_spec ch c); [done|].
    by rewrite Hpre.
Qed.

(** A buffer without a line feed is left as it is. *)
Lemma writeLoop_rest fuel p x g :
  log.IndexByte x log.LF = None →
  log.writeLoop colour_Sprintf fuel (log.mkLogger p x) g = (log.mkLogger p x, g).
Proof. intros Hx. destruct fuel; [done|]. cbn [log.writeLoop log.buf]. by rewrite Hx. Qed.

(** One turn of the loop logs the first line and keeps what follows it. *)
Lemma writeLoop_line fuel p pre post g :
  log.IndexByte pre log.LF = None →
  log.writeLoop colour_Sprintf (S fuel)
    (log.mkLogger p (pre +:+ String log.LF post)) g
  = log.writeLoop colour_Sprintf fuel (log.mkLogger p post)
      (log.Debugf colour_Sprintf (log.mkLogger p "") "%s" [pre] g).
Proof.
  intros Hpre. cbn [log.writeLoop log.buf log.prefix].
  rewrite (IndexByte_at _ _ post Hpre), substring_prefix, from_suffix.
  rewrite length_append. cbn [String.length].
  by replace (Nat.leb _ _) with false by (symmetry; apply Nat.leb_gt; lia).
Qed.

(** The lines that the loop logs, and the globals after them. *)
Lemma writeLoop_lines fuel p x g :
  String.length x < fuel →
  ∃ lines rest,
    x = foldr (λ line acc, line +:+ String log.LF acc) rest lines ∧
    Forall (λ s, log.IndexByte s log.LF = None) (rest :: lines) ∧
    log.writeLoop colour_Sprintf fuel (log.mkLogger p x) g
    = (log.mkLogger p rest,
       foldl (λ g line, log.Debugf colour_Sprintf (log.mkLogger p "") "%s" [line] g)
         g lines).
Proof.
  revert x g. induction fuel as [|fuel IH]; intros x g Hlen; [lia|].
  destruct (IndexByte_cut x log.LF) as [Hx|(pre & post & -> & Hpre)].
  - exists [], x. split; [done|]. split; [by repeat constructor|].
    by apply writeLoop_rest.
  - rewrite length_append in Hlen. cbn [String.length] in Hlen.
    destruct (IH post (log.Debugf colour_Sprintf (log.mkLogger p "") "%s" [pre] g))
      as (lines & rest & -> & Hall & Hrun); [lia|].
    exists (pre :: lines), rest. split; [done|]. split.
    + apply Forall_cons in Hall as [Hrest Hlines]. by repeat constructor.
    + by rewrite writeLoop_line.
Qed.

(** More turns than the buffer has bytes change nothing. *)
Lemma writeLoop_fuel fuel fuel' p x g :
  String.length x < fuel → String.length x < fuel' →
  log.writeLoop colour_Sprintf fuel (log.mkLogger p x) g
  = log.writeLoop colour_Sprintf fuel' (log.mkLogger p x) g.
Proof.
  revert fuel' x g. induction fuel as [|fuel IH]; intros fuel' x g Hlen Hlen'; [lia|].
  destruct fuel' as [|fuel']; [lia|].
  destruct (IndexByte_cut x log.LF) as [Hx|(pre & post & -> & Hpre)].
  - by rewrite !writeLoop_rest.
  - rewrite length_append in Hlen, Hlen'. cbn [String.length] in Hlen, Hlen'.
    rewrite !writeLoop_line by done. apply IH; lia.
Qed.

(** Bytes that come after the loop ran give the same as bytes that were
    there before it ran. *)
Lemma writeLoop_app fuel fuel' p x b g :
  String.length x < fuel → String.length (x +:+ b) < fuel' →
  log.writeLoop colour_Sprintf fuel' (log.mkLogger p (x +:+ b)) g
  = let '(l1, g1) := log.writeLoop colour_Sprintf fuel (log.mkLogger p x) g in
    log.writeLoop colour_Sprintf (S (String.length (log.buf l1 +:+ b)))
      (log.mkLogger p (log.buf l1 +:+ b)) g1.
Proof.
  revert fuel' x g. induction fuel as [|fuel IH]; intros fuel' x g Hlen Hlen'; [lia|].
  destruct (IndexByte_cut x log.LF) as [Hx|(pre & post & -> & Hpre)].
  - rewrite (writeLoop_rest (S fuel)) by done. cbn [log.buf].
    apply writeLoop_fuel; lia.
  - destruct fuel' as [|fuel']; [lia|].
    rewrite append_assoc in *.
    change (String log.LF post +:+ b) with (String log.LF (post +:+ b)) in *.
    rewrite !length_append in Hlen, Hlen'. cbn [String.length] in Hlen, Hlen'.
    rewrite length_append in Hlen'.
    rewrite !writeLoop_line by done. apply IH; [lia|rewrite length_append; lia].
Qed.

End LogFacts.

(** X21. LevelFromString gives a level without an error exactly for the
    name that Level.String prints for that level, and for "warning", which
    gives the warn level. So parsing what String printed gives the level
    back, and the names are matched by case. *)
Theorem LevelFromString_accepts (s : string) (level : log.Level) :
  log.LevelFromString s = (level, None) ↔
  s = log.Level_String level ∨ (s = "warning" ∧ level = log.LevelWarn).
Proof.
  split.
  - unfold log.LevelFromString.
    repeat match goal with
      | |- context [String.eqb s ?t] =>
          destruct (String.eqb_spec s t) as [->|?]; cbn [orb];
          [intros [= <-]; auto|]
      end.
    done.
  - intros [->|[-> ->]]; [by destruct level|done].
Qed.

(** X22. For any other text LevelFromString gives the error
    invalid log level, naming the text, together with level 0, which is
    the trace level. *)
Theorem LevelFromString_rejects (s : string) :
  s ∉ ["trace"; "debug"; "info"; "warn"; "warning"; "error"; "fatal"] →
  log.LevelFromString s
  = (log.LevelTrace, Some (EErrorf "invalid log level %q" [s])).
Proof.
  intros Hs. unfold log.LevelFromString.
  repeat match goal with
    | |- context [String.eqb s ?t] =>
        destruct (String.eqb_spec s t) as [->|?]; cbn [orb];
        [exfalso; apply Hs; apply list_elem_of_In; simpl; tauto|]
    end.
  done.
Qed.

Lemma LevelFromString_rejects_witness :
  ("WARN" ∉ ["trace"; "debug"; "info"; "warn"; "warning"; "error"; "fatal"]) ∧
  log.LevelFromString "WARN"
  = (log.LevelTrace, Some (EErrorf "invalid log level %q" ["WARN"])).
Proof.
  assert ("WARN" ∉ ["trace"; "debug"; "info"; "warn"; "warning"; "error"; "fatal"])
    as Hs by (intros Hin; apply list_elem_of_In in Hin; simpl in Hin;
              intuition discriminate).
  split; [exact Hs|exact (LevelFromString_rejects "WARN" Hs)].
Defined.

Section WriteFacts.
Context {lib : GoLib}.
Variable colour_Sprintf : string → list string → string.

(** What a run of debug lines leaves in the globals. *)
Lemma Debugf_lines (p : list string) (lines : list string) (g : log.Globals) :
  let g' := foldl (λ g line,
              log.Debugf colour_Sprintf (log.mkLogger p "") "%s" [line] g) g lines in
  let format :=
    fmt_Sprintf ("^B%s%s:%s^R%s%s^R" +:+ String log.LF "")
      ["^6"; "debug"; log.prefixIt (log.mkLogger p ""); "^6"; "%s"] in
  log.MinLevel g' = log.MinLevel g ∧ log.LogOutput g' = log.LogOutput g ∧
  log.LogError g' = log.LogError g ∧
  log.written g'
  = log.written g ++
    (if (log.Level_int (log.MinLevel g) <=? 1)%Z
     then map (λ line, (log.LogOutput g, colour_Sprintf format [line])) lines
     else []).
Proof.
  revert g. induction lines as [|line lines IH]; intros g; cbn [foldl map].
  - repeat split; try done. destruct (_ <=? _)%Z; by rewrite app_nil_r.
  - destruct (IH (log.Debugf colour_Sprintf (log.mkLogger p "") "%s" [line] g))
      as (Hmin & Hout & Herr & Hw). cbn zeta in *.
    rewrite Hmin, Hout, Herr, Hw. clear IH Hmin Hout Herr Hw.
    unfold log.Debugf, log.Logf. cbn [log.Level_int].
    destruct (Z.ltb_spec 1 (log.Level_int (log.MinLevel g))) as [Hlt|Hge].
    + repeat split; try done.
      by replace (_ <=? _)%Z with false by (symmetry; apply Z.leb_gt; lia).
    + cbn [log.MinLevel log.LogOutput log.LogError log.written bool_decide
           decide_rel log.levelColor log.Level_String].
      repeat split; try done.
      replace (_ <=? _)%Z with true by (symmetry; apply Z.leb_le; lia).
      by rewrite <- app_assoc.
Qed.

End WriteFacts.

(** X23. Logger.Write accepts every byte and never fails. The buffer and
    the new bytes are cut at the line feeds: each complete line is logged
    once, in order, at the debug level with the prefix of the logger, to
    LogOutput when the minimum level lets debug through and not at all
    otherwise; what follows the last line feed stays in the buffer, which
    then holds no line feed. The minimum level and the outputs are not
    changed. *)
Theorem Write_buffers_lines {lib : GoLib}
    (colour_Sprintf : string → list string → string)
    (l : log.Logger) (b : Bytes) (g : log.Globals) :
  ∃ lines rest g',
    log.Write colour_Sprintf l b g
    = ((String.length b, None), (log.mkLogger (log.prefix l) rest, g')) ∧
    log.buf l +:+ b = foldr (λ line acc, line +:+ String log.LF acc) rest lines ∧
    Forall (λ s, log.IndexByte s log.LF = None) (rest :: lines) ∧
    log.MinLevel g' = log.MinLevel g ∧ log.LogOutput g' = log.LogOutput g ∧
    log.LogError g' = log.LogError g ∧
    log.written g'
    = log.written g ++
      (if (log.Level_int (log.MinLevel g) <=? log.Level_int log.LevelDebug)%Z
       then map (λ line,
              (log.LogOutput g,
               colour_Sprintf
                 (fmt_Sprintf ("^B%s%s:%s^R%s%s^R" +:+ String log.LF "")
                    ["^6"; "debug"; log.prefixIt l; "^6"; "%s"])
                 [line])) lines
       else []).
Proof.
  unfold log.Write. cbn [log.prefix log.buf].
  destruct (writeLoop_lines colour_Sprintf (S (String.length (log.buf l +:+ b)))
              (log.prefix l) (log.buf l +:+ b) g) as (lines & rest & Hsplit & Hall & Hrun);
    [lia|].
  exists lines, rest. eexists. split; [by rewrite Hrun|].
  split; [exact Hsplit|]. split; [exact Hall|].
  exact (Debugf_lines colour_Sprintf (log.prefix l) lines g).
Qed.

(** X24. Writing bytes to a logger in two pieces logs the same lines and
    leaves the same buffer as writing them at once. *)
Theorem Write_in_pieces {lib : GoLib}
    (colour_Sprintf : string → list string → string)
    (l : log.Logger) (a b : Bytes) (g : log.Globals) :
  let '(_, (l1, g1)) := log.Write colour_Sprintf l a g in
  snd (log.Write colour_Sprintf l1 b g1)
  = snd (log.Write colour_Sprintf l (a +:+ b) g).
Proof.
  unfold log.Write. cbn [log.prefix log.buf snd].
  pose proof (writeLoop_app colour_Sprintf (S (String.length (log.buf l +:+ a)))
                (S (String.length (log.buf l +:+ (a +:+ b))))
                (log.prefix l) (log.buf l +:+ a) b g) as Happ.
  rewrite append_assoc in Happ. rewrite Happ by lia. clear Happ.
  destruct (writeLoop_lines colour_Sprintf (S (String.length (log.buf l +:+ a)))
              (log.prefix l) (log.buf l +:+ a) g) as (lines & rest & _ & _ & ->);
    [lia|].
  done.
Qed.
